(** * Mus rules engine: a shallow embedding of [cards.py], [hand_evaluation.py]
    and [game_logic.py], with the properties of the card model, the hand
    evaluators, the betting round and the game orchestrator.

    Conventions of the embedding.
    - Python [int]s are [Z]; player identifiers and [num_players] are [nat]
      (they come from [range(num_players)]).
    - A Python [dict] whose iteration order is observed ([bets], [active],
      a [Counter]) is an insertion-ordered association list ([pydict]);
      dictionaries that are only looked up are [gmap]s; Python [set]s are
      [gset]s, visited in an order that is a parameter of the model
      ([SetOrder]).
    - Tuples of integers returned by the evaluators are [list Z], compared
      with Python's lexicographic tuple order ([tuple_compare]).
    - Methods of [MusGame] run in a state-and-exception monad over the game
      object and the state of the global [random] module; an exception keeps
      the mutations made before it, as in Python. *)

From Stdlib Require Import ZArith QArith List Permutation.
From stdpp Require Import base decidable numbers list sorting finite gmap strings pretty.

Local Open Scope string_scope.
Local Open Scope nat_scope.
Local Open Scope list_scope.

(** ** cards.py *)

Inductive Rank := King | Three | Knight | Jack | Seven | Six | Five | Four | Two | Ace.
Inductive Suit := Oros | Copas | Espadas | Bastos.

Definition RANKS : list Rank :=
  [King; Three; Knight; Jack; Seven; Six; Five; Four; Two; Ace].

Definition SUITS : list Suit := [Oros; Copas; Espadas; Bastos].

Definition ORDER (r : Rank) : Z :=
  match r with
  | King => 9 | Three => 9 | Knight => 8 | Jack => 7 | Seven => 6
  | Six => 5 | Five => 4 | Four => 3 | Two => 2 | Ace => 2
  end.

Definition VALUES (r : Rank) : Z :=
  match r with
  | King => 10 | Three => 10 | Knight => 10 | Jack => 10 | Seven => 7
  | Six => 6 | Five => 5 | Four => 4 | Two => 1 | Ace => 1
  end.

(** [Card.order] and [Card.value] are set from the rank in [__init__] and
    never reassigned: they are projections of the rank. *)
Record Card := mkCard { rank : Rank; suit : Suit }.

Definition order (c : Card) : Z := ORDER (rank c).
Definition value (c : Card) : Z := VALUES (rank c).

#[global] Instance Rank_eq_dec : EqDecision Rank.
Proof. solve_decision. Defined.
#[global] Instance Suit_eq_dec : EqDecision Suit.
Proof. solve_decision. Defined.
#[global] Instance Card_eq_dec : EqDecision Card.
Proof. solve_decision. Defined.

#[global, program] Instance Rank_finite : Finite Rank := {| enum := RANKS |}.
Next Obligation. by compute_done. Qed.
Next Obligation. intros []; compute_done. Qed.

(** [Deck.__init__]: [[Card(rank, suit) for suit in SUITS for rank in RANKS
    if rank in RANKS]]. *)
Definition Deck_init : list Card :=
  suit ← SUITS; rank ← filter (λ r, r ∈ RANKS) RANKS; [mkCard rank suit].

(** Python slices [l[:n]] and [l[n:]] for an integer [n]; a negative [n]
    counts from the end, and no slice raises. *)
Definition slice_to {A} (n : Z) (l : list A) : list A :=
  if (0 <=? n)%Z then take (Z.to_nat n) l
  else take (length l - Z.to_nat (- n)) l.

Definition slice_from {A} (n : Z) (l : list A) : list A :=
  if (0 <=? n)%Z then drop (Z.to_nat n) l
  else drop (length l - Z.to_nat (- n)) l.

(** [Deck.deal]: returns the dealt cards and the cards left in the deck. *)
Definition deal (num_cards : Z) (cards : list Card) : list Card * list Card :=
  let dealt_cards := slice_to num_cards cards in
  (dealt_cards, slice_from num_cards cards).

(** ** hand_evaluation.py *)

(** Python's order on tuples of integers. *)
Fixpoint tuple_compare (a b : list Z) : comparison :=
  match a, b with
  | [], [] => Eq
  | [], _ :: _ => Lt
  | _ :: _, [] => Gt
  | x :: a', y :: b' =>
      match (x ?= y)%Z with
      | Eq => tuple_compare a' b'
      | c => c
      end
  end.

Fixpoint insert_sorted (x : Z) (l : list Z) : list Z :=
  match l with
  | [] => [x]
  | y :: l' => if (x <=? y)%Z then x :: l else y :: insert_sorted x l'
  end.

(** [sorted(l)] on integers, and [sorted(l, reverse=True)]. *)
Definition sorted (l : list Z) : list Z := foldr insert_sorted [] l.
Definition sorted_reverse (l : list Z) : list Z := reverse (sorted l).

Definition evaluate_grande (hand : list Card) : list Z :=
  sorted_reverse (order <$> hand).

Definition evaluate_chica (hand : list Card) : list Z :=
  sorted (order <$> hand).

(** An insertion-ordered dictionary: assignment to a present key keeps its
    position, assignment to a new key appends. *)
Definition pydict (K V : Type) : Type := list (K * V).

Fixpoint dict_get {K V} `{EqDecision K} (k : K) (d : pydict K V) : option V :=
  match d with
  | [] => None
  | (k', v) :: d' => if decide (k = k') then Some v else dict_get k d'
  end.

Fixpoint dict_set {K V} `{EqDecision K} (k : K) (v : V) (d : pydict K V) : pydict K V :=
  match d with
  | [] => [(k, v)]
  | (k', v') :: d' =>
      if decide (k = k') then (k, v) :: d' else (k', v') :: dict_set k v d'
  end.

(** [collections.Counter(iterable)]: counts in first-occurrence order. *)
Definition Counter {K} `{EqDecision K} (l : list K) : pydict K nat :=
  foldl (λ counts k, dict_set k (S (default 0 (dict_get k counts))) counts) [] l.

Definition ranks_with_count (n : nat) (counts : pydict Rank nat) : list Rank :=
  (filter (λ rc, rc.2 = n) counts).*1.

(** The body of [evaluate_pairs] after [counts = Counter(card.rank for card
    in hand)], the only place where it reads the hand. *)
Definition pairs_of_ranks (ranks : list Rank) : list Z :=
  let counts := Counter ranks in
  let pairs := ranks_with_count 2 counts in
  let triples := ranks_with_count 3 counts in
  let quads := ranks_with_count 4 counts in
  match quads, triples with
  | q :: _, _ => [3; ORDER q]%Z
  | [], t :: _ => [2; ORDER t]%Z
  | [], [] =>
      if decide (length pairs = 2) then 3%Z :: sorted_reverse (ORDER <$> pairs)
      else match pairs with
           | [p] => [1; ORDER p]%Z
           | _ => [0]%Z
           end
  end.

Definition evaluate_pairs (hand : list Card) : list Z := pairs_of_ranks (rank <$> hand).

Definition hand_total (hand : list Card) : Z := foldr Z.add 0%Z (value <$> hand).

Definition juego_ranking : pydict Z Z :=
  [(31, 8); (32, 7); (40, 6); (37, 5); (36, 4); (35, 3); (34, 2); (33, 1)]%Z.

Definition evaluate_juego (hand : list Card) : list Z :=
  let total := hand_total hand in
  if (31 <=? total)%Z then [1; default 0 (dict_get total juego_ranking)]%Z
  else [0; total]%Z.

(** ** game_logic.py: exceptions and results *)

Inductive PyExn := KeyError | IndexError | TypeError | ZeroDivisionError | ValueError.

(** What a call can end with: a returned value, a raised exception, or (for
    the betting loop only) an exhausted iteration budget. *)
Inductive Outcome (A : Type) : Type :=
  | Ok (a : A)
  | Raise (e : PyExn)
  | OutOfFuel.
Arguments Ok {A} a.
Arguments Raise {A} e.
Arguments OutOfFuel {A}.

(** [max(iterable, key=...)] and [min(iterable, key=...)]: the first extremal
    element in iteration order ([None] here stands for the [ValueError] on an
    empty iterable). *)
Definition py_extremum_by {A K} (better : K → K → bool) (key : A → K) (l : list A) : option A :=
  match l with
  | [] => None
  | x :: l' => Some (foldl (λ best y, if better (key y) (key best) then y else best) x l')
  end.

Definition py_max_by {A} (key : A → Z) : list A → option A :=
  py_extremum_by Z.gtb key.

Definition tuple_gtb (a b : list Z) : bool :=
  match tuple_compare a b with Gt => true | _ => false end.
Definition tuple_ltb (a b : list Z) : bool :=
  match tuple_compare a b with Lt => true | _ => false end.

(** ** game_logic.py: BettingRound *)

(** A recorded bet: an integer, or the string ['ordago']. [None] in [bets] is
    the outer [option]. *)
Inductive BetValue := Amount (z : Z) | OrdagoBet.

#[global] Instance BetValue_eq_dec : EqDecision BetValue.
Proof. solve_decision. Defined.

Record BettingRound := mkBettingRound {
  players : list nat;
  play_type : string;
  current_bet : Z;
  bets : pydict nat (option BetValue);
  active : pydict nat bool;
  last_raiser : option nat;
  finished : bool
}.

Definition with_current_bet (v : Z) (self : BettingRound) : BettingRound :=
  mkBettingRound (players self) (play_type self) v (bets self) (active self)
                 (last_raiser self) (finished self).
Definition with_bets (v : pydict nat (option BetValue)) (self : BettingRound) : BettingRound :=
  mkBettingRound (players self) (play_type self) (current_bet self) v (active self)
                 (last_raiser self) (finished self).
Definition with_active (v : pydict nat bool) (self : BettingRound) : BettingRound :=
  mkBettingRound (players self) (play_type self) (current_bet self) (bets self) v
                 (last_raiser self) (finished self).
Definition with_last_raiser (v : option nat) (self : BettingRound) : BettingRound :=
  mkBettingRound (players self) (play_type self) (current_bet self) (bets self) (active self)
                 v (finished self).
Definition with_finished (v : bool) (self : BettingRound) : BettingRound :=
  mkBettingRound (players self) (play_type self) (current_bet self) (bets self) (active self)
                 (last_raiser self) v.

(** [{p: v for p in players}] *)
Definition dict_from_keys {V} (v : V) (keys : list nat) : pydict nat V :=
  foldl (λ d p, dict_set p v d) [] keys.

(** [BettingRound.__init__] *)
Definition BettingRound_init (players : list nat) (play_type : string) (initial_bet : Z)
  : BettingRound :=
  {| players := players; play_type := play_type; current_bet := initial_bet;
     bets := dict_from_keys None players; active := dict_from_keys true players;
     last_raiser := None; finished := false |}.

(** [BettingRound.player_action]. The only statement that can raise is the
    first one, [self.active[player]], before anything is assigned. *)
Definition player_action (player : nat) (action : string) (amount : Z)
    (self : BettingRound) : Outcome BettingRound :=
  match dict_get player (active self) with
  | None => Raise KeyError
  | Some false => Ok self
  | Some true =>
      if (action =? "bet")%string then
        let self := if (current_bet self =? 0)%Z then with_current_bet 1 self else self in
        let self := with_bets (dict_set player (Some (Amount (current_bet self))) (bets self)) self in
        Ok (with_last_raiser (Some player) self)
      else if (action =? "raise")%string then
        let self := with_current_bet (current_bet self + amount) self in
        let self := with_bets (dict_set player (Some (Amount (current_bet self))) (bets self)) self in
        Ok (with_last_raiser (Some player) self)
      else if (action =? "call")%string then
        Ok (with_bets (dict_set player (Some (Amount (current_bet self))) (bets self)) self)
      else if (action =? "pass")%string then
        Ok (with_active (dict_set player false (active self)) self)
      else if (action =? "ordago")%string then
        let self := with_bets (dict_set player (Some OrdagoBet) (bets self)) self in
        Ok (with_finished true self)
      else Ok self
  end.

Definition active_players (self : BettingRound) : list nat :=
  (filter (λ pa, pa.2 = true) (active self)).*1.

(** The integer bets among [bs]: neither [None] nor ['ordago']. *)
Definition numeric_bets (bs : list (option BetValue)) : list Z :=
  omap (λ b, match b with Some (Amount z) => Some z | _ => None end) bs.

(** [BettingRound.is_round_complete]; [self.bets[p]] raises [KeyError] for a
    player missing from [bets]. *)
Definition is_round_complete (self : BettingRound) : Outcome bool :=
  if decide (length (active_players self) ≤ 1) then Ok true
  else
    match mapM (λ p, dict_get p (bets self)) (active_players self) with
    | None => Raise KeyError
    | Some bs =>
        let active_bets := numeric_bets bs in
        Ok (bool_decide (active_bets ≠ [] ∧ length (remove_dups active_bets) = 1))
    end.

(** An entry of [valid_bets] in [get_winner]: a bet that is not [None]. No
    entry is ['ordago'] when [valid_bets] is built (the loop before it has
    returned otherwise), so the bets kept are the integers. *)
Definition valid_bet (pb : nat * option BetValue) : option (nat * Z) :=
  match pb.2 with Some (Amount z) => Some (pb.1, z) | _ => None end.

(** [BettingRound.get_winner]; [max] returns the first key whose bet is
    maximal. *)
Definition get_winner (self : BettingRound) : option nat * option BetValue :=
  match list_find (λ pb, pb.2 = Some OrdagoBet) (bets self) with
  | Some (_, (p, _)) => (Some p, Some OrdagoBet)
  | None =>
      let valid_bets : pydict nat Z := omap valid_bet (bets self) in
      match py_max_by snd valid_bets with
      | Some (winner, _) => (Some winner, Some (Amount (current_bet self)))
      | None => (None, None)
      end
  end.

(** ** game_logic.py: MusGame *)

(** The state of a [MusGame] object. [scores] is the dictionary [{0: _, 1: _}];
    [hands_revealed] is an attribute that does not exist before
    [initial_deal] or [reveal_hands] assigns it. *)
Record MusGame := mkMusGame {
  num_players : nat;
  target_score : Z;
  deck : list Card;
  hands : gmap nat (list Card);
  discard_pile : list Card;
  current_phase : string;
  scores : Z * Z;
  mano : option nat;
  turn_order : list nat;
  current_turn_index : nat;
  play_categories : list string;
  play_results : gmap string (option nat * option BetValue);
  ordago_active : bool;
  ordago_player : option nat;
  covert_signals : gmap nat Z;
  intercepted_signals : gmap nat (gset nat);
  signal_intercept_chance : Q;
  hands_revealed : option bool
}.

Definition with_deck (v : list Card) (self : MusGame) : MusGame :=
  mkMusGame (num_players self) (target_score self) v (hands self) (discard_pile self)
    (current_phase self) (scores self) (mano self) (turn_order self) (current_turn_index
    self) (play_categories self) (play_results self) (ordago_active self) (ordago_player
    self) (covert_signals self) (intercepted_signals self) (signal_intercept_chance
    self) (hands_revealed self).
Definition with_hands (v : gmap nat (list Card)) (self : MusGame) : MusGame :=
  mkMusGame (num_players self) (target_score self) (deck self) v (discard_pile self)
    (current_phase self) (scores self) (mano self) (turn_order self) (current_turn_index
    self) (play_categories self) (play_results self) (ordago_active self) (ordago_player
    self) (covert_signals self) (intercepted_signals self) (signal_intercept_chance
    self) (hands_revealed self).
Definition with_discard_pile (v : list Card) (self : MusGame) : MusGame :=
  mkMusGame (num_players self) (target_score self) (deck self) (hands self) v
    (current_phase self) (scores self) (mano self) (turn_order self) (current_turn_index
    self) (play_categories self) (play_results self) (ordago_active self) (ordago_player
    self) (covert_signals self) (intercepted_signals self) (signal_intercept_chance
    self) (hands_revealed self).
Definition with_current_phase (v : string) (self : MusGame) : MusGame :=
  mkMusGame (num_players self) (target_score self) (deck self) (hands self)
    (discard_pile self) v (scores self) (mano self) (turn_order self)
    (current_turn_index self) (play_categories self) (play_results self) (ordago_active
    self) (ordago_player self) (covert_signals self) (intercepted_signals self)
    (signal_intercept_chance self) (hands_revealed self).
Definition with_scores (v : Z * Z) (self : MusGame) : MusGame :=
  mkMusGame (num_players self) (target_score self) (deck self) (hands self)
    (discard_pile self) (current_phase self) v (mano self) (turn_order self)
    (current_turn_index self) (play_categories self) (play_results self) (ordago_active
    self) (ordago_player self) (covert_signals self) (intercepted_signals self)
    (signal_intercept_chance self) (hands_revealed self).
Definition with_mano (v : option nat) (self : MusGame) : MusGame :=
  mkMusGame (num_players self) (target_score self) (deck self) (hands self)
    (discard_pile self) (current_phase self) (scores self) v (turn_order self)
    (current_turn_index self) (play_categories self) (play_results self) (ordago_active
    self) (ordago_player self) (covert_signals self) (intercepted_signals self)
    (signal_intercept_chance self) (hands_revealed self).
Definition with_turn_order (v : list nat) (self : MusGame) : MusGame :=
  mkMusGame (num_players self) (target_score self) (deck self) (hands self)
    (discard_pile self) (current_phase self) (scores self) (mano self) v
    (current_turn_index self) (play_categories self) (play_results self) (ordago_active
    self) (ordago_player self) (covert_signals self) (intercepted_signals self)
    (signal_intercept_chance self) (hands_revealed self).
Definition with_current_turn_index (v : nat) (self : MusGame) : MusGame :=
  mkMusGame (num_players self) (target_score self) (deck self) (hands self)
    (discard_pile self) (current_phase self) (scores self) (mano self) (turn_order self)
    v (play_categories self) (play_results self) (ordago_active self) (ordago_player
    self) (covert_signals self) (intercepted_signals self) (signal_intercept_chance
    self) (hands_revealed self).
Definition with_play_categories (v : list string) (self : MusGame) : MusGame :=
  mkMusGame (num_players self) (target_score self) (deck self) (hands self)
    (discard_pile self) (current_phase self) (scores self) (mano self) (turn_order self)
    (current_turn_index self) v (play_results self) (ordago_active self) (ordago_player
    self) (covert_signals self) (intercepted_signals self) (signal_intercept_chance
    self) (hands_revealed self).
Definition with_play_results (v : gmap string (option nat * option BetValue)) (self : MusGame) : MusGame :=
  mkMusGame (num_players self) (target_score self) (deck self) (hands self)
    (discard_pile self) (current_phase self) (scores self) (mano self) (turn_order self)
    (current_turn_index self) (play_categories self) v (ordago_active self)
    (ordago_player self) (covert_signals self) (intercepted_signals self)
    (signal_intercept_chance self) (hands_revealed self).
Definition with_ordago_active (v : bool) (self : MusGame) : MusGame :=
  mkMusGame (num_players self) (target_score self) (deck self) (hands self)
    (discard_pile self) (current_phase self) (scores self) (mano self) (turn_order self)
    (current_turn_index self) (play_categories self) (play_results self) v
    (ordago_player self) (covert_signals self) (intercepted_signals self)
    (signal_intercept_chance self) (hands_revealed self).
Definition with_ordago_player (v : option nat) (self : MusGame) : MusGame :=
  mkMusGame (num_players self) (target_score self) (deck self) (hands self)
    (discard_pile self) (current_phase self) (scores self) (mano self) (turn_order self)
    (current_turn_index self) (play_categories self) (play_results self) (ordago_active
    self) v (covert_signals self) (intercepted_signals self) (signal_intercept_chance
    self) (hands_revealed self).
Definition with_covert_signals (v : gmap nat Z) (self : MusGame) : MusGame :=
  mkMusGame (num_players self) (target_score self) (deck self) (hands self)
    (discard_pile self) (current_phase self) (scores self) (mano self) (turn_order self)
    (current_turn_index self) (play_categories self) (play_results self) (ordago_active
    self) (ordago_player self) v (intercepted_signals self) (signal_intercept_chance
    self) (hands_revealed self).
Definition with_intercepted_signals (v : gmap nat (gset nat)) (self : MusGame) : MusGame :=
  mkMusGame (num_players self) (target_score self) (deck self) (hands self)
    (discard_pile self) (current_phase self) (scores self) (mano self) (turn_order self)
    (current_turn_index self) (play_categories self) (play_results self) (ordago_active
    self) (ordago_player self) (covert_signals self) v (signal_intercept_chance self)
    (hands_revealed self).
Definition with_hands_revealed (v : option bool) (self : MusGame) : MusGame :=
  mkMusGame (num_players self) (target_score self) (deck self) (hands self)
    (discard_pile self) (current_phase self) (scores self) (mano self) (turn_order self)
    (current_turn_index self) (play_categories self) (play_results self) (ordago_active
    self) (ordago_player self) (covert_signals self) (intercepted_signals self)
    (signal_intercept_chance self) v.

(** ** The state-and-exception monad *)

(** A computation over a mutable state [S]: it ends with an [Outcome] and the
    state as it stands at that point. *)
Definition M (S A : Type) : Type := S → Outcome A * S.

Definition ret {S A} (a : A) : M S A := λ s, (Ok a, s).

Definition bind {S A B} (m : M S A) (k : A → M S B) : M S B :=
  λ s, match m s with
       | (Ok a, s') => k a s'
       | (Raise e, s') => (Raise e, s')
       | (OutOfFuel, s') => (OutOfFuel, s')
       end.

Notation "'let*' x ':=' m 'in' k" := (bind m (λ x, k))
  (at level 10, x binder, m at level 100, k at level 200).
Notation "'let*' ' pat ':=' m 'in' k" := (bind m (λ x, match x with pat => k end))
  (at level 10, pat pattern, m at level 100, k at level 200).

Definition raise {S A} (e : PyExn) : M S A := λ s, (Raise e, s).
Definition out_of_fuel {S A} : M S A := λ s, (OutOfFuel, s).
Definition lift_outcome {S A} (o : Outcome A) : M S A := λ s, (o, s).

(** [d[k]] on a missing key, [l[i]] out of range, ...: the value or [e]. *)
Definition or_raise {S A} (e : PyExn) (o : option A) : M S A :=
  match o with Some a => ret a | None => raise e end.

(** [for x in l: body(x)] *)
Fixpoint for_each {S A} (l : list A) (body : A → M S unit) : M S unit :=
  match l with
  | [] => ret tt
  | x :: l' => let* _ := body x in for_each l' body
  end.

(** [[f(x) for x in l]] *)
Fixpoint comprehension {S A B} (l : list A) (f : A → M S B) : M S (list B) :=
  match l with
  | [] => ret []
  | x :: l' => let* y := f x in let* ys := comprehension l' f in ret (y :: ys)
  end.

(** A [for] loop that updates local variables [acc]. *)
Fixpoint for_fold {S A B} (l : list A) (acc : B) (body : B → A → M S B) : M S B :=
  match l with
  | [] => ret acc
  | x :: l' => let* acc' := body acc x in for_fold l' acc' body
  end.

(** ** The random module *)

(** The generator behind the module-level functions of [random], by the
    contracts the game relies on: [shuffle] permutes, [_randbelow(n)] (which
    [choice] indexes with) is below [n], [random()] is in [[0, 1)]. *)
Class RandomSource (G : Type) := {
  rand_shuffle : G → list Card → list Card * G;
  rand_below : G → nat → nat * G;
  rand_random : G → Q * G;
  rand_shuffle_perm : ∀ g l, (rand_shuffle g l).1 ≡ₚ l;
  rand_below_lt : ∀ g n, 0 < n → (rand_below g n).1 < n;
  rand_random_range : ∀ g, (0 <= (rand_random g).1)%Q ∧ ((rand_random g).1 < 1)%Q
}.

(** A concrete generator: a counter that rotates the list on [shuffle]. *)
Definition counter_shuffle (g : nat) (l : list Card) : list Card * nat := (rotate g l, S g).
Definition counter_below (g n : nat) : nat * nat := (g mod n, S g).
Definition counter_random (g : nat) : Q * nat := (Z.of_nat (g mod 10) # 10, S g).

(** [step]'s [actions] values: dictionaries with optional keys. *)
Record Action := mkAction {
  action_type : option Z;
  cards : option (list Z);
  amount : option Z;
  signal : option Z
}.

(** [range(n)] *)
Definition range (n : nat) : list nat := seq 0 n.

(** The game object together with the state of the module-global generator. *)
Definition World (G : Type) : Type := MusGame * G.

(** The sets the code iterates: the set display [{self.mano, (self.mano + 2)
    % self.num_players}], the difference [set(range(self.num_players)) -
    team0], and the set [self.intercepted_signals[player]] of a player. *)
Inductive SetSite := TeamSet | OtherPlayers | InterceptedBy (player : nat).

(** Iterating a [set]. CPython visits the elements in the order of the slots
    of the set's hash table, which depends on the size of the table and on
    the insertions made ([{8, 0}] is visited as [8, 0], and as [0, 8] when 0
    was added first); nothing in the source fixes it. The order is therefore
    a parameter of the model: any order of the elements, each of them once,
    which may depend on the set that is iterated and on the whole state of
    the game and of the generator. *)
Class SetOrder (G : Type) := {
  set_order : SetSite → World G → gset nat → list nat;
  set_order_elements : ∀ site w s, set_order site w s ≡ₚ elements s
}.

Section MusGame.
Context {G : Type} `{RandomSource G} `{SetOrder G}.

Definition get_self : M (World G) MusGame := λ w, (Ok w.1, w).
Definition modify_self (f : MusGame → MusGame) : M (World G) unit := λ w, (Ok tt, (f w.1, w.2)).
Definition random {A} (f : G → A * G) : M (World G) A := λ w, let r := f w.2 in (Ok r.1, (w.1, r.2)).

(** [random.choice(seq)] *)
Definition random_choice {A} (seq : list A) : M (World G) A :=
  if decide (length seq = 0) then raise IndexError
  else let* i := random (λ g, rand_below g (length seq)) in or_raise IndexError (seq !! i).

(** [MusGame.__init__] *)
Definition MusGame_init (num_players : nat) (target_score : Z) (signal_intercept_chance : Q)
    (g : G) : World G :=
  let shuffled := rand_shuffle g Deck_init in
  ({| num_players := num_players; target_score := target_score;
      deck := shuffled.1;
      hands := list_to_map ((λ player, (player, [])) <$> range num_players);
      discard_pile := []; current_phase := "deal"; scores := (0, 0)%Z;
      mano := None; turn_order := []; current_turn_index := 0;
      play_categories := []; play_results := ∅;
      ordago_active := false; ordago_player := None;
      covert_signals := list_to_map ((λ player, (player, 0%Z)) <$> range num_players);
      intercepted_signals := list_to_map ((λ player, (player, ∅)) <$> range num_players);
      signal_intercept_chance := signal_intercept_chance;
      hands_revealed := None |}, shuffled.2).

(** [MusGame.draw_from_deck] *)
Definition draw_from_deck (n : nat) : M (World G) (list Card) :=
  let* self := get_self in
  let* _ :=
    (if decide (length (deck self) < n) then
       let* shuffled := random (λ g, rand_shuffle g (deck self ++ discard_pile self)) in
       modify_self (λ self, with_discard_pile [] (with_deck shuffled self))
     else ret tt) in
  let* self := get_self in
  let dealt := deal (Z.of_nat n) (deck self) in
  let* _ := modify_self (with_deck dealt.2) in
  ret dealt.1.

(** [MusGame.determine_mano] *)
Definition determine_mano : M (World G) unit :=
  let* self := get_self in
  let* drawn_cards :=
    comprehension (range (num_players self)) (λ player,
      let* self := get_self in
      let* hand := or_raise KeyError (hands self !! player) in
      let* card := or_raise IndexError (hand !! 0) in
      ret (player, card)) in
  let found :=
    foldl (λ (acc : Z * option nat) (pc : nat * Card),
             if (order pc.2 >? acc.1)%Z then (order pc.2, Some pc.1) else acc)
          ((-1)%Z, None) drawn_cards in
  modify_self (with_mano found.2).

(** [MusGame.set_turn_order]; [None + i] is a [TypeError], [% 0] a
    [ZeroDivisionError], both only when the comprehension has an element. *)
Definition set_turn_order : M (World G) unit :=
  let* self := get_self in
  let* order :=
    match num_players self, mano self with
    | 0, _ => ret []
    | S _, None => raise TypeError
    | S _, Some m => ret ((λ i, (m + i) mod num_players self) <$> range (num_players self))
    end in
  let* _ := modify_self (with_turn_order order) in
  modify_self (with_current_turn_index 0).

(** [MusGame.initial_deal] *)
Definition initial_deal : M (World G) unit :=
  let* self := get_self in
  let* _ := for_each (range (num_players self)) (λ player,
              let* dealt := draw_from_deck 4 in
              modify_self (λ self, with_hands (<[player := dealt]> (hands self)) self)) in
  let* _ := determine_mano in
  let* _ := set_turn_order in
  let* _ := modify_self (with_current_phase "mus") in
  modify_self (with_hands_revealed (Some false)).

(** [MusGame.perform_discard] *)
Definition perform_discard (player : nat) (cards_to_discard : list nat) : M (World G) unit :=
  let* self := get_self in
  let* hand := or_raise KeyError (hands self !! player) in
  let indexed := imap (λ idx card, (idx, card)) hand in
  let discarded := (filter (λ ic, ic.1 ∈ cards_to_discard) indexed).*2 in
  let new_hand := (filter (λ ic, ic.1 ∉ cards_to_discard) indexed).*2 in
  let* _ := modify_self (λ self, with_hands (<[player := new_hand]> (hands self)) self) in
  let* new_cards := draw_from_deck (length discarded) in
  let* self := get_self in
  let* hand := or_raise KeyError (hands self !! player) in
  let* _ := modify_self (λ self, with_hands (<[player := hand ++ new_cards]> (hands self)) self) in
  modify_self (λ self, with_discard_pile (discard_pile self ++ discarded) self).

(** [{self.mano, (self.mano + 2) % self.num_players}] *)
Definition team0_of : M (World G) (gset nat) :=
  let* self := get_self in
  match mano self with
  | None => raise TypeError
  | Some m =>
      if decide (num_players self = 0) then raise ZeroDivisionError
      else ret ({[ m; (m + 2) mod num_players self ]})
  end.

(** [list(s)], [for x in s]: the elements of the set, in the order of the
    moment. *)
Definition set_iter (site : SetSite) (s : gset nat) : M (World G) (list nat) :=
  λ w, (Ok (set_order site w s), w).

(** [set(range(self.num_players)) - team0] *)
Definition team1_of (team0 : gset nat) : M (World G) (gset nat) :=
  let* self := get_self in
  ret (list_to_set (range (num_players self)) ∖ team0).

(** [MusGame.update_covert_signal] *)
Definition update_covert_signal (player : nat) (signal : Z) : M (World G) (list nat) :=
  if decide (signal = 0%Z) then
    let* _ := modify_self (λ self, with_covert_signals (<[player := 0%Z]> (covert_signals self)) self) in
    ret []
  else
    let* _ := modify_self (λ self, with_covert_signals (<[player := signal]> (covert_signals self)) self) in
    let* team0 := team0_of in
    let* opponents :=
      (if decide (player ∈ team0) then
         let* team1 := team1_of team0 in set_iter OtherPlayers team1
       else set_iter TeamSet team0) in
    for_fold opponents [] (λ interceptors opponent,
      let* self := get_self in
      let* x := random rand_random in
      if Qlt_le_dec x (signal_intercept_chance self) then
        let* seen := or_raise KeyError (intercepted_signals self !! opponent) in
        let* _ := modify_self (λ self,
                    with_intercepted_signals
                      (<[opponent := {[ player ]} ∪ seen]> (intercepted_signals self)) self) in
        ret (interceptors ++ [opponent])
      else ret interceptors).

(** The [for player in self.turn_order] loop inside
    [run_detailed_betting_round]: the round as it stands when the loop ends or
    breaks. *)
Fixpoint betting_pass (turn : list nat) (betting_round : BettingRound)
  : M (World G) BettingRound :=
  match turn with
  | [] => ret betting_round
  | player :: rest =>
      let* is_active := or_raise KeyError (dict_get player (active betting_round)) in
      if negb is_active then betting_pass rest betting_round
      else
        let* action := random_choice ["bet"; "raise"; "call"; "pass"] in
        let* betting_round :=
          (if (action =? "raise")%string then
             let* amount := random_choice [1; 2]%Z in
             lift_outcome (player_action player action amount betting_round)
           else lift_outcome (player_action player action 0 betting_round)) in
        let* complete := lift_outcome (is_round_complete betting_round) in
        if complete then ret betting_round else betting_pass rest betting_round
  end.

(** The [while not betting_round.finished and not
    betting_round.is_round_complete()] loop, run for at most [fuel] tests of
    its condition. *)
Fixpoint betting_loop (fuel : nat) (betting_round : BettingRound) : M (World G) BettingRound :=
  match fuel with
  | 0 => out_of_fuel
  | S fuel' =>
      if finished betting_round then ret betting_round
      else
        let* complete := lift_outcome (is_round_complete betting_round) in
        if complete then ret betting_round
        else
          let* self := get_self in
          let* betting_round := betting_pass (turn_order self) betting_round in
          betting_loop fuel' betting_round
  end.

(** [MusGame.run_detailed_betting_round] *)
Definition run_detailed_betting_round (fuel : nat) (play_type : string)
  : M (World G) (option nat * option BetValue) :=
  let* self := get_self in
  let* betting_round := betting_loop fuel (BettingRound_init (turn_order self) play_type 1) in
  let result := get_winner betting_round in
  let* _ :=
    (if decide (result.2 = Some OrdagoBet) then
       let* _ := modify_self (with_ordago_active true) in
       modify_self (with_ordago_player result.1)
     else ret tt) in
  ret result.

(** [MusGame.reveal_hands]; printing a hand reads [self.hands[player]]. *)
Definition reveal_hands : M (World G) unit :=
  let* _ := modify_self (with_hands_revealed (Some true)) in
  let* self := get_self in
  for_each (range (num_players self)) (λ player,
    let* self := get_self in
    let* _ := or_raise KeyError (hands self !! player) in ret tt).

(** [sum(sum(card.order for card in self.hands[p]) for p in team)] *)
Definition team_order_sum (site : SetSite) (team : gset nat) : M (World G) Z :=
  let* members := set_iter site team in
  let* sums := comprehension members (λ p,
                 let* self := get_self in
                 let* hand := or_raise KeyError (hands self !! p) in
                 ret (foldr Z.add 0%Z (order <$> hand))) in
  ret (foldr Z.add 0%Z sums).

(** [MusGame.resolve_ordago]: the winning team index, or [None]. *)
Definition resolve_ordago : M (World G) (option nat) :=
  let* _ := reveal_hands in
  let* team0 := team0_of in
  let* team1 := team1_of team0 in
  let* score0 := team_order_sum TeamSet team0 in
  let* score1 := team_order_sum OtherPlayers team1 in
  if (score0 >? score1)%Z then ret (Some 0)
  else if (score1 >? score0)%Z then ret (Some 1)
  else ret None.

(** [{p: evaluate(self.hands[p]) for p in range(self.num_players)}] *)
Definition evaluations_of (evaluate : list Card → list Z) : M (World G) (pydict nat (list Z)) :=
  let* self := get_self in
  comprehension (range (num_players self)) (λ p,
    let* self := get_self in
    let* hand := or_raise KeyError (hands self !! p) in
    ret (p, evaluate hand)).

(** The hand-evaluation winner of one category in [score_round]. *)
Definition best_player_of (play : string) : M (World G) (option nat) :=
  if (play =? "grande")%string then
    let* evaluations := evaluations_of evaluate_grande in
    let* best := or_raise ValueError (py_extremum_by tuple_gtb snd evaluations) in
    ret (Some best.1)
  else if (play =? "chica")%string then
    let* evaluations := evaluations_of evaluate_chica in
    let* best := or_raise ValueError (py_extremum_by tuple_ltb snd evaluations) in
    ret (Some best.1)
  else if (play =? "pares")%string then
    let* evaluations := evaluations_of evaluate_pairs in
    let* best := or_raise ValueError (py_extremum_by tuple_gtb snd evaluations) in
    ret (Some best.1)
  else if (play =? "juego")%string then
    let* evaluations := evaluations_of evaluate_juego in
    let* best := or_raise ValueError (py_extremum_by tuple_gtb snd evaluations) in
    ret (Some best.1)
  else ret None.

(** The [if self.ordago_active: ... else: ...] block of [score_round]: the
    values of [round_score_team0] and [round_score_team1] after it. *)
Definition round_scores (team0 team1 : gset nat) : M (World G) (Z * Z) :=
  let* self := get_self in
  if ordago_active self then
    let* winning_team := resolve_ordago in
    if decide (winning_team = Some 0) then ret (target_score self, 0%Z)
    else if decide (winning_team = Some 1) then ret (0%Z, target_score self)
    else ret (0, 0)%Z
  else
    for_fold (play_categories self) (0, 0)%Z (λ round_score play,
      let* self := get_self in
      let betting_winner := (default (None, None) (play_results self !! play)).1 in
      let* best_player := best_player_of play in
      let final_winner :=
        match betting_winner with Some w => Some w | None => best_player end in
      match final_winner with
      | Some w =>
          if decide (w ∈ team0) then ret (round_score.1 + 1, round_score.2)%Z
          else if decide (w ∈ team1) then ret (round_score.1, round_score.2 + 1)%Z
          else ret round_score
      | None => ret round_score
      end).

(** [MusGame.score_round] *)
Definition score_round : M (World G) unit :=
  let* team0 := team0_of in
  let* team1 := team1_of team0 in
  let* round_score := round_scores team0 team1 in
  let* _ := modify_self (λ self, with_scores ((scores self).1 + round_score.1, (scores self).2)%Z self) in
  let* _ := modify_self (λ self, with_scores ((scores self).1, (scores self).2 + round_score.2)%Z self) in
  modify_self (with_current_phase "deal").

(** The [for play in self.play_categories] loop of [start_play_phase]. *)
Fixpoint play_loop (fuel : nat) (categories : list string) : M (World G) unit :=
  match categories with
  | [] => ret tt
  | play :: rest =>
      let* result := run_detailed_betting_round fuel play in
      let* _ := modify_self (λ self, with_play_results (<[play := result]> (play_results self)) self) in
      let* self := get_self in
      if ordago_active self then ret tt else play_loop fuel rest
  end.

(** [MusGame.start_play_phase] (the class defines it twice, with the same
    body). *)
Definition start_play_phase (fuel : nat) : M (World G) unit :=
  let* _ := modify_self (with_current_phase "play") in
  let* _ := modify_self (with_play_categories ["grande"; "chica"; "pares"; "juego"]) in
  let* _ := modify_self (with_play_results ∅) in
  let* self := get_self in
  let* _ := play_loop fuel (play_categories self) in
  let* _ := modify_self (with_current_phase "scoring") in
  score_round.

(** [MusGame.is_terminal] *)
Definition is_terminal (self : MusGame) : bool :=
  ((target_score self <=? (scores self).1) || (target_score self <=? (scores self).2))%Z.

(** [MusGame.finish_round] *)
Definition finish_round : M (World G) unit := modify_self (with_current_phase "deal").

(** [[i for i, v in enumerate(mask) if v == 1]] *)
Definition mask_indices (mask : list Z) : list nat :=
  (filter (λ iv, iv.2 = 1%Z) (imap (λ i v, (i, v)) mask)).*1.

(** [MusGame.step]; the result is [intercepted_info], each entry the pair of
    its ['signal'] and ['intercepted_by'] values. *)
Definition step (fuel : nat) (actions : pydict nat Action)
  : M (World G) (pydict nat (Z * list nat)) :=
  let* self := get_self in
  if (current_phase self =? "mus")%string then
    let* intercepted_info :=
      for_fold actions [] (λ intercepted_info pa,
        let player := pa.1 in
        let action := pa.2 in
        let* intercepted_info :=
          match action_type action, signal action with
          | Some 5%Z, Some signal_value =>
              let* interceptors := update_covert_signal player signal_value in
              match interceptors with
              | [] => ret intercepted_info
              | _ :: _ => ret (dict_set player (signal_value, interceptors) intercepted_info)
              end
          | _, _ => ret intercepted_info
          end in
        match action_type action, cards action with
        | Some 0%Z, Some mask =>
            let* _ := perform_discard player (mask_indices mask) in
            ret intercepted_info
        | _, _ => ret intercepted_info
        end) in
    let* _ := start_play_phase fuel in
    ret intercepted_info
  else if (current_phase self =? "play")%string then
    let* _ := start_play_phase fuel in
    ret []
  else if (current_phase self =? "scoring")%string then
    let* _ := finish_round in
    ret []
  else ret [].

(** What a caller does with a game between two observations. *)
Inductive Operation :=
  | InitialDeal
  | PerformDiscard (player : nat) (cards_to_discard : list nat)
  | UpdateCovertSignal (player : nat) (signal : Z)
  | Step (actions : pydict nat Action)
  | StartPlayPhase
  | ScoreRound
  | FinishRound.

Definition run_operation (fuel : nat) (op : Operation) : M (World G) unit :=
  match op with
  | InitialDeal => initial_deal
  | PerformDiscard player cards_to_discard => perform_discard player cards_to_discard
  | UpdateCovertSignal player signal =>
      let* _ := update_covert_signal player signal in ret tt
  | Step actions => let* _ := step fuel actions in ret tt
  | StartPlayPhase => start_play_phase fuel
  | ScoreRound => score_round
  | FinishRound => finish_round
  end.

(** The world after the operations of [ops], one after the other. An
    operation that raises leaves the game as it stands at the exception, and
    the caller goes on with it. *)
Definition run_operations (fuel : nat) (ops : list Operation) (w : World G) : World G :=
  foldl (λ w op, (run_operation fuel op w).2) w ops.

End MusGame.

#[global, program] Instance counter_source : RandomSource nat :=
  {| rand_shuffle := counter_shuffle; rand_below := counter_below;
     rand_random := counter_random |}.
Next Obligation.
  intros g l. unfold counter_shuffle, rotate. cbn [fst].
  rewrite Permutation_app_comm. by rewrite take_drop.
Qed.
Next Obligation.
  intros g n Hn. cbn [counter_below fst]. apply Nat.mod_upper_bound. lia.
Qed.
Next Obligation.
  intros g. unfold counter_random, Qle, Qlt. cbn [fst Qnum Qden].
  pose proof (Nat.mod_upper_bound g 10). lia.
Qed.

(** The order in which the games run on concrete values below iterate their
    sets: the increasing one, which is CPython's for players numbered below
    eight (an [int] hashes to itself and the eight slots of the smallest
    table are not shared). *)
#[global, program] Instance increasing_order : SetOrder nat :=
  {| set_order _ _ s := merge_sort Nat.le (elements s) |}.
Next Obligation. intros site w s. apply merge_sort_Permutation. Qed.

(** ** game_logic.py: turns, signals and observations *)

(** The dictionary [get_observation] returns. *)
Record Observation := mkObservation {
  obs_hand : list Z;
  obs_phase : Z;
  obs_partner_signal : Z;
  obs_intercepted_signals : pydict nat Z;
  obs_scores : list Z;
  obs_betting_info : pydict string Z
}.

Definition phase_encoding : pydict string Z :=
  [("deal", 0); ("mus", 1); ("play", 2); ("scoring", 3)]%Z.

Section MusGameViews.
Context {G : Type} `{RandomSource G} `{SetOrder G}.

(** [MusGame.current_player] *)
Definition current_player : M (World G) nat :=
  let* self := get_self in
  or_raise IndexError (turn_order self !! current_turn_index self).

(** [MusGame.advance_turn] *)
Definition advance_turn : M (World G) unit :=
  let* self := get_self in
  if decide (length (turn_order self) = 0) then raise ZeroDivisionError
  else modify_self (with_current_turn_index
                      ((current_turn_index self + 1) mod length (turn_order self))).

(** [MusGame.get_covert_signal]. [others[1]] is read first, by the condition
    of the conditional expression. *)
Definition get_covert_signal (player : nat) : M (World G) Z :=
  let* team0 := team0_of in
  let* self := get_self in
  let* partner :=
    (if decide (player ∈ team0) then
       let* m := or_raise TypeError (mano self) in
       if decide (player ≠ m) then ret m else ret ((m + 2) mod num_players self)
     else
       let* team1 := team1_of team0 in
       let* others := set_iter OtherPlayers team1 in
       let* second := or_raise IndexError (others !! 1) in
       if decide (player = second) then or_raise IndexError (others !! 0)
       else ret second) in
  let* self := get_self in
  ret (default 0%Z (covert_signals self !! partner)).

(** [MusGame.get_intercepted_signals] *)
Definition get_intercepted_signals (player : nat) : M (World G) (pydict nat Z) :=
  let* self := get_self in
  let* seen := or_raise KeyError (intercepted_signals self !! player) in
  let* senders := set_iter (InterceptedBy player) seen in
  for_fold senders [] (λ intercepted opponent,
    let* self := get_self in
    let* sent := or_raise KeyError (covert_signals self !! opponent) in
    ret (dict_set opponent sent intercepted)).

(** [MusGame.get_observation]. No code assigns [current_betting_round], so
    [hasattr(self, 'current_betting_round')] is false and [betting_info]
    stays the empty dictionary. *)
Definition get_observation (player : nat) : M (World G) Observation :=
  let* self := get_self in
  let* hand := or_raise KeyError (hands self !! player) in
  let encoded_hand := order <$> hand in
  let betting_info := [] in
  let* partner_signal := get_covert_signal player in
  let* intercepted_signals := get_intercepted_signals player in
  let* self := get_self in
  ret {| obs_hand := encoded_hand;
         obs_phase := default 0%Z (dict_get (current_phase self) phase_encoding);
         obs_partner_signal := partner_signal;
         obs_intercepted_signals := intercepted_signals;
         obs_scores := [(scores self).1; (scores self).2];
         obs_betting_info := betting_info |}.

(** [MusGame.get_reward] *)
Definition get_reward (player : nat) : M (World G) Z := ret 0%Z.

End MusGameViews.

(** ** game_logic.py: MusMatch *)

Record MusMatch := mkMusMatch {
  match_num_players : nat;
  match_target_score : Z;
  match_games : Z;
  match_score : Z * Z;
  current_game : option MusGame
}.

Definition with_match_score (v : Z * Z) (self : MusMatch) : MusMatch :=
  mkMusMatch (match_num_players self) (match_target_score self) (match_games self) v
             (current_game self).
Definition with_current_game (v : option MusGame) (self : MusMatch) : MusMatch :=
  mkMusMatch (match_num_players self) (match_target_score self) (match_games self)
             (match_score self) v.

(** [MusMatch.__init__] *)
Definition MusMatch_init (num_players : nat) (target_score match_games : Z) : MusMatch :=
  {| match_num_players := num_players; match_target_score := target_score;
     match_games := match_games; match_score := (0, 0)%Z; current_game := None |}.

Section MusMatch.
Context {G : Type} `{RandomSource G} `{SetOrder G}.

(** The calls [play_partial_game] makes on the game it has created. The
    actions it passes have the keys ['type'] and ['cards'], and no
    ['action_type']. [self.num_players] of the match is the [num_players] the
    game was created with. *)
Definition partial_game_run (fuel : nat) : M (World G) (option nat) :=
  let* _ := initial_deal in
  let* self := get_self in
  let actions := (λ p, (p, mkAction None (Some []) None None)) <$> range (num_players self) in
  let* _ := step fuel actions in
  let* team0 := team0_of in
  let* self := get_self in
  if ((scores self).1 >? (scores self).2)%Z then ret (Some 0)
  else if ((scores self).2 >? (scores self).1)%Z then ret (Some 1)
  else ret None.

(** [MusMatch.play_partial_game]: [current_game] is assigned the new game
    before anything is called on it. *)
Definition play_partial_game (fuel : nat) : M (MusMatch * G) (option nat) :=
  λ mg,
    let created := MusGame_init (match_num_players mg.1) (match_target_score mg.1) (1 # 5) mg.2 in
    let r := partial_game_run fuel created in
    (r.1, (with_current_game (Some r.2.1) mg.1, r.2.2)).

(** [MusMatch.play_match], its [while] loop run for at most [games] tests of
    the condition. *)
Fixpoint play_match (games fuel : nat) : M (MusMatch * G) (nat * (Z * Z)) :=
  match games with
  | 0 => out_of_fuel
  | S games' =>
      λ mg,
        let self := mg.1 in
        if ((match_score self).1 <? match_games self)%Z
           && ((match_score self).2 <? match_games self)%Z
        then
          (let* winner := play_partial_game fuel in
           let* _ :=
             (match winner with
              | Some 0 => λ mg, (Ok tt, (with_match_score
                                           ((match_score mg.1).1 + 1, (match_score mg.1).2)%Z
                                           mg.1, mg.2))
              | Some 1 => λ mg, (Ok tt, (with_match_score
                                           ((match_score mg.1).1, (match_score mg.1).2 + 1)%Z
                                           mg.1, mg.2))
              | Some _ => raise KeyError
              | None => ret tt
              end) in
           play_match games' fuel) mg
        else
          let overall_winner :=
            if ((match_games self) <=? (match_score self).1)%Z then 0 else 1 in
          (Ok (overall_winner, match_score self), mg)
  end.

End MusMatch.

(** ** mus_env.py *)

(** A key of the [done] dictionary of [MusEnv.step]: a player, or the string
    ['__all__']. *)
Inductive DoneKey := PlayerKey (player : nat) | NameKey (name : string).

#[global] Instance DoneKey_eq_dec : EqDecision DoneKey.
Proof. solve_decision. Defined.

(** The tuple [MusEnv.step] returns; every [info[player]] is [{}]. *)
Record StepResult := mkStepResult {
  step_observations : pydict nat Observation;
  step_rewards : pydict nat Z;
  step_done : pydict DoneKey bool;
  step_info : pydict nat unit
}.

Definition empty_action : Action := mkAction None None None None.

(** The body of the loop over [actions.items()] in [MusEnv.step]: the
    [processed_action] of one action. *)
Definition process_action (phase : string) (action : Action) : Action :=
  let action_type := default 0%Z (action_type action) in
  if (phase =? "mus")%string then
    if decide (action_type = 0%Z) then
      mkAction (Some 0%Z) (Some (default [0; 0; 0; 0]%Z (cards action))) None None
    else if decide (action_type = 5%Z) then
      mkAction (Some 5%Z) None None (Some (default 0%Z (signal action)))
    else empty_action
  else if (phase =? "play")%string then
    if decide (action_type ∈ [1; 2; 3; 4]%Z) then
      mkAction (Some action_type) None
               (if decide (action_type ∈ [1; 2]%Z) then Some (default 1%Z (amount action))
                else None)
               None
    else empty_action
  else empty_action.

Section MusEnv.
Context {G : Type} `{RandomSource G} `{SetOrder G}.

(** [self.game = MusGame(num_players=self.num_players)] *)
Definition new_game (num_players : nat) : M (World G) unit :=
  λ w, (Ok tt, MusGame_init num_players 40 (1 # 5) w.2).

(** [MusEnv.reset]; [self.num_players] is fixed when the environment is
    created. *)
Definition MusEnv_reset (num_players : nat) : M (World G) (pydict nat Observation) :=
  let* _ := new_game num_players in
  let* _ := initial_deal in
  comprehension (range num_players) (λ player,
    let* observation := get_observation player in ret (player, observation)).

(** [MusEnv.__init__], without the gym spaces. *)
Definition MusEnv_init (num_players : nat) : M (World G) unit :=
  let* _ := new_game num_players in
  let* _ := MusEnv_reset num_players in
  ret tt.

(** [MusEnv.step] *)
Definition MusEnv_step (fuel : nat) (num_players : nat) (actions : pydict nat Action)
  : M (World G) StepResult :=
  let* self := get_self in
  let processed_actions :=
    foldl (λ processed pa, dict_set pa.1 (process_action (current_phase self) pa.2) processed)
          [] actions in
  let* _ := step fuel processed_actions in
  let* result :=
    for_fold (range num_players) (mkStepResult [] [] [] []) (λ result player,
      let* observation := get_observation player in
      let* reward := get_reward player in
      let* self := get_self in
      ret {| step_observations := dict_set player observation (step_observations result);
             step_rewards := dict_set player reward (step_rewards result);
             step_done := dict_set (PlayerKey player) (is_terminal self) (step_done result);
             step_info := dict_set player tt (step_info result) |}) in
  let* flags := comprehension (range num_players) (λ player,
                  or_raise KeyError (dict_get (PlayerKey player) (step_done result))) in
  ret {| step_observations := step_observations result;
         step_rewards := step_rewards result;
         step_done := dict_set (NameKey "__all__") (forallb id flags) (step_done result);
         step_info := step_info result |}.

End MusEnv.

(** ** pettingzoo_wrapper.py *)

(** [f"player_{i}"] *)
Definition agent_name (i : nat) : string := "player_" +:+ pretty i.

(** The tuple [PettingZooMusEnv.step] returns. *)
Record AgentStepResult := mkAgentStepResult {
  agent_observations : pydict string Observation;
  agent_rewards : pydict string Z;
  agent_dones : pydict string bool;
  agent_infos : pydict string unit
}.

Section PettingZooMusEnv.
Context {G : Type} `{RandomSource G} `{SetOrder G}.

(** [{f"player_{i}": d[key(i)] for i in range(self.num_players)}] *)
Definition by_agent_name {S K V} `{EqDecision K} (num_players : nat) (key : nat → K)
    (d : pydict K V) : M S (pydict string V) :=
  for_fold (range num_players) [] (λ renamed i,
    let* v := or_raise KeyError (dict_get (key i) d) in
    ret (dict_set (agent_name i) v renamed)).

(** [PettingZooMusEnv.reset] *)
Definition PettingZooMusEnv_reset (num_players : nat)
  : M (World G) (pydict string Observation) :=
  let* obs := MusEnv_reset num_players in
  by_agent_name num_players id obs.

(** [PettingZooMusEnv.step]. The statement [dones["__all__"] =
    dones["__all__"]] reads the dictionary that the line before it has just
    built. *)
Definition PettingZooMusEnv_step (fuel : nat) (num_players : nat)
    (actions : pydict string Action) : M (World G) AgentStepResult :=
  let* action_dict := comprehension (range num_players) (λ i,
                        let* action := or_raise KeyError (dict_get (agent_name i) actions) in
                        ret (i, action)) in
  let* result := MusEnv_step fuel num_players action_dict in
  let* observations := by_agent_name num_players id (step_observations result) in
  let* rewards := by_agent_name num_players id (step_rewards result) in
  let* dones := by_agent_name num_players PlayerKey (step_done result) in
  let* all := or_raise KeyError (dict_get "__all__" dones) in
  let dones := dict_set "__all__" all dones in
  let* infos := by_agent_name num_players id (step_info result) in
  ret {| agent_observations := observations; agent_rewards := rewards;
         agent_dones := dones; agent_infos := infos |}.

End PettingZooMusEnv.

(** ** Vocabulary of the properties *)

(** The qualifying totals, best first. *)
Definition juego_totals_best_first : list Z := [31; 32; 40; 37; 36; 35; 34; 33]%Z.


Definition count_in (r : Rank) (ranks : list Rank) : nat :=
  length (filter (λ r', r' = r) ranks).

(** The five cases of the pares classification, on four ranks. *)
Definition pairs_classified (ranks : list Rank) : Prop :=
  (∀ r, count_in r ranks = 4 → pairs_of_ranks ranks = [3; ORDER r]%Z) ∧
  (∀ r1 r2, r1 ≠ r2 → count_in r1 ranks = 2 → count_in r2 ranks = 2 →
     pairs_of_ranks ranks
     = [3; Z.max (ORDER r1) (ORDER r2); Z.min (ORDER r1) (ORDER r2)]%Z) ∧
  (∀ r, count_in r ranks = 3 → pairs_of_ranks ranks = [2; ORDER r]%Z) ∧
  (∀ r, count_in r ranks = 2 → (∀ r', r' ≠ r → count_in r' ranks ≤ 1) →
     pairs_of_ranks ranks = [1; ORDER r]%Z) ∧
  ((∀ r, count_in r ranks ≤ 1) → pairs_of_ranks ranks = [0]%Z).

#[global] Instance pairs_classified_dec ranks : Decision (pairs_classified ranks).
Proof. unfold pairs_classified. apply _. Defined.

(** [hoare P m Q E]: from a state satisfying [P], [m] either returns [a] in
    a state satisfying [Q a], or stops (exception, exhausted budget) in a
    state satisfying [E]. *)
Definition hoare {S A} (P : S → Prop) (m : M S A) (Q : A → S → Prop) (E : S → Prop) : Prop :=
  ∀ s, P s → match m s with
             | (Ok a, s') => Q a s'
             | (_, s') => E s'
             end.

(** [keeps I m]: [I] holds after [m], however it ends, when it holds before. *)
Definition keeps {S A} (I : S → Prop) (m : M S A) : Prop := hoare I m (λ _, I) I.

(** [within_budget m]: [m] does not end on an exhausted iteration budget. *)
Definition within_budget {S A} (m : M S A) : Prop := ∀ s, (m s).1 ≠ OutOfFuel.

(** What the card and score properties read from a game: the three piles of
    cards, the score table and the target. *)
Definition ledger (self : MusGame) : list Card * gmap nat (list Card) * list Card * (Z * Z) * Z :=
  (deck self, hands self, discard_pile self, scores self, target_score self).

Definition ledger_is {G : Type} (t : list Card * gmap nat (list Card) * list Card * (Z * Z) * Z)
  : World G → Prop := λ w, ledger w.1 = t.

(** [changes R m]: the game after [m], however it ends, is related by [R] to
    the game before. *)
Definition changes {G A} (R : relation MusGame) (m : M (World G) A) : Prop :=
  ∀ w, R w.1 (m w).2.1.

(** The number of cards in the hands of a [hands] dictionary. *)
Definition hands_size (m : gmap nat (list Card)) : nat :=
  map_fold (λ _ (hand : list Card) n, length hand + n) 0 m.

(** [|deck| + |discard pile| + Σ|hands|] *)
Definition card_total (self : MusGame) : nat :=
  length (deck self) + length (discard_pile self) + hands_size (hands self).

(** Between two states of a game: the same number of cards, the same target,
    and scores that have not decreased when the target is not negative. *)
Definition conserves (s s' : MusGame) : Prop :=
  card_total s' = card_total s ∧ target_score s' = target_score s ∧
  ((0 ≤ target_score s)%Z →
     ((scores s).1 ≤ (scores s').1)%Z ∧ ((scores s).2 ≤ (scores s').2)%Z).

(** The same, without the count of cards. *)
Definition scores_grow (s s' : MusGame) : Prop :=
  target_score s' = target_score s ∧
  ((0 ≤ target_score s)%Z →
     ((scores s).1 ≤ (scores s').1)%Z ∧ ((scores s).2 ≤ (scores s').2)%Z).

(** A round inside the [for] loop of the simulation, before any break: no
    bet is recorded and the players still active are yet to act. *)
Record round_in_pass (rest : list nat) (br : BettingRound) : Prop := {
  rip_nodup : NoDup (active br).*1;
  rip_keys : (bets br).*1 = (active br).*1;
  rip_no_bets : ∀ q b, dict_get q (bets br) = Some b → b = None;
  rip_active : ∀ q, dict_get q (active br) = Some true → q ∈ rest;
  rip_rest : ∀ p, p ∈ rest → p ∈ (active br).*1
}.

(** What the simulated pass leaves when it ends: a complete round in which
    no all-in is recorded. *)
Definition pass_result (br1 : BettingRound) : Prop :=
  is_round_complete br1 = Ok true ∧ NoDup (bets br1).*1 ∧
  (∀ q b, dict_get q (bets br1) = Some b → b ≠ Some OrdagoBet).

(** The sum of the [order] values of a player's hand. *)
Definition hand_order_sum (self : MusGame) (p : nat) : Z :=
  foldr Z.add 0%Z (order <$> default [] (hands self !! p)).

(** The players of team 0 for mano [m]: [m] and [(m + 2) % num_players]. *)
Definition on_team0 (self : MusGame) (m p : nat) : Prop :=
  p = m ∨ p = (m + 2) mod num_players self.

#[global] Instance on_team0_dec self m p : Decision (on_team0 self m p).
Proof. unfold on_team0. apply _. Defined.

(** The order totals of the two teams over the hands of all players. *)
Definition team0_order_total (self : MusGame) (m : nat) : Z :=
  foldr Z.add 0%Z
    (hand_order_sum self <$> filter (on_team0 self m) (range (num_players self))).

Definition team1_order_total (self : MusGame) (m : nat) : Z :=
  foldr Z.add 0%Z
    (hand_order_sum self <$> filter (λ p, ¬ on_team0 self m p) (range (num_players self))).

(** The scores after an ordago is resolved with order totals [total0] and
    [total1]. *)
Definition ordago_scores (self : MusGame) (total0 total1 : Z) : Z * Z :=
  if (total0 >? total1)%Z then ((scores self).1 + target_score self, (scores self).2)%Z
  else if (total1 >? total0)%Z then ((scores self).1, (scores self).2 + target_score self)%Z
  else scores self.

(** The award of an ordago: the whole target to the team with the strictly
    greater order total, nothing on a tie. *)
Definition ordago_award (self : MusGame) (total0 total1 : Z) : Z * Z :=
  if (total0 >? total1)%Z then (target_score self, 0%Z)
  else if (total1 >? total0)%Z then (0%Z, target_score self)
  else (0, 0)%Z.

(** A game of four after its deal, with the counter generator. *)
Definition dealt_game : World nat := (initial_deal (MusGame_init 4 40 (1 # 5) 7)).2.

(** Player 0 discards two cards, player 1 signals. *)
Definition sample_actions : pydict nat Action :=
  [(0, mkAction (Some 0%Z) (Some [1; 0; 0; 1]%Z) None None);
   (1, mkAction (Some 5%Z) None None (Some 2%Z))].

(** A dealt game of four in which an ordago has been declared. *)
Definition ordago_game : World nat :=
  (mkMusGame 4 40 [mkCard Jack Espadas; mkCard Seven Espadas]
     {[ 0 := [mkCard Four Oros; mkCard Two Oros; mkCard Ace Oros; mkCard King Copas];
        1 := [mkCard Three Copas; mkCard Knight Copas; mkCard Jack Copas; mkCard Seven Copas];
        2 := [mkCard Six Copas; mkCard Five Copas; mkCard Four Copas; mkCard Two Copas];
        3 := [mkCard Ace Copas; mkCard King Espadas; mkCard Three Espadas;
              mkCard Knight Espadas] ]} []
     "mus" (0, 0)%Z (Some 1) [1; 2; 3; 0] 0 [] ∅ true (Some 1) ∅ ∅ (1 # 5) (Some false),
   8).

(** A game of two in which both hands have the same order total. *)
Definition tied_game : MusGame :=
  mkMusGame 2 40 [] {[ 0 := [mkCard King Oros; mkCard Four Copas];
                       1 := [mkCard Three Bastos; mkCard Four Oros] ]} []
    "scoring" (3, 5)%Z (Some 1) [1; 0] 0 ["grande"; "chica"; "pares"; "juego"] ∅
    true (Some 0) ∅ ∅ (1 # 5) (Some false).

(** The total of a hand, from its ranks. *)
Definition ranks_total (ranks : list Rank) : Z := foldr Z.add 0%Z (VALUES <$> ranks).

(** The total of [ranks] is between 4 and 40 and, from 31 on, a key of
    [juego_ranking] with a rank between 1 and 8. *)
Definition juego_in_table (ranks : list Rank) : Prop :=
  (4 ≤ ranks_total ranks ≤ 40)%Z ∧
  ((31 ≤ ranks_total ranks)%Z →
   match dict_get (ranks_total ranks) juego_ranking with
   | Some r => (1 ≤ r ≤ 8)%Z
   | None => False
   end).

#[global] Instance juego_in_table_dec ranks : Decision (juego_in_table ranks).
Proof.
  unfold juego_in_table. destruct (dict_get (ranks_total ranks) juego_ranking); apply _.
Defined.

(** The round after a call [player_action(player, action, amount)]. A call
    that raises does so on its first statement, before anything is assigned,
    and leaves the round as it was. *)
Definition after_action (br : BettingRound) (call : nat * string * Z) : BettingRound :=
  match player_action call.1.1 call.1.2 call.2 br with
  | Ok br' => br'
  | _ => br
  end.

(** The round after the calls of [calls], one after the other. *)
Definition after_actions (calls : list (nat * string * Z)) (br : BettingRound) : BettingRound :=
  foldl after_action br calls.

(** No recorded integer bet is above the current bet and, when no all-in is
    recorded and some integer bet is, some player's recorded bet is the
    current bet. *)
Definition stake_matched (br : BettingRound) : Prop :=
  (∀ p z, dict_get p (bets br) = Some (Some (Amount z)) → (z ≤ current_bet br)%Z) ∧
  ((∀ p, dict_get p (bets br) ≠ Some (Some OrdagoBet)) →
   ∀ p z, dict_get p (bets br) = Some (Some (Amount z)) →
   ∃ q, dict_get q (bets br) = Some (Some (Amount (current_bet br)))).

(** The order of the first card of a player's hand ([0] when there is none). *)
Definition first_card_order (self : MusGame) (player : nat) : Z :=
  default 0%Z (order <$> (hands self !! player ≫= head)).

(** The two lists [perform_discard] splits a hand into: the cards whose
    index is in [cards_to_discard], and the others. *)
Definition discarded_cards (cards_to_discard : list nat) (hand : list Card) : list Card :=
  (filter (λ ic : nat * Card, ic.1 ∈ cards_to_discard) (imap (λ idx card, (idx, card)) hand)).*2.

Definition kept_cards (cards_to_discard : list nat) (hand : list Card) : list Card :=
  (filter (λ ic : nat * Card, ic.1 ∉ cards_to_discard) (imap (λ idx card, (idx, card)) hand)).*2.

(** The cards of all the hands, and all the cards of a game. *)
Definition hands_cards (m : gmap nat (list Card)) : list Card := concat (map_to_list m).*2.

Definition all_cards (self : MusGame) : list Card :=
  deck self ++ discard_pile self ++ hands_cards (hands self).

(** Between two states of a game: the same cards, wherever they are. *)
Definition same_cards (s s' : MusGame) : Prop := all_cards s' ≡ₚ all_cards s.

#[global] Instance same_cards_refl : Reflexive same_cards.
Proof. intros s. unfold same_cards. reflexivity. Qed.

#[global] Instance same_cards_trans : Transitive same_cards.
Proof. intros s1 s2 s3 H1 H2. unfold same_cards in *. by rewrite H2. Qed.

(** The hands after the loop of [initial_deal] over the players [a .. a+k-1]
    of a deck [d0] cut four by four. *)
Definition dealt_hands (d0 : list Card) (a k : nat) (m : gmap nat (list Card))
  : gmap nat (list Card) :=
  foldl (λ h p, <[p := take 4 (drop (4 * p) d0)]> h) m (seq a k).

(** The players who may intercept a signal of [player] when mano is [m]:
    those of the other team. *)
Definition opponent_of (self : MusGame) (m player q : nat) : Prop :=
  if decide (on_team0 self m player) then q < num_players self ∧ ¬ on_team0 self m q
  else on_team0 self m q.

(** What [update_covert_signal(player, _)] may do to the sets of intercepted
    signals between [s] and [s']: a set is left alone, or it is that of an
    opponent of [opponents] and gains [player]. *)
Definition interception_of (player : nat) (opponents : list nat) (s s' : MusGame) : Prop :=
  ∀ q, intercepted_signals s' !! q = intercepted_signals s !! q ∨
       (q ∈ opponents ∧
        ∃ seen, intercepted_signals s !! q = Some seen ∧
                intercepted_signals s' !! q = Some ({[ player ]} ∪ seen)).

(** A game of four in which player 0 has intercepted a signal of player 1. *)
Definition overheard_game : World nat :=
  (mkMusGame 4 40 [] ∅ [] "mus" (0, 0)%Z (Some 1) [1; 2; 3; 0] 0 [] ∅ false None
     {[ 1 := 2%Z ]} {[ 0 := {[ 1 ]} ]} (1 # 5) (Some false), 0).

(** A game whose players are seated: mano is one of them, each holds a hand,
    and the turn order names players only. *)
Record seated (self : MusGame) : Prop := {
  seated_mano : ∃ m, mano self = Some m ∧ m < num_players self;
  seated_hands : ∀ p, p < num_players self → is_Some (hands self !! p);
  seated_turn : ∀ p, p ∈ turn_order self → p < num_players self
}.

(** The four categories of the play phase. *)
Definition categories : list string := ["grande"; "chica"; "pares"; "juego"].


(** What holds of the game of a [MusEnv] from its reset on: the default
    target, no ordago declared, and either no stone scored yet, or one round
    scored (four stones at most) and the game back in the ['deal'] phase. *)
Definition one_round_at_most (self : MusGame) : Prop :=
  target_score self = 40%Z ∧ ordago_active self = false ∧
  (scores self = (0, 0)%Z ∨
   current_phase self = "deal" ∧ (0 ≤ (scores self).1)%Z ∧ (0 ≤ (scores self).2)%Z ∧
   ((scores self).1 + (scores self).2 ≤ 4)%Z).

(** The world after the calls [env.step(actions)] for the [actions] of
    [steps], one after the other, whether they return or raise. *)
Definition after_steps {G} `{RandomSource G} `{SetOrder G} (fuel num_players : nat)
    (steps : list (pydict nat Action)) (w : World G) : World G :=
  foldl (λ w actions, (MusEnv_step fuel num_players actions w).2) w steps.

(** * Properties *)

(** ** Deck.deal *)

Lemma slice_to_in_range {A} (n : nat) (l : list A) :
  slice_to (Z.of_nat n) l = take n l.
Proof.
  unfold slice_to. destruct (Z.leb_spec 0 (Z.of_nat n)); [|lia].
  by rewrite Nat2Z.id.
Qed.

Lemma slice_from_in_range {A} (n : nat) (l : list A) :
  slice_from (Z.of_nat n) l = drop n l.
Proof.
  unfold slice_from. destruct (Z.leb_spec 0 (Z.of_nat n)); [|lia].
  by rewrite Nat2Z.id.
Qed.

Lemma deal_nat (n : nat) (cards : list Card) :
  deal (Z.of_nat n) cards = (take n cards, drop n cards).
Proof. unfold deal. by rewrite slice_to_in_range, slice_from_in_range. Qed.

(** C8, as the code has it: [deal(n)] never fails. With [n] above the deck
    size it returns every remaining card (fewer than [n]) and leaves the deck
    empty; with [0 <= n <= len(cards)] it returns exactly the first [n] cards
    in order and leaves the others, in order. *)
Theorem deal_takes_from_front (cards : list Card) (n : Z) :
  ((Z.of_nat (length cards) < n)%Z → deal n cards = (cards, [])) ∧
  ((0 ≤ n ≤ Z.of_nat (length cards))%Z →
     deal n cards = (take (Z.to_nat n) cards, drop (Z.to_nat n) cards) ∧
     length (deal n cards).1 = Z.to_nat n ∧
     (deal n cards).1 ++ (deal n cards).2 = cards).
Proof.
  split; intros Hn.
  - rewrite <- (Z2Nat.id n) by lia. rewrite deal_nat.
    rewrite take_ge, drop_ge by lia. done.
  - assert (n = Z.of_nat (Z.to_nat n)) as Hk by lia.
    revert Hk Hn. generalize (Z.to_nat n). intros k -> Hk.
    rewrite deal_nat. cbn [fst snd].
    rewrite length_take, take_drop. repeat split; lia.
Qed.

(** Dealing 4 and then 50 cards from a full deck. *)
Lemma deal_takes_from_front_witness :
  deal 4 Deck_init = (take 4 Deck_init, drop 4 Deck_init) ∧
  deal 50 Deck_init = (Deck_init, []).
Proof.
  split.
  - apply (proj2 (deal_takes_from_front Deck_init 4)). by vm_compute.
  - apply (proj1 (deal_takes_from_front Deck_init 50)). by vm_compute.
Defined.

(** C8, refuted as stated: asked for 41 cards, a full deck of 40 returns its
    40 cards and no failure. *)
Lemma deal_beyond_deck_returns_fewer :
  deal 41 Deck_init = (Deck_init, []) ∧ length (deal 41 Deck_init).1 = 40.
Proof. by vm_compute. Qed.

(** ** evaluate_juego *)

(** C6: under the lexicographic order on [evaluate_juego]'s pairs, the
    qualifying totals rank 31 > 32 > 40 > 37 > 36 > 35 > 34 > 33; a hand
    totalling 31 or more beats every hand totalling less; two hands below 31
    compare as their totals do. *)
Theorem evaluate_juego_ranking (hand1 hand2 : list Card) :
  (∀ i j t1 t2, juego_totals_best_first !! i = Some t1 →
                juego_totals_best_first !! j = Some t2 → i < j →
                hand_total hand1 = t1 → hand_total hand2 = t2 →
                tuple_compare (evaluate_juego hand1) (evaluate_juego hand2) = Gt) ∧
  ((31 ≤ hand_total hand1)%Z → (hand_total hand2 < 31)%Z →
     tuple_compare (evaluate_juego hand1) (evaluate_juego hand2) = Gt) ∧
  ((hand_total hand1 < 31)%Z → (hand_total hand2 < 31)%Z →
     tuple_compare (evaluate_juego hand1) (evaluate_juego hand2)
     = (hand_total hand1 ?= hand_total hand2)%Z).
Proof.
  unfold evaluate_juego. repeat split.
  - intros i j t1 t2 Hi Hj Hij -> ->.
    pose proof (lookup_lt_Some _ _ _ Hi) as Hi8.
    pose proof (lookup_lt_Some _ _ _ Hj) as Hj8.
    cbn [juego_totals_best_first length] in Hi8, Hj8.
    destruct i as [|[|[|[|[|[|[|[|?]]]]]]]]; try lia;
      destruct j as [|[|[|[|[|[|[|[|?]]]]]]]]; try lia;
      injection Hi as <-; injection Hj as <-; reflexivity.
  - intros H1 H2.
    destruct (Z.leb_spec 31 (hand_total hand1)); [|lia].
    destruct (Z.leb_spec 31 (hand_total hand2)); [lia|]. reflexivity.
  - intros H1 H2.
    destruct (Z.leb_spec 31 (hand_total hand1)); [lia|].
    destruct (Z.leb_spec 31 (hand_total hand2)); [lia|].
    simpl. by destruct (hand_total hand1 ?= hand_total hand2)%Z.
Qed.

(** Hands totalling 31, 32 and 30, through [evaluate_juego_ranking]. *)
Lemma evaluate_juego_ranking_witness :
  tuple_compare
    (evaluate_juego [mkCard King Oros; mkCard Three Oros; mkCard Jack Oros; mkCard Ace Oros])
    (evaluate_juego [mkCard King Oros; mkCard King Copas; mkCard Seven Oros; mkCard Five Oros])
  = Gt ∧
  tuple_compare
    (evaluate_juego [mkCard King Oros; mkCard King Copas; mkCard Seven Oros; mkCard Five Oros])
    (evaluate_juego [mkCard King Oros; mkCard King Copas; mkCard Six Oros; mkCard Four Oros])
  = Gt.
Proof.
  split.
  - apply (proj1 (evaluate_juego_ranking _ _) 0 1 31%Z 32%Z); try reflexivity. lia.
  - apply (proj1 (proj2 (evaluate_juego_ranking _ _))); by vm_compute.
Defined.

(** ** evaluate_pairs *)







(** ** Insertion-ordered dictionaries *)

Lemma dict_get_set_eq {K V} `{EqDecision K} (k : K) (v : V) (d : pydict K V) :
  dict_get k (dict_set k v d) = Some v.
Proof.
  induction d as [|[k' v'] d IH]; simpl.
  - by rewrite decide_True.
  - destruct (decide (k = k')) as [->|Hne]; simpl.
    + by rewrite decide_True.
    + by rewrite decide_False.
Qed.

Lemma dict_get_set_ne {K V} `{EqDecision K} (k k' : K) (v : V) (d : pydict K V) :
  k ≠ k' → dict_get k' (dict_set k v d) = dict_get k' d.
Proof.
  intros Hne. induction d as [|[k0 v0] d IH]; simpl.
  - by rewrite decide_False.
  - destruct (decide (k = k0)) as [->|Hk]; simpl.
    + by rewrite !decide_False.
    + destruct (decide (k' = k0)); [done|apply IH].
Qed.

(** ** BettingRound.player_action *)

Lemma player_action_inactive (player : nat) (action : string) (amount : Z) (br : BettingRound) :
  dict_get player (active br) = Some false → player_action player action amount br = Ok br.
Proof. intros Ha. unfold player_action. by rewrite Ha. Qed.

Lemma player_action_raise (player : nat) (amount : Z) (br : BettingRound) :
  dict_get player (active br) = Some true →
  player_action player "raise" amount br
  = Ok (with_last_raiser (Some player)
         (with_bets (dict_set player (Some (Amount (current_bet br + amount))) (bets br))
            (with_current_bet (current_bet br + amount) br))).
Proof. intros Ha. unfold player_action. by rewrite Ha. Qed.

Lemma player_action_ordago (player : nat) (amount : Z) (br : BettingRound) :
  dict_get player (active br) = Some true →
  player_action player "ordago" amount br
  = Ok (with_finished true (with_bets (dict_set player (Some OrdagoBet) (bets br)) br)).
Proof. intros Ha. unfold player_action. by rewrite Ha. Qed.

(** C7, as the code has it: a raise by an active player is applied whatever
    the sign of its amount. *)
Theorem raise_applies_any_amount (player : nat) (amount : Z) (br : BettingRound) :
  dict_get player (active br) = Some true →
  ∃ br', player_action player "raise" amount br = Ok br' ∧
         current_bet br' = (current_bet br + amount)%Z ∧
         dict_get player (bets br') = Some (Some (Amount (current_bet br + amount))) ∧
         (∀ q, q ≠ player → dict_get q (bets br') = dict_get q (bets br)) ∧
         last_raiser br' = Some player ∧
         active br' = active br ∧ finished br' = finished br ∧
         players br' = players br ∧ play_type br' = play_type br.
Proof.
  intros Ha. eexists. split; [by apply player_action_raise|]. simpl.
  repeat split.
  - apply dict_get_set_eq.
  - intros q Hq. by apply dict_get_set_ne.
Qed.

(** A raise of -3 in a fresh round. *)
Lemma raise_applies_any_amount_witness :
  ∃ br', player_action 0 "raise" (-3) (BettingRound_init [0; 1] "grande" 1) = Ok br' ∧
         current_bet br' = (-2)%Z ∧ last_raiser br' = Some 0.
Proof.
  destruct (raise_applies_any_amount 0 (-3) (BettingRound_init [0; 1] "grande" 1) eq_refl)
    as (br' & Hact & Hcb & _ & _ & Hlr & _).
  exists br'. repeat split; assumption.
Defined.

(** C7, refuted as stated: raises of 0 and of -3 by an active player return
    normally and change the recorded bets, the last raiser and (for -3) the
    current bet. *)
Lemma raise_non_positive_changes_state :
  let br := BettingRound_init [0; 1] "grande" 1 in
  player_action 0 "raise" 0 br
  = Ok (mkBettingRound [0; 1] "grande" 1 [(0, Some (Amount 1)); (1, None)]
          [(0, true); (1, true)] (Some 0) false) ∧
  player_action 0 "raise" (-3) br
  = Ok (mkBettingRound [0; 1] "grande" (-2) [(0, Some (Amount (-2))); (1, None)]
          [(0, true); (1, true)] (Some 0) false) ∧
  bets br = [(0, None); (1, None)] ∧ last_raiser br = None ∧ current_bet br = 1%Z.
Proof. by vm_compute. Qed.

(** C9, as the code has it: [player_action] tests the player's active flag
    and nothing else. An action by a player who is not active leaves the
    round as it is; an action that returns never clears the finished flag and
    never reactivates a player who passed; and an action by a player who is
    still active is applied whatever the finished flag and whatever
    [is_round_complete] says: the round it returns is the one stated here for
    each of the five actions (any other action changes nothing), so that on
    a round that is Complete a pass, an all-in and a raise by a non-zero
    amount all change the state. *)
Theorem player_action_guard_is_active_flag
    (player : nat) (action : string) (amount : Z) (br : BettingRound) :
  (dict_get player (active br) = Some false →
     player_action player action amount br = Ok br) ∧
  (∀ br', player_action player action amount br = Ok br' →
     (finished br = true → finished br' = true) ∧
     (∀ q, dict_get q (active br) = Some false → dict_get q (active br') = Some false)) ∧
  (dict_get player (active br) = Some true →
     (∃ br', player_action player "bet" amount br = Ok br' ∧
        current_bet br' = (if (current_bet br =? 0)%Z then 1 else current_bet br)%Z ∧
        bets br' = dict_set player (Some (Amount (current_bet br'))) (bets br) ∧
        last_raiser br' = Some player ∧
        active br' = active br ∧ finished br' = finished br) ∧
     (∃ br', player_action player "raise" amount br = Ok br' ∧
        current_bet br' = (current_bet br + amount)%Z ∧
        bets br' = dict_set player (Some (Amount (current_bet br + amount))) (bets br) ∧
        last_raiser br' = Some player ∧
        active br' = active br ∧ finished br' = finished br) ∧
     (∃ br', player_action player "call" amount br = Ok br' ∧
        current_bet br' = current_bet br ∧
        bets br' = dict_set player (Some (Amount (current_bet br))) (bets br) ∧
        last_raiser br' = last_raiser br ∧
        active br' = active br ∧ finished br' = finished br) ∧
     (∃ br', player_action player "pass" amount br = Ok br' ∧
        current_bet br' = current_bet br ∧ bets br' = bets br ∧
        last_raiser br' = last_raiser br ∧
        active br' = dict_set player false (active br) ∧
        dict_get player (active br') = Some false ∧ finished br' = finished br) ∧
     (∃ br', player_action player "ordago" amount br = Ok br' ∧
        current_bet br' = current_bet br ∧
        bets br' = dict_set player (Some OrdagoBet) (bets br) ∧
        last_raiser br' = last_raiser br ∧
        active br' = active br ∧ finished br' = true) ∧
     (action ∉ ["bet"; "raise"; "call"; "pass"; "ordago"] →
        player_action player action amount br = Ok br) ∧
     ((finished br = true ∨ is_round_complete br = Ok true) →
        (∃ br', player_action player "pass" amount br = Ok br' ∧ active br' ≠ active br) ∧
        (amount ≠ 0%Z →
           ∃ br', player_action player "raise" amount br = Ok br' ∧
                  current_bet br' ≠ current_bet br))).
Proof.
  split; [apply player_action_inactive|]. split.
  { intros br'. unfold player_action.
    destruct (dict_get player (active br)) as [[]|] eqn:Ha; [|by intros [= <-]|done].
    repeat case_match; intros [= <-]; simpl; split; try done.
    intros q Hq. destruct (decide (player = q)) as [->|Hne]; [congruence|].
    by rewrite dict_get_set_ne. }
  intros Ha.
  assert (dict_get player (dict_set player false (active br)) = Some false) as Hpassed
    by apply dict_get_set_eq.
  unfold player_action. rewrite Ha. cbn [String.eqb Ascii.eqb Bool.eqb andb].
  split; [|split; [|split; [|split; [|split; [|split]]]]].
  - eexists. split; [reflexivity|]. by destruct (current_bet br =? 0)%Z.
  - eexists. by split; [reflexivity|].
  - eexists. by split; [reflexivity|].
  - eexists. by split; [reflexivity|].
  - eexists. by split; [reflexivity|].
  - intros Hother.
    repeat match goal with
           | Hn : _ ∉ _ :: _ |- _ => apply not_elem_of_cons in Hn as [?%String.eqb_neq ?]
           end.
    repeat match goal with
           | Hq : (_ =? _)%string = false |- _ => rewrite Hq; clear Hq
           end.
    done.
  - intros _. split.
    + eexists. split; [reflexivity|]. cbn [active with_active]. intros Heq.
      rewrite Heq in Hpassed. congruence.
    + intros Hamount. eexists. split; [reflexivity|]. simpl. lia.
Qed.

(** A raise by a player who has passed. *)
Lemma player_action_guard_is_active_flag_witness :
  player_action 1 "raise" 5
    (mkBettingRound [0; 1] "grande" 1 [(0, Some (Amount 1)); (1, None)]
       [(0, true); (1, false)] (Some 0) false)
  = Ok (mkBettingRound [0; 1] "grande" 1 [(0, Some (Amount 1)); (1, None)]
          [(0, true); (1, false)] (Some 0) false).
Proof. apply (proj1 (player_action_guard_is_active_flag 1 "raise" 5 _)). reflexivity. Defined.

(** C9, refuted as stated: after player 0 bets, the round of players 0 and 1
    is complete; a raise by player 1, still active, then changes the current
    bet, the recorded bets and the last raiser. The same holds after an
    ordago has set the finished flag. *)
Lemma complete_round_still_changes :
  player_action 0 "bet" 0 (BettingRound_init [0; 1] "grande" 1)
  = Ok (mkBettingRound [0; 1] "grande" 1 [(0, Some (Amount 1)); (1, None)]
          [(0, true); (1, true)] (Some 0) false) ∧
  is_round_complete (mkBettingRound [0; 1] "grande" 1 [(0, Some (Amount 1)); (1, None)]
                       [(0, true); (1, true)] (Some 0) false) = Ok true ∧
  player_action 1 "raise" 5 (mkBettingRound [0; 1] "grande" 1 [(0, Some (Amount 1)); (1, None)]
                               [(0, true); (1, true)] (Some 0) false)
  = Ok (mkBettingRound [0; 1] "grande" 6 [(0, Some (Amount 1)); (1, Some (Amount 6))]
          [(0, true); (1, true)] (Some 1) false) ∧
  player_action 0 "ordago" 0 (BettingRound_init [0; 1] "grande" 1)
  = Ok (mkBettingRound [0; 1] "grande" 1 [(0, Some OrdagoBet); (1, None)]
          [(0, true); (1, true)] None true) ∧
  player_action 1 "pass" 0 (mkBettingRound [0; 1] "grande" 1 [(0, Some OrdagoBet); (1, None)]
                              [(0, true); (1, true)] None true)
  = Ok (mkBettingRound [0; 1] "grande" 1 [(0, Some OrdagoBet); (1, None)]
          [(0, true); (1, false)] None true).
Proof. by vm_compute. Qed.

(** ** BettingRound.get_winner *)

Lemma list_find_dict_set_first {V} (P : nat * V → Prop) `{∀ x, Decision (P x)}
    (player : nat) (v : V) (d : pydict nat V) :
  P (player, v) →
  (∀ q w, (q, w) ∈ d → q ≠ player → ¬ P (q, w)) →
  ∃ i, list_find P (dict_set player v d) = Some (i, (player, v)).
Proof.
  intros Hp. induction d as [|[k w] d IH]; intros Hothers; simpl.
  - exists 0. by rewrite decide_True.
  - destruct (decide (player = k)) as [->|Hne].
    + exists 0. simpl. by rewrite decide_True.
    + simpl. rewrite decide_False by (apply Hothers; [left|done]).
      destruct IH as [i Hi]; [intros q w' Hin; apply Hothers; by right|].
      exists (S i). by rewrite Hi.
Qed.

Lemma list_find_ordago_recorded (d : pydict nat (option BetValue)) (p : nat) :
  (p, Some OrdagoBet) ∈ d →
  ∃ i q, list_find (λ pb : nat * option BetValue, pb.2 = Some OrdagoBet) d
         = Some (i, (q, Some OrdagoBet)).
Proof.
  intros Hin.
  destruct (list_find (λ pb : nat * option BetValue, pb.2 = Some OrdagoBet) d)
    as [[i [q b]]|] eqn:Hf.
  - apply list_find_Some in Hf as (_ & Hb & _). simpl in Hb. subst b. eauto.
  - apply list_find_None in Hf. rewrite Forall_forall in Hf. by apply Hf in Hin.
Qed.

Lemma elem_of_dict_set {K V} `{EqDecision K} (k : K) (v : V) (d : pydict K V) :
  (k, v) ∈ dict_set k v d.
Proof.
  induction d as [|[k' v'] d IH]; simpl; [by left|].
  destruct (decide (k = k')); [by left|by right].
Qed.

Lemma elem_of_dict_set_inv {K V} `{EqDecision K} (k : K) (v : V) (d : pydict K V) (kv : K * V) :
  kv ∈ dict_set k v d → kv = (k, v) ∨ kv ∈ d.
Proof.
  induction d as [|[k' v'] d IH]; simpl.
  - intros ->%list_elem_of_singleton. by left.
  - destruct (decide (k = k')).
    + intros [->|Hin]%elem_of_cons; [by left|]. right. by right.
    + intros [->|Hin]%elem_of_cons; [right; by left|].
      destruct (IH Hin) as [->|?]; [by left|]. right. by right.
Qed.

Lemma list_find_first {A} (P : A → Prop) `{∀ x, Decision (P x)} (l : list A) (i : nat) (x : A) :
  list_find P l = Some (i, x) →
  ∃ pre post, l = pre ++ x :: post ∧ P x ∧ ∀ y, y ∈ pre → ¬ P y.
Proof.
  intros (Hi & Hx & Hpre)%list_find_Some.
  exists (take i l), (drop (S i) l). split; [|split; [done|]].
  - by rewrite take_drop_middle.
  - intros y (k & Hk)%list_elem_of_lookup_1.
    apply lookup_take_Some in Hk as [Hk Hlt]. by apply (Hpre k).
Qed.

(** The finished flag is set whenever an all-in is recorded: no call of
    [player_action] records one without setting it, and none clears it. *)
Lemma player_action_all_in_finished (player : nat) (action : string) (amount : Z)
    (br br' : BettingRound) :
  (∀ q, (q, Some OrdagoBet) ∈ bets br → finished br = true) →
  player_action player action amount br = Ok br' →
  ∀ q, (q, Some OrdagoBet) ∈ bets br' → finished br' = true.
Proof.
  intros Hinv. unfold player_action.
  destruct (dict_get player (active br)) as [[]|]; [|by intros [= <-]|done].
  repeat case_match; intros [= <-]; simpl; try done.
  all: intros q [Heq|Hin]%elem_of_dict_set_inv; [discriminate Heq|by apply (Hinv q)].
Qed.

Lemma after_actions_all_in_finished (calls : list (nat * string * Z)) (br : BettingRound) :
  (∀ q, (q, Some OrdagoBet) ∈ bets br → finished br = true) →
  ∀ q, (q, Some OrdagoBet) ∈ bets (after_actions calls br) → finished (after_actions calls br) = true.
Proof.
  unfold after_actions. revert br. induction calls as [|call calls IH]; intros br Hinv; [done|].
  cbn [foldl]. apply IH. unfold after_action.
  destruct (player_action call.1.1 call.1.2 call.2 br) as [br'| |] eqn:Hact; [|done..].
  by apply (player_action_all_in_finished call.1.1 call.1.2 call.2 br).
Qed.

Lemma init_round_no_all_in (players : list nat) (play : string) (bet : Z) (q : nat) :
  (q, Some OrdagoBet) ∉ bets (BettingRound_init players play bet).
Proof.
  unfold BettingRound_init, dict_from_keys. cbn [bets].
  cut (∀ d : pydict nat (option BetValue),
         (q, Some OrdagoBet) ∉ d →
         (q, Some OrdagoBet) ∉ foldl (λ d p, dict_set p None d) d players).
  { intros Hfold. apply Hfold, not_elem_of_nil. }
  induction players as [|p players IH]; intros d Hd; [done|]. cbn [foldl]. apply IH.
  intros [Heq|Hin]%elem_of_dict_set_inv; [discriminate Heq|done].
Qed.

(** C4: in every round reached from a new one by calls of [player_action],
    an ordago by an active player records the all-in sentinel as that
    player's bet and sets the finished flag (on which the betting loop
    stops), leaving the other bets, the current bet and the active flags
    alone, whatever bets the other players have or have not recorded. If the
    round was not finished before, [get_winner] then returns that player
    with ['ordago'], whatever integer bets are recorded. In every case the
    player [get_winner] returns with ['ordago'] is the first player in
    [bets] order who is all-in. *)
Theorem ordago_finishes_round (players : list nat) (play : string) (bet : Z)
    (calls : list (nat * string * Z)) (player : nat) (amount : Z) :
  let br := after_actions calls (BettingRound_init players play bet) in
  dict_get player (active br) = Some true →
  ∃ br', player_action player "ordago" amount br = Ok br' ∧
         dict_get player (bets br') = Some (Some OrdagoBet) ∧
         (∀ q, q ≠ player → dict_get q (bets br') = dict_get q (bets br)) ∧
         finished br' = true ∧
         current_bet br' = current_bet br ∧ active br' = active br ∧
         (finished br = false → get_winner br' = (Some player, Some OrdagoBet)) ∧
         (∃ q pre post,
            get_winner br' = (Some q, Some OrdagoBet) ∧
            bets br' = pre ++ (q, Some OrdagoBet) :: post ∧
            ∀ pb : nat * option BetValue, pb ∈ pre → pb.2 ≠ Some OrdagoBet).
Proof.
  intros br Ha. eexists. split; [by apply player_action_ordago|]. simpl.
  split; [apply dict_get_set_eq|].
  split; [intros q Hq; by apply dict_get_set_ne|].
  repeat split.
  - intros Hopen. unfold get_winner. simpl.
    destruct (list_find_dict_set_first (λ pb : nat * option BetValue, pb.2 = Some OrdagoBet)
                player (Some OrdagoBet) (bets br)) as [i ->]; [done| |done].
    intros q w Hin Hq. simpl. intros ->.
    pose proof (after_actions_all_in_finished calls (BettingRound_init players play bet)) as Hinv.
    assert (finished br = true) as Hfinished; [|congruence].
    apply (Hinv (λ q' Hq', False_ind _ (init_round_no_all_in players play bet q' Hq')) q Hin).
  - unfold get_winner. simpl.
    destruct (list_find_ordago_recorded (dict_set player (Some OrdagoBet) (bets br)) player)
      as (i & q & Hfind); [apply elem_of_dict_set|].
    rewrite Hfind.
    apply list_find_first in Hfind as (pre & post & Hsplit & _ & Hpre).
    by exists q, pre, post.
Qed.

(** After a bet of player 0, player 1 goes all-in. *)
Lemma ordago_finishes_round_witness :
  ∃ br', player_action 1 "ordago" 0
           (after_actions [(0, "bet", 0%Z)] (BettingRound_init [0; 1; 2] "grande" 3)) = Ok br' ∧
         finished br' = true ∧ get_winner br' = (Some 1, Some OrdagoBet).
Proof.
  destruct (ordago_finishes_round [0; 1; 2] "grande" 3 [(0, "bet", 0%Z)] 1 0 eq_refl)
    as (br' & Hact & _ & _ & Hfin & _ & _ & Hwin & _).
  exists br'. repeat split; [exact Hact | exact Hfin |].
  apply Hwin. reflexivity.
Defined.

(** On a round that an all-in has finished, a second all-in by a player who
    is still active is recorded as well, and [get_winner] goes on returning
    the first all-in player in [bets] order. *)
Lemma second_ordago_is_not_the_winner :
  player_action 0 "ordago" 0 (BettingRound_init [0; 1] "grande" 1)
  = Ok (mkBettingRound [0; 1] "grande" 1 [(0, Some OrdagoBet); (1, None)]
          [(0, true); (1, true)] None true) ∧
  player_action 1 "ordago" 0
    (mkBettingRound [0; 1] "grande" 1 [(0, Some OrdagoBet); (1, None)]
       [(0, true); (1, true)] None true)
  = Ok (mkBettingRound [0; 1] "grande" 1 [(0, Some OrdagoBet); (1, Some OrdagoBet)]
          [(0, true); (1, true)] None true) ∧
  get_winner (mkBettingRound [0; 1] "grande" 1 [(0, Some OrdagoBet); (1, Some OrdagoBet)]
                [(0, true); (1, true)] None true) = (Some 0, Some OrdagoBet).
Proof. by vm_compute. Qed.

(** [max] keeps the first element whose key is the greatest. *)
Lemma py_max_by_first_greatest {A} (key : A → Z) (l : list A) (r : A) :
  py_max_by key l = Some r →
  ∃ pre post, l = pre ++ r :: post ∧
              (∀ y, y ∈ pre → (key y < key r)%Z) ∧
              (∀ y, y ∈ post → (key y ≤ key r)%Z).
Proof.
  unfold py_max_by, py_extremum_by. destruct l as [|x l]; [done|].
  intros [= <-]. induction l as [|y l IH] using rev_ind.
  - exists [], []. simpl. repeat split; intros ? Hin; by apply elem_of_nil in Hin.
  - rewrite foldl_app. simpl.
    destruct IH as (pre & post & Heq & Hpre & Hpost).
    set (best := foldl _ x l) in *.
    destruct (Z.gtb_spec (key y) (key best)) as [Hgt|Hle].
    + exists (x :: l), []. split; [done|]. split.
      * intros z Hz. rewrite Heq in Hz.
        apply elem_of_app in Hz as [Hz|Hz].
        -- specialize (Hpre z Hz). lia.
        -- apply elem_of_cons in Hz as [->|Hz]; [lia|]. specialize (Hpost z Hz). lia.
      * intros ? Hin; by apply elem_of_nil in Hin.
    + exists pre, (post ++ [y]). split.
      * rewrite app_comm_cons, Heq. by rewrite <- app_assoc.
      * split; [done|]. intros z Hz.
        apply elem_of_app in Hz as [Hz|Hz]; [by apply Hpost|].
        apply list_elem_of_singleton in Hz as ->. lia.
Qed.


Lemma omap_eq_app_cons {A B} (f : A → option B) (l : list A) (pre' post' : list B) (y : B) :
  omap f l = pre' ++ y :: post' →
  ∃ pre x post, l = pre ++ x :: post ∧ f x = Some y ∧
                omap f pre = pre' ∧ omap f post = post'.
Proof.
  revert pre'. induction l as [|a l IH]; intros pre' Heq; simpl in Heq.
  - by destruct pre'.
  - destruct (f a) as [b|] eqn:Hfa.
    + destruct pre' as [|b' pre'']; simpl in Heq; injection Heq as -> Heq.
      * exists [], a, l. by rewrite Hfa.
      * destruct (IH _ Heq) as (pre & x & post & -> & Hx & <- & <-).
        exists (a :: pre), x, post. simpl. by rewrite Hfa.
    + destruct (IH _ Heq) as (pre & x & post & -> & Hx & <- & <-).
      exists (a :: pre), x, post. simpl. by rewrite Hfa.
Qed.

Lemma valid_bet_Some (pb : nat * option BetValue) (q : nat) (z : Z) :
  valid_bet pb = Some (q, z) ↔ pb = (q, Some (Amount z)).
Proof.
  destruct pb as [p [[z'|]|]]; unfold valid_bet; simpl; split; intros Heq; by simplify_eq.
Qed.




(** ** Reasoning about monadic code *)

Section Hoare.
Context {S : Type}.
Implicit Types (P E I : S → Prop).

Lemma hoare_ret {A} P (a : A) (Q : A → S → Prop) E :
  (∀ s, P s → Q a s) → hoare P (ret a) Q E.
Proof. intros HQ s Hs. by apply HQ. Qed.

Lemma hoare_bind {A B} P (m : M S A) (k : A → M S B) Q1 (Q : B → S → Prop) E :
  hoare P m Q1 E → (∀ a, hoare (Q1 a) (k a) Q E) → hoare P (bind m k) Q E.
Proof.
  intros Hm Hk s Hs. specialize (Hm s Hs). unfold bind.
  destruct (m s) as [[a| |] s']; [|done..]. by apply Hk.
Qed.

Lemma hoare_weaken {A} P P' (m : M S A) (Q Q' : A → S → Prop) E E' :
  hoare P' m Q' E' → (∀ s, P s → P' s) → (∀ a s, Q' a s → Q a s) → (∀ s, E' s → E s) →
  hoare P m Q E.
Proof.
  intros Hm HP HQ HE s Hs. specialize (Hm s (HP s Hs)).
  destruct (m s) as [[a| |] s']; auto.
Qed.

Lemma hoare_intro_pre {A} P (m : M S A) (Q : A → S → Prop) E :
  (∀ s0, P s0 → hoare (λ s, s = s0) m Q E) → hoare P m Q E.
Proof. intros Hm s Hs. by apply (Hm s Hs). Qed.

Lemma hoare_bind_keeps {A B} P I (m : M S A) (k : A → M S B) (Q : B → S → Prop) E :
  hoare I m (λ _, I) I → (∀ s, P s → I s) → (∀ s, I s → E s) →
  (∀ a, hoare I (k a) Q E) → hoare P (bind m k) Q E.
Proof.
  intros Hm HP HE Hk. apply hoare_bind with (λ _, I); [|done].
  by apply hoare_weaken with I (λ _, I) I.
Qed.

Lemma keeps_ret {A} I (a : A) : keeps I (ret a).
Proof. by apply hoare_ret. Qed.

Lemma keeps_raise {A} I e : keeps I (raise e : M S A).
Proof. by intros s Hs. Qed.

Lemma keeps_out_of_fuel {A} I : keeps I (out_of_fuel : M S A).
Proof. by intros s Hs. Qed.

Lemma keeps_lift_outcome {A} I (o : Outcome A) : keeps I (lift_outcome o).
Proof. intros s Hs. unfold lift_outcome. by destruct o. Qed.

Lemma keeps_or_raise {A} I e (o : option A) : keeps I (or_raise e o).
Proof. destruct o; [apply keeps_ret|apply keeps_raise]. Qed.

Lemma keeps_bind {A B} I (m : M S A) (k : A → M S B) :
  keeps I m → (∀ a, keeps I (k a)) → keeps I (bind m k).
Proof. intros Hm Hk. by apply hoare_bind with (λ _, I). Qed.

Lemma keeps_for_each {A} I (l : list A) (body : A → M S unit) :
  (∀ x, keeps I (body x)) → keeps I (for_each l body).
Proof.
  intros Hbody. induction l as [|x l IH]; simpl; [apply keeps_ret|].
  apply keeps_bind; [apply Hbody|]. intros _. apply IH.
Qed.

Lemma keeps_comprehension {A B} I (l : list A) (f : A → M S B) :
  (∀ x, keeps I (f x)) → keeps I (comprehension l f).
Proof.
  intros Hf. induction l as [|x l IH]; simpl; [apply keeps_ret|].
  apply keeps_bind; [apply Hf|]. intros y.
  apply keeps_bind; [apply IH|]. intros ys. apply keeps_ret.
Qed.

Lemma hoare_for_fold {A B} (I : B → S → Prop) E (l : list A) (acc : B) (body : B → A → M S B) :
  (∀ acc x, hoare (I acc) (body acc x) I E) → hoare (I acc) (for_fold l acc body) I E.
Proof.
  intros Hbody. revert acc. induction l as [|x l IH]; intros acc; simpl.
  - by apply hoare_ret.
  - eapply hoare_bind; [apply Hbody|]. intros acc'. apply IH.
Qed.

Lemma keeps_for_fold {A B} I (l : list A) (acc : B) (body : B → A → M S B) :
  (∀ acc x, keeps I (body acc x)) → keeps I (for_fold l acc body).
Proof. intros Hbody. by apply (hoare_for_fold (λ _, I)). Qed.

End Hoare.

Section HoareWorld.
Context {G : Type} `{RandomSource G} `{SetOrder G}.
Implicit Types (I P E : World G → Prop).

Lemma hoare_get_self P E : hoare P get_self (λ self w, self = w.1 ∧ P w) E.
Proof. by intros w Hw. Qed.

Lemma keeps_get_self I : keeps I get_self.
Proof. by intros w Hw. Qed.

Lemma hoare_modify_self P (f : MusGame → MusGame) (Q : unit → World G → Prop) E :
  (∀ w, P w → Q tt (f w.1, w.2)) → hoare P (modify_self f) Q E.
Proof. intros Hf w Hw. by apply Hf. Qed.

Lemma keeps_modify_self I (f : MusGame → MusGame) :
  (∀ w, I w → I (f w.1, w.2)) → keeps I (modify_self f).
Proof. intros Hf. by apply hoare_modify_self. Qed.

Lemma hoare_set_iter P (site : SetSite) (s : gset nat) E :
  hoare P (set_iter site s) (λ l w, l ≡ₚ elements s ∧ P w) E.
Proof. intros w Hw. split; [apply set_order_elements|done]. Qed.

Lemma keeps_set_iter I (site : SetSite) (s : gset nat) : keeps I (set_iter site s).
Proof. by intros w Hw. Qed.

Lemma keeps_random {A} I (f : G → A * G) :
  (∀ w g, I w → I (w.1, g)) → keeps I (random f).
Proof. intros Hg w Hw. by apply Hg. Qed.

Lemma keeps_random_choice {A} I (seq : list A) :
  (∀ w g, I w → I (w.1, g)) → keeps I (random_choice seq).
Proof.
  intros Hg. unfold random_choice. case_decide; [apply keeps_raise|].
  apply keeps_bind; [by apply keeps_random|]. intros i. apply keeps_or_raise.
Qed.

End HoareWorld.

(** Running a computation step by step. *)
Section Run.
Context {G : Type} `{RandomSource G} `{SetOrder G}.

Lemma run_bind_Ok {S A B} (m : M S A) (k : A → M S B) (s s' : S) (a : A) :
  m s = (Ok a, s') → bind m k s = k a s'.
Proof. intros Hm. unfold bind. by rewrite Hm. Qed.

Lemma run_bind_Raise {S A B} (m : M S A) (k : A → M S B) (s s' : S) (e : PyExn) :
  m s = (Raise e, s') → bind m k s = (Raise e, s').
Proof. intros Hm. unfold bind. by rewrite Hm. Qed.

Lemma run_bind_OutOfFuel {S A B} (m : M S A) (k : A → M S B) (s s' : S) :
  m s = (OutOfFuel, s') → bind m k s = (OutOfFuel, s').
Proof. intros Hm. unfold bind. by rewrite Hm. Qed.

Lemma run_bind_ret {S A B} (a : A) (k : A → M S B) (s : S) : bind (ret a) k s = k a s.
Proof. reflexivity. Qed.

Lemma run_bind_raise {S A B} (e : PyExn) (k : A → M S B) (s : S) :
  bind (raise e) k s = (Raise e, s).
Proof. reflexivity. Qed.

Lemma run_bind_get_self {B} (k : MusGame → M (World G) B) (w : World G) :
  bind get_self k w = k w.1 w.
Proof. reflexivity. Qed.

Lemma run_bind_modify_self {B} (f : MusGame → MusGame) (k : unit → M (World G) B)
    (w : World G) :
  bind (modify_self f) k w = k tt (f w.1, w.2).
Proof. reflexivity. Qed.

Lemma run_bind_set_iter {B} (site : SetSite) (s : gset nat) (k : list nat → M (World G) B)
    (w : World G) :
  bind (set_iter site s) k w = k (set_order site w s) w.
Proof. reflexivity. Qed.

Lemma run_bind_or_raise_Some {S A B} (e : PyExn) (a : A) (k : A → M S B) (s : S) :
  bind (or_raise e (Some a)) k s = k a s.
Proof. reflexivity. Qed.

Lemma run_bind_or_raise_None {S A B} (e : PyExn) (k : A → M S B) (s : S) :
  bind (or_raise e (None : option A)) k s = (Raise e, s).
Proof. reflexivity. Qed.

End Run.

(** Decomposes a [keeps] goal along the structure of the code. *)
Ltac keeps_step :=
  lazymatch goal with
  | |- keeps _ (bind _ _) => apply keeps_bind; [|intros ?]
  | |- keeps _ (ret _) => apply keeps_ret
  | |- keeps _ (raise _) => apply keeps_raise
  | |- keeps _ out_of_fuel => apply keeps_out_of_fuel
  | |- keeps _ (lift_outcome _) => apply keeps_lift_outcome
  | |- keeps _ (or_raise _ _) => apply keeps_or_raise
  | |- keeps _ get_self => apply keeps_get_self
  | |- keeps _ (set_iter _ _) => apply keeps_set_iter
  | |- keeps _ (modify_self _) => apply keeps_modify_self; intros [? ?] ?; try done
  | |- keeps _ (random_choice _) => apply keeps_random_choice; intros [? ?] ? ?; try done
  | |- keeps _ (random _) => apply keeps_random; intros [? ?] ? ?; try done
  | |- keeps _ (for_each _ _) => apply keeps_for_each; intros ?
  | |- keeps _ (comprehension _ _) => apply keeps_comprehension; intros ?
  | |- keeps _ (for_fold _ _ _) => apply keeps_for_fold; intros ? ?
  | |- keeps _ (if ?b then _ else _) => destruct b
  | |- keeps _ (match ?x with _ => _ end) => destruct x
  | |- keeps _ (let _ := _ in _) => cbv zeta
  end.
Ltac keeps_auto := repeat keeps_step.

Section Ledger.
Context {G : Type} `{RandomSource G} `{SetOrder G}.

Lemma keeps_ledger_determine_mano t : keeps (ledger_is (G:=G) t) determine_mano.
Proof. unfold determine_mano. keeps_auto. Qed.

Lemma keeps_ledger_set_turn_order t : keeps (ledger_is (G:=G) t) set_turn_order.
Proof. unfold set_turn_order. keeps_auto. Qed.

Lemma keeps_ledger_team0_of t : keeps (ledger_is (G:=G) t) team0_of.
Proof. unfold team0_of. keeps_auto. Qed.

Lemma keeps_ledger_team1_of t team0 : keeps (ledger_is (G:=G) t) (team1_of team0).
Proof. unfold team1_of. keeps_auto. Qed.

Lemma keeps_ledger_update_covert_signal t player signal :
  keeps (ledger_is (G:=G) t) (update_covert_signal player signal).
Proof.
  unfold update_covert_signal.
  pose proof (keeps_ledger_team0_of t). pose proof (keeps_ledger_team1_of t).
  keeps_auto; done.
Qed.

(** The betting loops touch nothing but the generator. *)
Lemma keeps_betting_pass (I : World G → Prop) turn br :
  (∀ w g, I w → I (w.1, g)) → keeps I (betting_pass turn br).
Proof.
  intros Hg. revert br.
  induction turn as [|player rest IH]; intros br; simpl; keeps_auto; eauto.
Qed.

Lemma keeps_betting_loop (I : World G → Prop) fuel br :
  (∀ w g, I w → I (w.1, g)) → keeps I (betting_loop fuel br).
Proof.
  intros Hg. revert br.
  induction fuel as [|fuel IH]; intros br; simpl; keeps_auto;
    try (by apply keeps_betting_pass); apply IH.
Qed.

Lemma keeps_ledger_betting_loop t fuel br : keeps (ledger_is (G:=G) t) (betting_loop fuel br).
Proof. by apply keeps_betting_loop. Qed.

Lemma keeps_ledger_run_detailed_betting_round t fuel play :
  keeps (ledger_is (G:=G) t) (run_detailed_betting_round fuel play).
Proof.
  unfold run_detailed_betting_round. keeps_auto. apply keeps_ledger_betting_loop.
Qed.

Lemma keeps_ledger_play_loop t fuel categories :
  keeps (ledger_is (G:=G) t) (play_loop fuel categories).
Proof.
  induction categories as [|play rest IH]; simpl; keeps_auto;
    [apply keeps_ledger_run_detailed_betting_round|apply IH].
Qed.

Lemma keeps_ledger_reveal_hands t : keeps (ledger_is (G:=G) t) reveal_hands.
Proof. unfold reveal_hands. keeps_auto. Qed.

Lemma keeps_ledger_team_order_sum t site team :
  keeps (ledger_is (G:=G) t) (team_order_sum site team).
Proof. unfold team_order_sum. keeps_auto. Qed.

Lemma keeps_ledger_resolve_ordago t : keeps (ledger_is (G:=G) t) resolve_ordago.
Proof.
  unfold resolve_ordago.
  pose proof (keeps_ledger_team0_of t). pose proof (keeps_ledger_team1_of t).
  pose proof (keeps_ledger_reveal_hands t). pose proof (keeps_ledger_team_order_sum t).
  keeps_auto; done.
Qed.

Lemma keeps_ledger_evaluations_of t evaluate : keeps (ledger_is (G:=G) t) (evaluations_of evaluate).
Proof. unfold evaluations_of. keeps_auto. Qed.

Lemma keeps_ledger_best_player_of t play : keeps (ledger_is (G:=G) t) (best_player_of play).
Proof.
  unfold best_player_of. pose proof (keeps_ledger_evaluations_of t). keeps_auto; done.
Qed.

End Ledger.

(** ** Card conservation *)

Lemma hands_size_insert_fresh (m : gmap nat (list Card)) (p : nat) (hand : list Card) :
  m !! p = None → hands_size (<[p := hand]> m) = length hand + hands_size m.
Proof.
  intros Hp. unfold hands_size. rewrite map_fold_insert_L; [done| |done].
  intros. lia.
Qed.

Lemma hands_size_insert (m : gmap nat (list Card)) (p : nat) (hand : list Card) :
  hands_size (<[p := hand]> m) + length (default [] (m !! p))
  = hands_size m + length hand.
Proof.
  destruct (m !! p) as [old|] eqn:Hp; simpl.
  - rewrite <- (insert_delete_id m p old Hp) at 2.
    rewrite <- (insert_delete_eq m p hand).
    rewrite !hands_size_insert_fresh by apply lookup_delete_eq. lia.
  - rewrite hands_size_insert_fresh by done. lia.
Qed.

Lemma hands_size_empty_hands (m : gmap nat (list Card)) :
  (∀ p hand, m !! p = Some hand → hand = []) → hands_size m = 0.
Proof.
  unfold hands_size. induction m as [|p hand m Hp Hfold IH] using map_first_key_ind.
  - intros _. apply map_fold_empty.
  - intros Hall. rewrite map_fold_insert_first_key by done.
    rewrite (Hall p hand) by apply lookup_insert_eq. simpl. apply IH.
    intros q h Hq. apply (Hall q). rewrite lookup_insert_ne; [done|]. congruence.
Qed.

#[global] Instance conserves_refl : Reflexive conserves.
Proof. intros s. unfold conserves. split; [done|]. split; [done|]. lia. Qed.

#[global] Instance conserves_trans : Transitive conserves.
Proof.
  intros s1 s2 s3 (Hc1 & Ht1 & Hs1) (Hc2 & Ht2 & Hs2). unfold conserves.
  rewrite Hc2, Ht2. split; [done|]. split; [done|]. intros Ht.
  specialize (Hs1 Ht). rewrite <- Ht1 in Ht. specialize (Hs2 Ht). lia.
Qed.

#[global] Instance scores_grow_refl : Reflexive scores_grow.
Proof. intros s. unfold scores_grow. split; [done|]. lia. Qed.

#[global] Instance scores_grow_trans : Transitive scores_grow.
Proof.
  intros s1 s2 s3 (Ht1 & Hs1) (Ht2 & Hs2). unfold scores_grow.
  rewrite Ht2. split; [done|]. intros Ht.
  specialize (Hs1 Ht). rewrite <- Ht1 in Ht. specialize (Hs2 Ht). lia.
Qed.

Lemma conserves_scores_grow (s s' : MusGame) : conserves s s' → scores_grow s s'.
Proof. by intros (_ & ? & ?). Qed.

(** Reads the fields of an updated game. *)
Ltac game_simpl :=
  cbn [fst snd num_players target_score deck hands discard_pile current_phase scores mano
       turn_order current_turn_index play_categories play_results ordago_active
       ordago_player covert_signals intercepted_signals signal_intercept_chance
       hands_revealed with_deck with_hands with_discard_pile with_current_phase with_scores
       with_mano with_turn_order with_current_turn_index with_play_categories
       with_play_results with_ordago_active with_ordago_player with_covert_signals
       with_intercepted_signals with_hands_revealed] in *.

Section Conservation.
Context {G : Type} `{RandomSource G} `{SetOrder G}.

(** What [draw_from_deck] does to the piles: the cards it returns leave the
    deck and the discard pile taken together; it never raises. *)
Lemma draw_from_deck_effect (n : nat) (w : World G) :
  ∃ dealt w', draw_from_deck n w = (Ok dealt, w') ∧
    hands w'.1 = hands w.1 ∧ scores w'.1 = scores w.1 ∧
    target_score w'.1 = target_score w.1 ∧
    length (deck w'.1) + length (discard_pile w'.1) + length dealt
    = length (deck w.1) + length (discard_pile w.1).
Proof.
  destruct w as [s g]. unfold draw_from_deck, bind, get_self, modify_self, random, ret.
  cbn [fst snd]. destruct (decide (length (deck s) < n)) as [Hlt|Hge]; cbn [fst snd].
  - rewrite deal_nat. eexists _, _. split; [reflexivity|]. game_simpl.
    repeat split.
    pose proof (rand_shuffle_perm g (deck s ++ discard_pile s)) as Hperm.
    apply Permutation_length in Hperm. rewrite length_app in Hperm.
    rewrite <- Hperm.
    rewrite <- (take_drop n (rand_shuffle g (deck s ++ discard_pile s)).1) at 3.
    rewrite length_app. cbn [length]. lia.
  - rewrite deal_nat. eexists _, _. split; [reflexivity|]. game_simpl.
    repeat split.
    rewrite <- (take_drop n (deck s)) at 3. rewrite length_app. lia.
Qed.

Lemma filter_partition_length {A} (P : A → Prop) `{∀ x, Decision (P x)} (l : list A) :
  length (filter P l) + length (filter (λ x, ¬ P x) l) = length l.
Proof.
  induction l as [|x l IH]; [done|]. rewrite !filter_cons.
  destruct (decide (P x)); [rewrite decide_False by tauto|rewrite decide_True by done];
    simpl; lia.
Qed.

(** [perform_discard] keeps the number of cards, the scores and the target,
    whether it returns or raises. *)
Lemma perform_discard_effect (player : nat) (cards_to_discard : list nat) (w : World G) :
  ∃ o w', perform_discard player cards_to_discard w = (o, w') ∧
    card_total w'.1 = card_total w.1 ∧ scores w'.1 = scores w.1 ∧
    target_score w'.1 = target_score w.1.
Proof.
  destruct w as [s g]. unfold perform_discard.
  rewrite run_bind_get_self. cbn [fst].
  destruct (hands s !! player) as [hand|] eqn:Hhand.
  2: { rewrite run_bind_or_raise_None. by eexists _, _. }
  rewrite run_bind_or_raise_Some. cbv zeta.
  set (indexed := imap (λ idx card, (idx, card)) hand).
  set (discarded := (filter (λ ic : nat * Card, ic.1 ∈ cards_to_discard) indexed).*2).
  set (new_hand := (filter (λ ic : nat * Card, ic.1 ∉ cards_to_discard) indexed).*2).
  assert (length new_hand + length discarded = length hand) as Hsplit.
  { subst new_hand discarded. rewrite !length_fmap.
    pose proof (filter_partition_length (λ ic : nat * Card, ic.1 ∈ cards_to_discard) indexed)
      as Hp.
    subst indexed. rewrite length_imap in Hp. lia. }
  rewrite run_bind_modify_self. cbn [fst snd].
  destruct (draw_from_deck_effect (length discarded)
              (with_hands (<[player := new_hand]> (hands s)) s, g))
    as (new_cards & [s2 g2] & Hdraw & Hh & Hs & Ht & Hlen).
  rewrite (run_bind_Ok _ _ _ _ _ Hdraw).
  rewrite run_bind_get_self. game_simpl.
  rewrite Hh, lookup_insert_eq, run_bind_or_raise_Some, run_bind_modify_self.
  eexists _, _. split; [reflexivity|].
  unfold card_total. game_simpl. rewrite Hh, insert_insert_eq.
  pose proof (hands_size_insert (hands s) player (new_hand ++ new_cards)) as Hsz.
  rewrite Hhand in Hsz. simpl in Hsz. rewrite !length_app in *. split; [lia|done].
Qed.

(** The loop of [initial_deal]: the players still to be dealt hold nothing. *)
Lemma deal_loop_effect (todo : list nat) (w : World G) :
  NoDup todo →
  (∀ p, p ∈ todo → default [] (hands w.1 !! p) = []) →
  ∃ o w', for_each todo (λ player,
            let* dealt := draw_from_deck 4 in
            modify_self (λ self, with_hands (<[player := dealt]> (hands self)) self)) w
          = (o, w') ∧
    card_total w'.1 = card_total w.1 ∧ scores w'.1 = scores w.1 ∧
    target_score w'.1 = target_score w.1.
Proof.
  revert w. induction todo as [|player rest IH]; intros [s g] Hnd Hempty.
  { by eexists _, _. }
  apply NoDup_cons in Hnd as [Hfresh Hnd].
  cbn [for_each].
  destruct (draw_from_deck_effect 4 (s, g)) as (dealt & [s2 g2] & Hdraw & Hh & Hs & Ht & Hlen).
  game_simpl.
  rewrite (run_bind_Ok _ _ (s, g) (with_hands (<[player := dealt]> (hands s2)) s2, g2) tt).
  2: { by rewrite (run_bind_Ok _ _ _ _ _ Hdraw). }
  destruct (IH (with_hands (<[player := dealt]> (hands s2)) s2, g2) Hnd)
    as (o & w' & Hrun & Hc & Hsc & Htg).
  { intros p Hp. game_simpl. rewrite Hh.
    rewrite lookup_insert_ne by (intros ->; done).
    apply Hempty. by right. }
  exists o, w'. split; [done|]. rewrite Hc, Hsc, Htg. game_simpl. split; [|done].
  unfold card_total. game_simpl. rewrite Hh.
  pose proof (hands_size_insert (hands s) player dealt) as Hsz.
  rewrite (Hempty player) in Hsz by left. simpl in Hsz. lia.
Qed.

Lemma keeps_ledger_outcome {A} (m : M (World G) A) (w : World G) :
  (∀ t, keeps (ledger_is (G:=G) t) m) → ledger (m w).2.1 = ledger w.1.
Proof.
  intros Hm. specialize (Hm (ledger w.1) w eq_refl).
  by destruct (m w) as [[?| |] ?].
Qed.

Lemma ledger_card_total (s s' : MusGame) : ledger s' = ledger s → card_total s' = card_total s.
Proof. unfold ledger, card_total. by intros [= -> -> -> _ _]. Qed.

(** [initial_deal] on a game whose players hold nothing. *)
Lemma initial_deal_effect (w : World G) :
  (∀ p, p < num_players w.1 → default [] (hands w.1 !! p) = []) →
  card_total (initial_deal w).2.1 = card_total w.1.
Proof.
  intros Hempty. unfold initial_deal. rewrite run_bind_get_self.
  destruct (deal_loop_effect (range (num_players w.1)) w) as (o & w1 & Hloop & Hc & _).
  { apply NoDup_seq. }
  { intros p Hp. apply Hempty. apply elem_of_seq in Hp. lia. }
  rewrite <- Hc.
  destruct o as [[]| |].
  - rewrite (run_bind_Ok _ _ _ _ _ Hloop).
    apply ledger_card_total. apply keeps_ledger_outcome. intros t.
    pose proof (keeps_ledger_determine_mano (G:=G) t).
    pose proof (keeps_ledger_set_turn_order (G:=G) t).
    keeps_auto; done.
  - by rewrite (run_bind_Raise _ _ _ _ _ Hloop).
  - by rewrite (run_bind_OutOfFuel _ _ _ _ Hloop).
Qed.

(** The scores awarded by [score_round] are not negative when the target is
    not. *)
Lemma round_scores_effect t (team0 team1 : gset nat) :
  hoare (ledger_is (G:=G) t) (round_scores team0 team1)
        (λ rs w, ledger_is (G:=G) t w ∧ ((0 ≤ t.2)%Z → (0 ≤ rs.1)%Z ∧ (0 ≤ rs.2)%Z))
        (ledger_is (G:=G) t).
Proof.
  unfold round_scores.
  apply hoare_bind with (λ self w, self = w.1 ∧ ledger_is (G:=G) t w); [apply hoare_get_self|].
  intros self. apply hoare_intro_pre. intros w0 [-> Hl].
  assert (target_score w0.1 = t.2) as Ht by (by rewrite <- Hl).
  destruct (ordago_active w0.1).
  - apply hoare_bind_keeps with (ledger_is (G:=G) t);
      [apply keeps_ledger_resolve_ordago|by intros ? ->|done|].
    intros winning_team. repeat case_decide; apply hoare_ret; intros s Hs;
      (split; [done|]); cbn [fst snd]; lia.
  - apply hoare_weaken with
      (λ w, ledger_is (G:=G) t w ∧ ((0 ≤ t.2)%Z → (0 ≤ (0, 0)%Z.1)%Z ∧ (0 ≤ (0, 0)%Z.2)%Z))
      (λ rs w, ledger_is (G:=G) t w ∧ ((0 ≤ t.2)%Z → (0 ≤ rs.1)%Z ∧ (0 ≤ rs.2)%Z))
      (ledger_is (G:=G) t); [|by intros ? ->|done..].
    apply (hoare_for_fold
             (λ rs w, ledger_is (G:=G) t w ∧ ((0 ≤ t.2)%Z → (0 ≤ rs.1)%Z ∧ (0 ≤ rs.2)%Z))).
    intros acc play. apply hoare_intro_pre. intros w1 [Hl1 Hacc].
    apply hoare_bind_keeps with (ledger_is (G:=G) t);
      [apply keeps_get_self|by intros ? ->|done|].
    intros self. cbv zeta.
    apply hoare_bind_keeps with (ledger_is (G:=G) t);
      [apply keeps_ledger_best_player_of|done..|].
    intros best_player.
    repeat case_match; repeat case_decide; apply hoare_ret; intros s Hs;
      (split; [done|]); cbn [fst snd]; lia.
Qed.

(** [score_round] leaves the cards where they are and never lowers a score
    when the target is not negative. *)
Lemma score_round_effect (w : World G) :
  let w' := (score_round w).2 in
  deck w'.1 = deck w.1 ∧ hands w'.1 = hands w.1 ∧ discard_pile w'.1 = discard_pile w.1 ∧
  target_score w'.1 = target_score w.1 ∧
  ((0 ≤ target_score w.1)%Z →
     ((scores w.1).1 ≤ (scores w'.1).1)%Z ∧ ((scores w.1).2 ≤ (scores w'.1).2)%Z).
Proof.
  set (Post := λ w' : World G,
    deck w'.1 = deck w.1 ∧ hands w'.1 = hands w.1 ∧ discard_pile w'.1 = discard_pile w.1 ∧
    target_score w'.1 = target_score w.1 ∧
    ((0 ≤ target_score w.1)%Z →
       ((scores w.1).1 ≤ (scores w'.1).1)%Z ∧ ((scores w.1).2 ≤ (scores w'.1).2)%Z)).
  assert (∀ w', ledger_is (G:=G) (ledger w.1) w' → Post w') as Hframe.
  { intros w' Hw'. unfold ledger_is, ledger in Hw'. injection Hw' as Hd Hh Hdp Hsc Ht.
    unfold Post. rewrite Hd, Hh, Hdp, Hsc, Ht. repeat split; lia. }
  assert (hoare (ledger_is (G:=G) (ledger w.1)) score_round (λ _, Post) Post) as Hsr.
  { unfold score_round.
    apply hoare_bind_keeps with (ledger_is (G:=G) (ledger w.1));
      [apply keeps_ledger_team0_of|done..|]. intros team0.
    apply hoare_bind_keeps with (ledger_is (G:=G) (ledger w.1));
      [apply keeps_ledger_team1_of|done..|]. intros team1.
    eapply hoare_bind.
    { eapply hoare_weaken; [apply round_scores_effect|done..]. }
    intros rs [s g] [Hl Hrs]. unfold ledger_is, ledger in Hl. cbn [fst] in Hl.
    injection Hl as Hd Hh Hdp Hsc Ht.
    cbn. unfold Post. game_simpl. repeat split; try done; cbn [ledger snd] in Hrs;
      rewrite Hsc; lia. }
  specialize (Hsr w eq_refl). cbv zeta.
  by destruct (score_round w) as [[[]| |] w'].
Qed.

Lemma changes_keeps {A} (R : relation MusGame) `{!Transitive R} (m : M (World G) A) s0 :
  changes (G:=G) R m → keeps (λ w, R s0 w.1) m.
Proof.
  intros Hm w Hw. specialize (Hm w).
  destruct (m w) as [[?| |] ?]; by transitivity w.1.
Qed.

Lemma keeps_changes {A} (R : relation MusGame) `{!Reflexive R} (m : M (World G) A) :
  (∀ s0, keeps (λ w, R s0 w.1) m) → changes (G:=G) R m.
Proof.
  intros Hm w. specialize (Hm w.1 w (reflexivity _)).
  by destruct (m w) as [[?| |] ?].
Qed.

Lemma changes_weaken {A} (R R' : relation MusGame) (m : M (World G) A) :
  changes (G:=G) R m → (∀ s s', R s s' → R' s s') → changes (G:=G) R' m.
Proof. intros Hm HR w. apply HR, Hm. Qed.

Lemma ledger_changes {A} (m : M (World G) A) :
  (∀ t, keeps (ledger_is (G:=G) t) m) → changes (G:=G) (λ s s', ledger s' = ledger s) m.
Proof. intros Hm w. by apply keeps_ledger_outcome. Qed.

Lemma ledger_conserves (s s' : MusGame) : ledger s' = ledger s → conserves s s'.
Proof.
  intros Hl. unfold conserves. rewrite (ledger_card_total _ _ Hl).
  unfold ledger in Hl. injection Hl as _ _ _ -> ->. split; [done|]. split; [done|]. lia.
Qed.

Lemma ledger_op_conserves {A} (m : M (World G) A) :
  (∀ t, keeps (ledger_is (G:=G) t) m) → changes (G:=G) conserves m.
Proof.
  intros Hm. eapply changes_weaken; [by apply ledger_changes|]. apply ledger_conserves.
Qed.

Lemma perform_discard_conserves player cards_to_discard :
  changes (G:=G) conserves (perform_discard player cards_to_discard).
Proof.
  intros w. destruct (perform_discard_effect player cards_to_discard w)
    as (o & w' & -> & Hc & Hs & Ht).
  unfold conserves. cbn [snd]. rewrite Hc, Hs, Ht. split; [done|]. split; [done|]. lia.
Qed.

Lemma score_round_conserves : changes (G:=G) conserves score_round.
Proof.
  intros w. destruct (score_round_effect w) as (Hd & Hh & Hdp & Ht & Hs).
  unfold conserves, card_total. rewrite Hd, Hh, Hdp, Ht. done.
Qed.

Lemma start_play_phase_conserves fuel : changes (G:=G) conserves (start_play_phase fuel).
Proof.
  apply keeps_changes; [apply _|]. intros s0. unfold start_play_phase.
  pose proof (changes_keeps conserves (play_loop fuel ["grande"; "chica"; "pares"; "juego"]) s0
                (ledger_op_conserves _ (λ t, keeps_ledger_play_loop t fuel _))).
  pose proof (changes_keeps conserves score_round s0 score_round_conserves).
  keeps_auto; try done.
  eapply (changes_keeps conserves), ledger_op_conserves.
  intros t. apply keeps_ledger_play_loop.
Qed.

Lemma step_conserves fuel actions : changes (G:=G) conserves (step fuel actions).
Proof.
  apply keeps_changes; [apply _|]. intros s0. unfold step.
  pose proof (changes_keeps conserves _ s0 (start_play_phase_conserves fuel)).
  assert (∀ player sig, keeps (λ w : World G, conserves s0 w.1)
                           (update_covert_signal player sig)) as Hsig.
  { intros. eapply (changes_keeps conserves), ledger_op_conserves.
    intros t. apply keeps_ledger_update_covert_signal. }
  assert (∀ player cs, keeps (λ w : World G, conserves s0 w.1)
                          (perform_discard player cs)) as Hdis.
  { intros. apply (changes_keeps conserves), perform_discard_conserves. }
  keeps_auto; try done. unfold finish_round. keeps_auto.
Qed.

Lemma initial_deal_scores_grow : changes (G:=G) scores_grow (initial_deal (G:=G)).
Proof.
  apply keeps_changes; [apply _|]. intros s0. unfold initial_deal, draw_from_deck.
  assert (keeps (λ w : World G, scores_grow s0 w.1) determine_mano) as Hdm.
  { eapply (changes_keeps scores_grow), changes_weaken;
      [apply ledger_op_conserves, keeps_ledger_determine_mano|apply conserves_scores_grow]. }
  assert (keeps (λ w : World G, scores_grow s0 w.1) set_turn_order) as Hto.
  { eapply (changes_keeps scores_grow), changes_weaken;
      [apply ledger_op_conserves, keeps_ledger_set_turn_order|apply conserves_scores_grow]. }
  keeps_auto; done.
Qed.

End Conservation.

Section Operations.
Context {G : Type} `{RandomSource G} `{SetOrder G}.

Lemma run_operation_scores_grow (fuel : nat) (op : Operation) :
  changes (G:=G) scores_grow (run_operation (G:=G) fuel op).
Proof.
  destruct op as [|player cs|player sig|actions| | |]; cbn [run_operation].
  - apply initial_deal_scores_grow.
  - eapply changes_weaken; [apply perform_discard_conserves|apply conserves_scores_grow].
  - eapply changes_weaken; [|apply conserves_scores_grow].
    apply ledger_op_conserves. intros t.
    pose proof (keeps_ledger_update_covert_signal (G:=G) t player sig). keeps_auto; done.
  - eapply changes_weaken; [|apply conserves_scores_grow].
    apply keeps_changes; [apply conserves_refl|]. intros s0.
    pose proof (changes_keeps conserves _ s0 (step_conserves fuel actions)).
    keeps_auto; done.
  - eapply changes_weaken; [apply start_play_phase_conserves|apply conserves_scores_grow].
  - eapply changes_weaken; [apply score_round_conserves|apply conserves_scores_grow].
  - eapply changes_weaken; [|apply conserves_scores_grow].
    apply ledger_op_conserves. intros t. unfold finish_round. keeps_auto.
Qed.

Lemma run_operation_conserves (fuel : nat) (op : Operation) :
  op ≠ InitialDeal → changes (G:=G) conserves (run_operation (G:=G) fuel op).
Proof.
  intros Hop. destruct op as [|player cs|player sig|actions| | |]; cbn [run_operation];
    [done|..].
  - apply perform_discard_conserves.
  - apply ledger_op_conserves. intros t.
    pose proof (keeps_ledger_update_covert_signal (G:=G) t player sig). keeps_auto; done.
  - apply keeps_changes; [apply conserves_refl|]. intros s0.
    pose proof (changes_keeps conserves _ s0 (step_conserves fuel actions)).
    keeps_auto; done.
  - apply start_play_phase_conserves.
  - apply score_round_conserves.
  - apply ledger_op_conserves. intros t. unfold finish_round. keeps_auto.
Qed.

Lemma run_operations_snoc (fuel : nat) (ops : list Operation) (op : Operation) (w : World G) :
  run_operations fuel (ops ++ [op]) w
  = (run_operation fuel op (run_operations fuel ops w)).2.
Proof. unfold run_operations. by rewrite foldl_app. Qed.

Lemma is_terminal_grows (s s' : MusGame) :
  (0 ≤ target_score s)%Z → scores_grow s s' → is_terminal s = true → is_terminal s' = true.
Proof.
  intros Ht [Htgt Hs]. specialize (Hs Ht). unfold is_terminal. rewrite Htgt.
  rewrite !orb_true_iff, !Z.leb_le. lia.
Qed.

(** C10: on a game whose target score is not negative, no operation
    ([initial_deal], [step], [start_play_phase], [score_round], and the
    discard, signal and end-of-round calls besides), and so no sequence of
    them, changes the target or lowers either team's score, whether the
    operations return or raise; hence [is_terminal], once true, is true after
    every later operation. *)
Theorem scores_never_decrease (fuel : nat) (ops : list Operation) (w : World G) :
  (0 ≤ target_score w.1)%Z →
  target_score (run_operations fuel ops w).1 = target_score w.1 ∧
  ((scores w.1).1 ≤ (scores (run_operations fuel ops w).1).1)%Z ∧
  ((scores w.1).2 ≤ (scores (run_operations fuel ops w).1).2)%Z ∧
  (is_terminal w.1 = true → is_terminal (run_operations fuel ops w).1 = true).
Proof.
  intros Ht.
  assert (scores_grow w.1 (run_operations fuel ops w).1) as Hgrow.
  { induction ops as [|op ops IH] using rev_ind; [reflexivity|].
    rewrite run_operations_snoc. etransitivity; [apply IH|].
    apply run_operation_scores_grow. }
  pose proof (is_terminal_grows _ _ Ht Hgrow) as Hterm.
  destruct Hgrow as [Htgt Hs]. specialize (Hs Ht). tauto.
Qed.

Lemma MusGame_init_hands_empty (num_players : nat) (target_score : Z) (chance : Q) (g : G)
    (p : nat) (hand : list Card) :
  hands (MusGame_init num_players target_score chance g).1 !! p = Some hand → hand = [].
Proof.
  unfold MusGame_init. cbn [fst hands]. intros Hp.
  apply elem_of_list_to_map_2 in Hp. apply list_elem_of_fmap in Hp as (q & [= -> ->] & _).
  done.
Qed.

Lemma Deck_init_length : length Deck_init = 40.
Proof. by vm_compute. Qed.

Lemma MusGame_init_card_total (num_players : nat) (target_score : Z) (chance : Q) (g : G) :
  card_total (MusGame_init num_players target_score chance g).1 = 40.
Proof.
  unfold card_total.
  rewrite hands_size_empty_hands by apply MusGame_init_hands_empty.
  unfold MusGame_init. cbn [fst deck discard_pile length].
  rewrite (Permutation_length (rand_shuffle_perm g Deck_init)), Deck_init_length. done.
Qed.

(** C2: a new game holds 40 cards in its deck, and after [initial_deal] and
    then after every operation of any sequence of discards, signals, steps,
    play phases, scorings and end-of-round calls that follows it (reshuffles
    happen inside them), the deck, the discard pile and the hands hold 40
    cards together, whether the operations return or raise. The deal itself
    is not repeated: it is made once per game. *)
Theorem card_conservation (num_players : nat) (target_score : Z) (chance : Q) (g : G)
    (fuel : nat) (ops : list Operation) :
  Forall (λ op, op ≠ InitialDeal) ops →
  card_total (MusGame_init num_players target_score chance g).1 = 40 ∧
  card_total (initial_deal (MusGame_init num_players target_score chance g)).2.1 = 40 ∧
  ∀ k, card_total
         (run_operations fuel (take k ops)
            (initial_deal (MusGame_init num_players target_score chance g)).2).1 = 40.
Proof.
  intros Hops.
  pose proof (MusGame_init_card_total num_players target_score chance g) as Hnew.
  assert (card_total (initial_deal (MusGame_init num_players target_score chance g)).2.1 = 40)
    as Hdealt.
  { rewrite initial_deal_effect; [done|]. intros p _.
    destruct (hands _ !! p) as [hand|] eqn:Hp; [|done].
    by apply MusGame_init_hands_empty in Hp as ->. }
  split; [done|]. split; [done|]. intros k.
  assert (Forall (λ op, op ≠ InitialDeal) (take k ops)) as Hk by by apply Forall_take.
  induction (take k ops) as [|op done_ops IH] using rev_ind; [done|].
  apply Forall_app in Hk as [Hdone Hop]. rewrite Forall_singleton in Hop.
  rewrite run_operations_snoc.
  destruct (run_operation_conserves fuel op Hop (run_operations fuel done_ops
              (initial_deal (MusGame_init num_players target_score chance g)).2)) as [-> _].
  by apply IH.
Qed.

End Operations.

(** A step with a discard and a signal, then a second scoring, on a dealt
    game of four with target 40. *)
Lemma scores_never_decrease_witness :
  target_score (run_operations 2 [Step sample_actions; ScoreRound] dealt_game).1 = 40%Z ∧
  (0 ≤ (scores (run_operations 2 [Step sample_actions; ScoreRound] dealt_game).1).1)%Z ∧
  (0 ≤ (scores (run_operations 2 [Step sample_actions; ScoreRound] dealt_game).1).2)%Z.
Proof.
  pose proof (scores_never_decrease 2 [Step sample_actions; ScoreRound] dealt_game)
    as Hgrow.
  destruct Hgrow as (Ht & H1 & H2 & _); [by vm_compute|].
  split; [exact Ht|]. split; [exact H1|exact H2].
Defined.

(** A discard and a step after the deal of a game of four. *)
Lemma card_conservation_witness :
  card_total
    (run_operations 2 [PerformDiscard 0 [0; 3]; Step sample_actions]
       (initial_deal (MusGame_init 4 40 (1 # 5) 7)).2).1 = 40.
Proof.
  pose proof (card_conservation (G:=nat) 4 40 (1 # 5) 7 2
                [PerformDiscard 0 [0; 3]; Step sample_actions]) as Hcons.
  destruct Hcons as (_ & _ & Hall).
  - repeat constructor; discriminate.
  - exact (Hall 2).
Defined.

(** ** The simulated betting round ends within one pass over the turn order *)

Lemma dict_get_Some_elem {K V} `{EqDecision K} (k : K) (v : V) (d : pydict K V) :
  dict_get k d = Some v → (k, v) ∈ d.
Proof.
  induction d as [|[k' v'] d IH]; simpl; [done|].
  destruct (decide (k = k')) as [->|Hne]; [intros [= ->]; by left|].
  intros Hd. right. by apply IH.
Qed.

Lemma dict_get_elem_NoDup {K V} `{EqDecision K} (k : K) (v : V) (d : pydict K V) :
  NoDup d.*1 → (k, v) ∈ d → dict_get k d = Some v.
Proof.
  induction d as [|[k' v'] d IH]; simpl; intros Hnd Hin.
  - by apply elem_of_nil in Hin.
  - apply NoDup_cons in Hnd as [Hfresh Hnd].
    apply elem_of_cons in Hin as [[= -> ->]|Hin]; [by rewrite decide_True|].
    rewrite decide_False; [by apply IH|].
    intros ->. apply Hfresh. apply list_elem_of_fmap. by exists (k', v).
Qed.

Lemma dict_get_is_Some {K V} `{EqDecision K} (k : K) (d : pydict K V) :
  k ∈ d.*1 → is_Some (dict_get k d).
Proof.
  induction d as [|[k' v'] d IH]; simpl; intros Hin.
  - by apply elem_of_nil in Hin.
  - destruct (decide (k = k')); [by eexists|].
    apply IH. apply elem_of_cons in Hin as [?|?]; done.
Qed.

Lemma dict_set_keys {K V} `{EqDecision K} (k : K) (v : V) (d : pydict K V) :
  k ∈ d.*1 → (dict_set k v d).*1 = d.*1.
Proof.
  induction d as [|[k' v'] d IH]; simpl; intros Hin.
  - by apply elem_of_nil in Hin.
  - destruct (decide (k = k')) as [->|Hne]; [done|]. simpl. f_equal. apply IH.
    apply elem_of_cons in Hin as [?|?]; done.
Qed.

Lemma dict_set_keys_fresh {K V} `{EqDecision K} (k : K) (v : V) (d : pydict K V) :
  k ∉ d.*1 → (dict_set k v d).*1 = d.*1 ++ [k].
Proof.
  induction d as [|[k' v'] d IH]; simpl; intros Hin; [done|].
  apply not_elem_of_cons in Hin as [Hne Hin].
  rewrite decide_False by done. simpl. f_equal. by apply IH.
Qed.

(** The keys of [{p: v for p in keys}] do not depend on [v] and do not
    repeat; every value is [v]. *)
Lemma dict_from_keys_spec {V} (v : V) (keys : list nat) :
  ∃ ks, dict_from_keys v keys = (λ k, (k, v)) <$> ks ∧ NoDup ks ∧ (∀ k, k ∈ ks ↔ k ∈ keys) ∧
        ks = (dict_from_keys tt keys).*1.
Proof.
  unfold dict_from_keys.
  cut (∀ ks0, NoDup ks0 →
         ∃ ks, foldl (λ d p, dict_set p v d) ((λ k, (k, v)) <$> ks0) keys = (λ k, (k, v)) <$> ks ∧
               NoDup ks ∧ (∀ k, k ∈ ks ↔ k ∈ ks0 ∨ k ∈ keys) ∧
               ks = (foldl (λ d p, dict_set p tt d) ((λ k, (k, tt)) <$> ks0) keys).*1).
  { intros Hcut. destruct (Hcut [] (NoDup_nil_2)) as (ks & Hks & Hnd & Hin & Hkeys).
    exists ks. split; [done|]. split; [done|]. split; [|done].
    intros k. rewrite Hin. rewrite elem_of_nil. tauto. }
  induction keys as [|p keys IH]; intros ks0 Hnd0; simpl.
  - exists ks0. split; [done|]. split; [done|]. split.
    + intros k. rewrite elem_of_nil. tauto.
    + rewrite <- list_fmap_compose. by rewrite list_fmap_id.
  - destruct (decide (p ∈ ks0)) as [Hin|Hnin].
    + assert (∀ (u : Type) (x : u), dict_set p x ((λ k, (k, x)) <$> ks0) = (λ k, (k, x)) <$> ks0)
        as Hsame.
      { intros u x. clear -Hin. induction ks0 as [|k ks0 IH]; [by apply elem_of_nil in Hin|].
        simpl. destruct (decide (p = k)) as [->|Hne]; [done|]. f_equal. apply IH.
        apply elem_of_cons in Hin as [?|?]; done. }
      rewrite !Hsame. destruct (IH ks0 Hnd0) as (ks & Hks & Hnd & Hel & Hkeys).
      exists ks. split; [done|]. split; [done|]. split; [|done].
      intros k. rewrite Hel, elem_of_cons. split; [tauto|]. intros [?|[->|?]]; tauto.
    + assert (∀ (u : Type) (x : u),
                dict_set p x ((λ k, (k, x)) <$> ks0) = (λ k, (k, x)) <$> (ks0 ++ [p]))
        as Hnew.
      { intros u x. clear -Hnin. induction ks0 as [|k ks0 IH]; [done|].
        apply not_elem_of_cons in Hnin as [Hne Hnin].
        simpl. rewrite decide_False by done. f_equal. by apply IH. }
      rewrite !Hnew. destruct (IH (ks0 ++ [p])) as (ks & Hks & Hnd & Hel & Hkeys).
      { apply NoDup_app. split; [done|]. split; [|apply NoDup_singleton].
        intros k Hk ->%list_elem_of_singleton. done. }
      exists ks. split; [done|]. split; [done|]. split; [|done].
      intros k. rewrite Hel, elem_of_app, list_elem_of_singleton, elem_of_cons. tauto.
Qed.

Lemma dict_get_fmap_const {V} (v : V) (ks : list nat) (k : nat) (b : V) :
  dict_get k ((λ k, (k, v)) <$> ks) = Some b → b = v ∧ k ∈ ks.
Proof.
  induction ks as [|k' ks IH]; simpl; [done|].
  destruct (decide (k = k')) as [->|Hne].
  - intros [= <-]. split; [done|by left].
  - intros [-> Hin]%IH. split; [done|by right].
Qed.

Lemma init_round_in_pass (turn : list nat) (play : string) (bet : Z) :
  round_in_pass turn (BettingRound_init turn play bet).
Proof.
  destruct (dict_from_keys_spec (None : option BetValue) turn) as (kb & Hb & Hndb & Hinb & Hkb).
  destruct (dict_from_keys_spec true turn) as (ka & Ha & Hnda & Hina & Hka).
  assert (kb = ka) as -> by congruence.
  split; cbn [BettingRound_init active bets].
  - rewrite Ha, <- list_fmap_compose. by rewrite list_fmap_id.
  - rewrite Ha, Hb, <- !list_fmap_compose. done.
  - rewrite Hb. intros q b Hq. by apply dict_get_fmap_const in Hq as [-> _].
  - rewrite Ha. intros q Hq. apply dict_get_fmap_const in Hq as [_ Hq]. by apply Hina.
  - rewrite Ha, <- list_fmap_compose, list_fmap_id. intros p Hp. by apply Hina.
Qed.

Lemma active_players_spec (br : BettingRound) (p : nat) :
  NoDup (active br).*1 →
  p ∈ active_players br ↔ dict_get p (active br) = Some true.
Proof.
  intros Hnd. unfold active_players. rewrite list_elem_of_fmap. split.
  - intros ([q a] & -> & [Ha Hin]%list_elem_of_filter). simpl in *. subst a.
    by apply dict_get_elem_NoDup.
  - intros Hp. exists (p, true). split; [done|].
    apply list_elem_of_filter. split; [done|]. by apply dict_get_Some_elem.
Qed.

Lemma active_players_NoDup (br : BettingRound) :
  NoDup (active br).*1 → NoDup (active_players br).
Proof.
  intros Hnd. unfold active_players. eapply sublist_NoDup; [exact Hnd|].
  apply fmap_sublist, sublist_filter.
Qed.

Lemma active_players_keys (br : BettingRound) (p : nat) :
  p ∈ active_players br → p ∈ (active br).*1.
Proof.
  unfold active_players. rewrite !list_elem_of_fmap.
  intros (pa & -> & [_ Hin]%list_elem_of_filter). by exists pa.
Qed.

Lemma is_round_complete_defined (br : BettingRound) :
  (bets br).*1 = (active br).*1 → ∃ c, is_round_complete br = Ok c.
Proof.
  intros Hkeys. unfold is_round_complete. case_decide; [by eexists|].
  destruct (mapM _ _) as [bs|] eqn:Hm; [by eexists|].
  assert (is_Some (mapM (λ p, dict_get p (bets br)) (active_players br))) as [? Hs];
    [|congruence].
  apply mapM_is_Some_2, Forall_forall. intros p Hp. simpl.
  apply dict_get_is_Some. rewrite Hkeys. by apply active_players_keys.
Qed.

Lemma numeric_bets_none (player : nat) (x : Z) (l : list nat) :
  player ∉ l →
  numeric_bets ((λ p, if decide (p = player) then Some (Amount x) else None) <$> l) = [].
Proof.
  induction l as [|a l IH]; [done|]. intros [Hne Hnin]%not_elem_of_cons.
  cbn. rewrite decide_False by done. by apply IH.
Qed.

Lemma numeric_bets_single (player : nat) (x : Z) (l : list nat) :
  NoDup l → player ∈ l →
  numeric_bets ((λ p, if decide (p = player) then Some (Amount x) else None) <$> l) = [x].
Proof.
  induction l as [|a l IH]; intros Hnd Hin; [by apply elem_of_nil in Hin|].
  apply NoDup_cons in Hnd as [Hfresh Hnd]. cbn.
  destruct (decide (a = player)) as [->|Hne].
  - f_equal. by apply numeric_bets_none.
  - apply IH; [done|]. apply elem_of_cons in Hin as [?|?]; [congruence|done].
Qed.

(** The first bet recorded in a round completes it. *)
Lemma first_bet_completes (br : BettingRound) (player : nat) (x : Z) :
  NoDup (active br).*1 → (bets br).*1 = (active br).*1 →
  dict_get player (active br) = Some true →
  dict_get player (bets br) = Some (Some (Amount x)) →
  (∀ q b, q ≠ player → dict_get q (bets br) = Some b → b = None) →
  is_round_complete br = Ok true.
Proof.
  intros Hnd Hkeys Hact Hbet Hothers. unfold is_round_complete. case_decide; [done|].
  rewrite (mapM_Some_2 _ _
             ((λ p, if decide (p = player) then Some (Amount x) else None)
                <$> active_players br)).
  - rewrite numeric_bets_single;
      [done|by apply active_players_NoDup|by apply active_players_spec].
  - apply Forall2_fmap_r, Forall_Forall2_diag, Forall_forall. intros p Hp.
    unfold compose. cbv beta. case_decide as Hne; [by subst|].
    destruct (dict_get_is_Some p (bets br)) as [b Hb].
    { rewrite Hkeys. by apply active_players_keys. }
    by rewrite Hb, (Hothers p b Hne Hb).
Qed.

Lemma bet_recorded_completes (rest : list nat) (br br' : BettingRound) (player : nat) (x : Z) :
  round_in_pass rest br →
  dict_get player (active br) = Some true →
  active br' = active br →
  bets br' = dict_set player (Some (Amount x)) (bets br) →
  is_round_complete br' = Ok true ∧ NoDup (bets br').*1 ∧
  (∀ q b, dict_get q (bets br') = Some b → b ≠ Some OrdagoBet).
Proof.
  intros [Hnd Hkeys Hnone Hact Hrest] Ha Hactive Hbets.
  assert (player ∈ (bets br).*1) as Hkey.
  { rewrite Hkeys. apply list_elem_of_fmap. exists (player, true).
    split; [done|]. by apply dict_get_Some_elem. }
  assert ((bets br').*1 = (active br').*1) as Hkeys'.
  { by rewrite Hbets, Hactive, dict_set_keys. }
  split; [|split].
  - apply first_bet_completes with player x; rewrite ?Hactive; try done.
    + by rewrite <- Hactive.
    + rewrite Hbets. apply dict_get_set_eq.
    + intros q b Hq. rewrite Hbets, dict_get_set_ne by done. apply Hnone.
  - by rewrite Hkeys', Hactive.
  - intros q b. rewrite Hbets. destruct (decide (player = q)) as [->|Hne].
    + rewrite dict_get_set_eq. by intros [= <-].
    + rewrite dict_get_set_ne by done. by intros ->%Hnone.
Qed.

Section Termination.
Context {G : Type} `{RandomSource G} `{SetOrder G}.

Lemma random_choice_run {A} (seq : list A) (w : World G) :
  seq ≠ [] → ∃ x g, random_choice seq w = (Ok x, (w.1, g)) ∧ x ∈ seq.
Proof.
  intros Hne. unfold random_choice.
  assert (0 < length seq) as Hlen by (destruct seq; [done|simpl; lia]).
  rewrite decide_False by lia.
  pose proof (rand_below_lt w.2 (length seq) Hlen) as Hi.
  destruct (lookup_lt_is_Some_2 seq _ Hi) as [x Hx].
  exists x, (rand_below w.2 (length seq)).2. split.
  - unfold bind, random. cbn [fst snd]. by rewrite Hx.
  - by apply list_elem_of_lookup_2 in Hx.
Qed.

Lemma run_bind_lift_Ok {A B} (a : A) (k : A → M (World G) B) (w : World G) :
  bind (lift_outcome (Ok a)) k w = k a w.
Proof. reflexivity. Qed.

Lemma betting_pass_completes (rest : list nat) (br : BettingRound) (w : World G) :
  round_in_pass rest br →
  ∃ br1 w1, betting_pass rest br w = (Ok br1, w1) ∧ pass_result br1.
Proof.
  revert br w. induction rest as [|player rest IH]; intros br w Hinv.
  - exists br, w. split; [done|]. destruct Hinv as [Hnd Hkeys Hnone Hact Hrest].
    split; [|split].
    + unfold is_round_complete. case_decide as Hlen; [done|]. exfalso.
      destruct (active_players br) as [|p ?] eqn:Hap; [simpl in Hlen; lia|].
      assert (p ∈ active_players br) as Hp by (rewrite Hap; left).
      apply active_players_spec, Hact in Hp; [|done]. by apply elem_of_nil in Hp.
    + by rewrite Hkeys.
    + by intros q b ->%Hnone.
  - pose proof Hinv as [Hnd Hkeys Hnone Hact Hrest].
    destruct (dict_get_is_Some player (active br)) as [a Ha]; [apply Hrest; left|].
    cbn [betting_pass]. rewrite Ha, run_bind_or_raise_Some.
    destruct a; cbn [negb].
    2: { destruct (IH br w) as (br1 & w1 & Hrun & Hres); [|by exists br1, w1].
         split; try done.
         - intros q Hq. specialize (Hact q Hq).
           apply elem_of_cons in Hact as [->|?]; [congruence|done].
         - intros p Hp. apply Hrest. by right. }
    destruct (random_choice_run ["bet"; "raise"; "call"; "pass"] w) as (action & g1 & Hch & Hin);
      [done|].
    rewrite (run_bind_Ok _ _ _ _ _ Hch).
    assert (player ∈ (active br).*1) as Hkey by (apply Hrest; left).
    repeat (apply elem_of_cons in Hin as [->|Hin]); [..|by apply elem_of_nil in Hin];
      cbn [String.eqb Ascii.eqb Bool.eqb].
    + (* bet *)
      unfold player_action. rewrite Ha. cbn [String.eqb Ascii.eqb Bool.eqb].
      rewrite run_bind_lift_Ok.
      match goal with |- context [bind (lift_outcome (is_round_complete ?b)) _ _] =>
        destruct (bet_recorded_completes (player :: rest) br b player
                    (current_bet (if (current_bet br =? 0)%Z
                                  then with_current_bet 1 br else br)))
          as (Hc & Hnd' & Hno); [done|done|by destruct (current_bet br =? 0)%Z
                                |by destruct (current_bet br =? 0)%Z|];
        rewrite Hc, run_bind_lift_Ok; exists b; eexists; split; [reflexivity|done]
      end.
    + (* raise *)
      destruct (random_choice_run [1; 2]%Z (w.1, g1)) as (amount & g2 & Hch2 & _); [done|].
      assert (bind (random_choice [1; 2]%Z)
                (λ amount, lift_outcome (player_action player "raise" amount br)) (w.1, g1)
              = (Ok (with_last_raiser (Some player)
                       (with_bets (dict_set player (Some (Amount (current_bet br + amount)))
                                     (bets br))
                          (with_current_bet (current_bet br + amount) br))), (w.1, g2)))
        as Hraise.
      { rewrite (run_bind_Ok _ _ _ _ _ Hch2). by rewrite (player_action_raise _ _ _ Ha). }
      rewrite (run_bind_Ok _ _ _ _ _ Hraise).
      match goal with |- context [bind (lift_outcome (is_round_complete ?b)) _ _] =>
        destruct (bet_recorded_completes (player :: rest) br b player
                    (current_bet br + amount)) as (Hc & Hnd' & Hno); [done..|];
        rewrite Hc, run_bind_lift_Ok; exists b; eexists; split; [reflexivity|done]
      end.
    + (* call *)
      unfold player_action. rewrite Ha. cbn [String.eqb Ascii.eqb Bool.eqb].
      rewrite run_bind_lift_Ok.
      match goal with |- context [bind (lift_outcome (is_round_complete ?b)) _ _] =>
        destruct (bet_recorded_completes (player :: rest) br b player (current_bet br))
          as (Hc & Hnd' & Hno); [done..|];
        rewrite Hc, run_bind_lift_Ok; exists b; eexists; split; [reflexivity|done]
      end.
    + (* pass *)
      unfold player_action. rewrite Ha. cbn [String.eqb Ascii.eqb Bool.eqb].
      rewrite run_bind_lift_Ok.
      set (br' := with_active (dict_set player false (active br)) br).
      assert ((active br').*1 = (active br).*1) as Hk' by by apply dict_set_keys.
      destruct (is_round_complete_defined br') as [c Hc]; [by rewrite Hk'|].
      rewrite Hc, run_bind_lift_Ok. destruct c.
      * exists br'. eexists. split; [reflexivity|]. split; [done|]. split.
        -- cbn. by rewrite Hkeys.
        -- by intros q b ->%Hnone.
      * destruct (IH br' (w.1, g1)) as (br1 & w1 & Hrun & Hres); [|by exists br1, w1].
        split; try done.
        -- by rewrite Hk'.
        -- by rewrite Hk'.
        -- intros q. cbn. destruct (decide (player = q)) as [->|Hne].
           ++ by rewrite dict_get_set_eq.
           ++ rewrite dict_get_set_ne by done. intros Hq. specialize (Hact q Hq).
              apply elem_of_cons in Hact as [->|?]; done.
        -- intros p Hp. rewrite Hk'. apply Hrest. by right.
Qed.

Lemma betting_loop_returns (fuel : nat) (play : string) (w : World G) :
  ∃ br1 g1, betting_loop (S (S fuel)) (BettingRound_init (turn_order w.1) play 1) w
            = (Ok br1, (w.1, g1)) ∧
            ∀ q b, (q, b) ∈ bets br1 → b ≠ Some OrdagoBet.
Proof.
  set (br0 := BettingRound_init (turn_order w.1) play 1).
  pose proof (init_round_in_pass (turn_order w.1) play 1) as Hinv. fold br0 in Hinv.
  assert (∀ br1, NoDup (bets br1).*1 →
            (∀ q b, dict_get q (bets br1) = Some b → b ≠ Some OrdagoBet) →
            ∀ q b, (q, b) ∈ bets br1 → b ≠ Some OrdagoBet) as Hmem.
  { intros br1 Hnd Hno q b Hin. apply (Hno q). by apply dict_get_elem_NoDup. }
  destruct (is_round_complete_defined br0) as [c0 Hc0]; [apply Hinv|].
  cbn [betting_loop]. change (finished br0) with false. cbv iota.
  rewrite Hc0, run_bind_lift_Ok. destruct c0.
  - exists br0, w.2. split; [by destruct w|]. apply Hmem.
    + destruct Hinv as [Hnd Hkeys _ _ _]. by rewrite Hkeys.
    + intros q b Hq. by rewrite (rip_no_bets _ _ Hinv q b Hq).
  - rewrite run_bind_get_self.
    destruct (betting_pass_completes (turn_order w.1) br0 w Hinv)
      as (br1 & w1 & Hpass & Hc1 & Hnd1 & Hno1).
    rewrite (run_bind_Ok _ _ _ _ _ Hpass).
    assert (w1.1 = w.1) as Hgame.
    { pose proof (keeps_betting_pass (λ w' : World G, w'.1 = w.1) (turn_order w.1) br0
                    (λ _ _ Hw, Hw) w eq_refl) as Hk.
      by rewrite Hpass in Hk. }
    exists br1, w1.2. split; [|by apply Hmem].
    destruct w1 as [s1 g1]. cbn [fst snd] in *. subst s1.
    destruct (finished br1); [done|]. by rewrite Hc1.
Qed.

(** With a budget of two tests of the loop condition, the simulated betting
    round returns; it leaves the game object as it was (only the generator
    has advanced), and its final bet is never ['ordago']. *)
Lemma simulated_round_returns (fuel : nat) (play : string) (w : World G) :
  ∃ result g1, run_detailed_betting_round (S (S fuel)) play w = (Ok result, (w.1, g1)) ∧
               result.2 ≠ Some OrdagoBet.
Proof.
  unfold run_detailed_betting_round. rewrite run_bind_get_self.
  destruct (betting_loop_returns fuel play w) as (br1 & g1 & Hloop & Hno).
  rewrite (run_bind_Ok _ _ _ _ _ Hloop). cbv zeta.
  assert ((get_winner br1).2 ≠ Some OrdagoBet) as Hres.
  { unfold get_winner.
    destruct (list_find _ (bets br1)) as [[i [q b]]|] eqn:Hf.
    - apply list_find_Some in Hf as (Hi & Hb & _). simpl in Hb. subst b.
      apply list_elem_of_lookup_2 in Hi. by apply Hno in Hi.
    - by destruct (py_max_by snd (omap valid_bet (bets br1))) as [[]|]. }
  rewrite decide_False by done. rewrite run_bind_ret.
  by exists (get_winner br1), g1.
Qed.

End Termination.

Section Budget.
Context {G : Type} `{RandomSource G} `{SetOrder G}.

Lemma within_budget_bind {S A B} (m : M S A) (k : A → M S B) :
  within_budget m → (∀ a, within_budget (k a)) → within_budget (bind m k).
Proof.
  intros Hm Hk s. specialize (Hm s). unfold bind.
  destruct (m s) as [[a|e|] s']; [apply Hk|done|done].
Qed.

Lemma within_budget_or_raise {S A} e (o : option A) : within_budget (or_raise e o : M S A).
Proof. by destruct o. Qed.

Lemma within_budget_for_each {S A} (l : list A) (body : A → M S unit) :
  (∀ x, within_budget (body x)) → within_budget (for_each l body).
Proof.
  intros Hbody. induction l as [|x l IH]; simpl; [done|].
  apply within_budget_bind; [apply Hbody|]. intros _. apply IH.
Qed.

Lemma within_budget_comprehension {S A B} (l : list A) (f : A → M S B) :
  (∀ x, within_budget (f x)) → within_budget (comprehension l f).
Proof.
  intros Hf. induction l as [|x l IH]; simpl; [done|].
  apply within_budget_bind; [apply Hf|]. intros y.
  apply within_budget_bind; [apply IH|]. done.
Qed.

Lemma within_budget_for_fold {S A B} (l : list A) (acc : B) (body : B → A → M S B) :
  (∀ acc x, within_budget (body acc x)) → within_budget (for_fold l acc body).
Proof.
  intros Hbody. revert acc. induction l as [|x l IH]; intros acc; simpl; [done|].
  apply within_budget_bind; [apply Hbody|]. intros acc'. apply IH.
Qed.

Lemma within_budget_random_choice {A} (seq : list A) :
  within_budget (random_choice (G:=G) seq).
Proof.
  unfold random_choice. case_decide; [done|].
  apply within_budget_bind; [done|]. intros i. apply within_budget_or_raise.
Qed.

End Budget.

Ltac budget_step :=
  lazymatch goal with
  | |- within_budget (bind _ _) => apply within_budget_bind; [|intros ?]
  | |- within_budget (or_raise _ _) => apply within_budget_or_raise
  | |- within_budget (random_choice _) => apply within_budget_random_choice
  | |- within_budget (for_each _ _) => apply within_budget_for_each; intros ?
  | |- within_budget (comprehension _ _) => apply within_budget_comprehension; intros ?
  | |- within_budget (for_fold _ _ _) => apply within_budget_for_fold; intros ? ?
  | |- within_budget (if ?b then _ else _) => destruct b
  | |- within_budget (match ?x with _ => _ end) => destruct x
  | |- within_budget (let _ := _ in _) => cbv zeta
  | |- within_budget _ => done
  end.
Ltac budget_auto := repeat budget_step.

Section OperationsReturn.
Context {G : Type} `{RandomSource G} `{SetOrder G}.

Lemma within_budget_round (fuel : nat) (play : string) :
  within_budget (run_detailed_betting_round (G:=G) (S (S fuel)) play).
Proof.
  intros w. destruct (simulated_round_returns fuel play w) as (result & g1 & -> & _). done.
Qed.

Lemma within_budget_play_loop (fuel : nat) (categories : list string) :
  within_budget (play_loop (G:=G) (S (S fuel)) categories).
Proof.
  induction categories as [|play rest IH]; [done|]. cbn [play_loop].
  pose proof (within_budget_round fuel play). budget_auto.
Qed.

Lemma within_budget_update_covert_signal player signal :
  within_budget (update_covert_signal (G:=G) player signal).
Proof. unfold update_covert_signal, team0_of, team1_of. budget_auto. Qed.

Lemma within_budget_perform_discard player cards_to_discard :
  within_budget (perform_discard (G:=G) player cards_to_discard).
Proof. unfold perform_discard, draw_from_deck. budget_auto. Qed.

Lemma within_budget_score_round : within_budget (score_round (G:=G)).
Proof.
  unfold score_round, round_scores, resolve_ordago, reveal_hands, team_order_sum,
    best_player_of, evaluations_of, team0_of, team1_of.
  budget_auto.
Qed.

Lemma within_budget_start_play_phase (fuel : nat) :
  within_budget (start_play_phase (G:=G) (S (S fuel))).
Proof.
  unfold start_play_phase.
  pose proof (within_budget_play_loop fuel). pose proof within_budget_score_round.
  budget_auto.
Qed.

(** With a budget of two or more, no operation stops on the budget: each
    returns or raises as the Python code does. *)
Lemma operations_within_budget (fuel : nat) (op : Operation) :
  within_budget (run_operation (G:=G) (S (S fuel)) op).
Proof.
  pose proof (within_budget_start_play_phase fuel).
  pose proof within_budget_score_round.
  pose proof within_budget_update_covert_signal.
  pose proof within_budget_perform_discard.
  destruct op as [|player cs|player sig|actions| | |]; cbn [run_operation]; try done.
  - unfold initial_deal, draw_from_deck, determine_mano, set_turn_order. budget_auto.
  - budget_auto.
  - unfold step, finish_round. budget_auto.
Qed.

End OperationsReturn.

(** ** Ordago: the play phase and the scoring *)

Section Ordago.
Context {G : Type} `{RandomSource G} `{SetOrder G}.

Lemma for_each_Ok {A} (l : list A) (body : A → M (World G) unit) (w : World G) :
  (∀ x, x ∈ l → body x w = (Ok tt, w)) → for_each l body w = (Ok tt, w).
Proof.
  induction l as [|x l IH]; intros Hbody; [done|]. cbn [for_each].
  rewrite (run_bind_Ok _ _ _ _ _ (Hbody x ltac:(left))).
  apply IH. intros y Hy. apply Hbody. by right.
Qed.

Lemma comprehension_Ok {A B} (l : list A) (f : A → M (World G) B) (h : A → B) (w : World G) :
  (∀ x, x ∈ l → f x w = (Ok (h x), w)) → comprehension l f w = (Ok (h <$> l), w).
Proof.
  induction l as [|x l IH]; intros Hf; [done|]. cbn [comprehension].
  rewrite (run_bind_Ok _ _ _ _ _ (Hf x ltac:(left))).
  rewrite (run_bind_Ok _ _ _ _ _ (IH (λ y Hy, Hf y ltac:(by right)))).
  done.
Qed.

Lemma sum_permutation (l l' : list Z) : l ≡ₚ l' → foldr Z.add 0%Z l = foldr Z.add 0%Z l'.
Proof. induction 1; simpl; lia. Qed.

Lemma set_order_filter (site : SetSite) (w : World G) (team : gset nat) (n : nat) :
  (∀ p, p ∈ team → p < n) → set_order site w team ≡ₚ filter (λ p, p ∈ team) (range n).
Proof.
  intros Hlt. rewrite set_order_elements.
  apply NoDup_Permutation.
  - apply NoDup_elements.
  - apply NoDup_filter, NoDup_seq.
  - intros p. rewrite elem_of_elements, list_elem_of_filter. unfold range.
    rewrite elem_of_seq. split; [|tauto]. intros Hp. specialize (Hlt p Hp). split; [done|lia].
Qed.

Lemma team_order_sum_run (site : SetSite) (team : gset nat) (s : MusGame) (g : G) :
  (∀ p, p ∈ team → p < num_players s) →
  (∀ p, p < num_players s → is_Some (hands s !! p)) →
  team_order_sum site team (s, g)
  = (Ok (foldr Z.add 0%Z
           (hand_order_sum s <$> filter (λ p, p ∈ team) (range (num_players s)))),
     (s, g)).
Proof.
  intros Hteam Hhands. unfold team_order_sum. rewrite run_bind_set_iter.
  assert (∀ p, p ∈ set_order site (s, g) team →
            (let* self := get_self in
             let* hand := or_raise KeyError (hands self !! p) in
             ret (foldr Z.add 0%Z (order <$> hand))) (s, g)
            = (Ok (hand_order_sum s p), (s, g))) as Hbody.
  { intros p Hp. rewrite run_bind_get_self. cbn [fst].
    assert (p ∈ team) as Hin.
    { rewrite set_order_elements in Hp. by apply elem_of_elements in Hp. }
    destruct (Hhands p (Hteam p Hin)) as [hand Hhand].
    rewrite Hhand, run_bind_or_raise_Some. unfold hand_order_sum. by rewrite Hhand. }
  rewrite (run_bind_Ok _ _ _ _ _ (comprehension_Ok _ _ _ _ Hbody)).
  unfold ret. f_equal. f_equal. apply sum_permutation.
  apply fmap_Permutation. by apply set_order_filter.
Qed.

Lemma reveal_hands_run (s : MusGame) (g : G) :
  (∀ p, p < num_players s → is_Some (hands s !! p)) →
  reveal_hands (s, g) = (Ok tt, (with_hands_revealed (Some true) s, g)).
Proof.
  intros Hhands. unfold reveal_hands.
  rewrite run_bind_modify_self, run_bind_get_self. game_simpl.
  apply for_each_Ok. intros p Hp. apply elem_of_seq in Hp.
  rewrite run_bind_get_self. game_simpl.
  destruct (Hhands p ltac:(lia)) as [hand ->]. by rewrite run_bind_or_raise_Some.
Qed.

Lemma team0_of_run (s : MusGame) (g : G) (m : nat) :
  mano s = Some m → num_players s ≠ 0 →
  team0_of (s, g) = (Ok {[ m; (m + 2) mod num_players s ]}, (s, g)).
Proof.
  intros Hm Hn. unfold team0_of. rewrite run_bind_get_self. cbn [fst].
  rewrite Hm. by rewrite decide_False.
Qed.

Lemma team1_of_run (team0 : gset nat) (s : MusGame) (g : G) :
  team1_of team0 (s, g) = (Ok (list_to_set (range (num_players s)) ∖ team0), (s, g)).
Proof. reflexivity. Qed.

Lemma filter_ext_in {A} (P Q : A → Prop) `{∀ x, Decision (P x)} `{∀ x, Decision (Q x)}
    (l : list A) :
  (∀ x, x ∈ l → P x ↔ Q x) → filter P l = filter Q l.
Proof.
  induction l as [|x l IH]; intros Hext; [done|]. rewrite !filter_cons.
  rewrite IH by (intros y Hy; apply Hext; by right).
  destruct (decide (P x)) as [HP|HP], (decide (Q x)) as [HQ|HQ]; try done;
    exfalso; apply (Hext x ltac:(left)) in HP || apply (Hext x ltac:(left)) in HQ; done.
Qed.

(** [resolve_ordago] on a dealt game: the team with the strictly greater
    order total, or [None]. *)
Lemma resolve_ordago_run (s : MusGame) (g : G) (m : nat) :
  mano s = Some m → m < num_players s →
  (∀ p, p < num_players s → is_Some (hands s !! p)) →
  resolve_ordago (s, g)
  = (Ok (if (team0_order_total s m >? team1_order_total s m)%Z then Some 0
         else if (team1_order_total s m >? team0_order_total s m)%Z then Some 1
         else None),
     (with_hands_revealed (Some true) s, g)).
Proof.
  intros Hm Hlt Hhands. unfold resolve_ordago.
  set (s' := with_hands_revealed (Some true) s).
  assert (num_players s ≠ 0) as Hn by lia.
  rewrite (run_bind_Ok _ _ _ _ _ (reveal_hands_run s g Hhands)). fold s'.
  rewrite (run_bind_Ok _ _ _ _ _ (team0_of_run s' g m Hm Hn)).
  rewrite (run_bind_Ok _ _ _ _ _ (team1_of_run _ s' g)).
  change (num_players s') with (num_players s).
  set (team0 := {[ m; (m + 2) mod num_players s ]} : gset nat).
  set (team1 := list_to_set (range (num_players s)) ∖ team0 : gset nat).
  assert (∀ p, p ∈ team0 ↔ on_team0 s m p) as Hteam0.
  { intros p. unfold team0, on_team0. set_solver. }
  assert (∀ p, p ∈ team0 → p < num_players s) as Hlt0.
  { intros p [->| ->]%Hteam0; [done|]. apply Nat.mod_upper_bound. lia. }
  assert (∀ p, p ∈ range (num_players s) → p ∈ team1 ↔ ¬ on_team0 s m p) as Hteam1.
  { intros p Hp. unfold team1. rewrite elem_of_difference, elem_of_list_to_set, Hteam0.
    tauto. }
  assert (∀ p, p ∈ team1 → p < num_players s) as Hlt1.
  { intros p Hp. unfold team1 in Hp.
    apply elem_of_difference in Hp as [Hp _].
    apply elem_of_list_to_set, elem_of_seq in Hp. lia. }
  rewrite (run_bind_Ok _ _ _ _ _ (team_order_sum_run TeamSet team0 s' g Hlt0 Hhands)).
  rewrite (run_bind_Ok _ _ _ _ _ (team_order_sum_run OtherPlayers team1 s' g Hlt1 Hhands)).
  change (num_players s') with (num_players s).
  rewrite (filter_ext_in (λ p, p ∈ team0) (on_team0 s m)) by (intros; apply Hteam0).
  rewrite (filter_ext_in (λ p, p ∈ team1) (λ p, ¬ on_team0 s m p)) by apply Hteam1.
  change (foldr Z.add 0%Z (hand_order_sum s' <$> filter (on_team0 s m) (range (num_players s))))
    with (team0_order_total s m).
  change (foldr Z.add 0%Z
            (hand_order_sum s' <$> filter (λ p, ¬ on_team0 s m p) (range (num_players s))))
    with (team1_order_total s m).
  by repeat case_match.
Qed.

Lemma round_scores_ordago_run (team0 team1 : gset nat) (s : MusGame) (g : G) (m : nat) :
  ordago_active s = true → mano s = Some m → m < num_players s →
  (∀ p, p < num_players s → is_Some (hands s !! p)) →
  round_scores team0 team1 (s, g)
  = (Ok (ordago_award s (team0_order_total s m) (team1_order_total s m)),
     (with_hands_revealed (Some true) s, g)).
Proof.
  intros Hflag Hm Hlt Hhands. unfold round_scores.
  rewrite run_bind_get_self. cbn [fst]. rewrite Hflag.
  rewrite (run_bind_Ok _ _ _ _ _ (resolve_ordago_run s g m Hm Hlt Hhands)).
  unfold ordago_award.
  destruct (team0_order_total s m >? team1_order_total s m)%Z;
    [|destruct (team1_order_total s m >? team0_order_total s m)%Z];
    by repeat case_decide.
Qed.

(** [score_round] with the ordago flag set. *)
Lemma score_round_ordago_run (s : MusGame) (g : G) (m : nat) :
  ordago_active s = true → mano s = Some m → m < num_players s →
  (∀ p, p < num_players s → is_Some (hands s !! p)) →
  score_round (s, g)
  = (Ok tt,
     (with_current_phase "deal"
        (with_scores (ordago_scores s (team0_order_total s m) (team1_order_total s m))
           (with_hands_revealed (Some true) s)), g)).
Proof.
  intros Hflag Hm Hlt Hhands. unfold score_round.
  assert (num_players s ≠ 0) as Hn by lia.
  rewrite (run_bind_Ok _ _ _ _ _ (team0_of_run s g m Hm Hn)).
  rewrite (run_bind_Ok _ _ _ _ _ (team1_of_run _ s g)).
  rewrite (run_bind_Ok _ _ _ _ _ (round_scores_ordago_run _ _ s g m Hflag Hm Hlt Hhands)).
  rewrite !run_bind_modify_self. unfold modify_self. game_simpl.
  unfold ordago_award, ordago_scores.
  destruct (team0_order_total s m >? team1_order_total s m)%Z;
    [|destruct (team1_order_total s m >? team0_order_total s m)%Z];
    game_simpl; rewrite ?Z.add_0_r; try done.
  by destruct (scores s).
Qed.

(** A betting round whose final bet is ['ordago'] raises the ordago flag, and
    no betting round lowers it. *)
Lemma run_detailed_betting_round_flag (fuel : nat) (play : string) (w w1 : World G) result :
  run_detailed_betting_round fuel play w = (Ok result, w1) →
  result.2 = Some OrdagoBet ∨ ordago_active w.1 = true →
  ordago_active w1.1 = true.
Proof.
  intros Hrun Hdeclared.
  assert (hoare (λ w0, ordago_active w0.1 = ordago_active w.1)
            (run_detailed_betting_round (G:=G) fuel play)
            (λ r w', r.2 = Some OrdagoBet ∨ ordago_active w.1 = true → ordago_active w'.1 = true)
            (λ _, True)) as Hh.
  { unfold run_detailed_betting_round.
    apply hoare_bind_keeps with (λ w0 : World G, ordago_active w0.1 = ordago_active w.1);
      [apply keeps_get_self|done..|]. intros self.
    apply hoare_bind_keeps with (λ w0 : World G, ordago_active w0.1 = ordago_active w.1);
      [|done..|].
    { by apply keeps_betting_loop. }
    intros br. cbv zeta. case_decide as Hres.
    - intros [s0 g0] _. by cbn.
    - apply hoare_bind_keeps with (λ w0 : World G, ordago_active w0.1 = ordago_active w.1);
        [apply keeps_ret|done..|]. intros _.
      apply hoare_ret. intros w0 Hw0 [?|Hw]; [done|]. by rewrite Hw0. }
  specialize (Hh w eq_refl). rewrite Hrun in Hh. by apply Hh.
Qed.

(** The play phase of a game whose ordago flag is up: one betting round, for
    grande, and the scoring by order totals. *)
Lemma start_play_phase_ordago_run (fuel : nat) (s : MusGame) (g : G) (m : nat) :
  ordago_active s = true → mano s = Some m → m < num_players s →
  (∀ p, p < num_players s → is_Some (hands s !! p)) →
  ∃ result s' g', start_play_phase (S (S fuel)) (s, g) = (Ok tt, (s', g')) ∧
    play_results s' = {[ "grande" := result ]} ∧ hands s' = hands s ∧
    scores s' = ordago_scores s (team0_order_total s m) (team1_order_total s m).
Proof.
  intros Hflag Hm Hlt Hhands. unfold start_play_phase.
  rewrite !run_bind_modify_self, run_bind_get_self. game_simpl.
  set (s0 := with_play_results ∅
               (with_play_categories ["grande"; "chica"; "pares"; "juego"]
                  (with_current_phase "play" s))).
  destruct (simulated_round_returns fuel "grande" (s0, g)) as (result & g1 & Hround & _).
  assert (play_loop (S (S fuel)) ["grande"; "chica"; "pares"; "juego"] (s0, g)
          = (Ok tt, (with_play_results (<["grande" := result]> (play_results s0)) s0, g1)))
    as Hloop.
  { cbn [play_loop]. rewrite (run_bind_Ok _ _ _ _ _ Hround).
    rewrite run_bind_modify_self, run_bind_get_self. game_simpl.
    change (ordago_active s0) with (ordago_active s). by rewrite Hflag. }
  rewrite (run_bind_Ok _ _ _ _ _ Hloop), run_bind_modify_self. game_simpl.
  match goal with |- context [score_round (?sb, g1)] =>
    rewrite (score_round_ordago_run sb g1 m Hflag Hm Hlt Hhands) end.
  eexists result, _, g1. split; [reflexivity|]. game_simpl.
  subst s0. game_simpl. split; [by rewrite insert_empty|]. done.
Qed.

(** C3. A betting round whose final bet is ['ordago'] raises the ordago flag
    (and none lowers it); when the flag is up after the betting round of a
    category, the play phase records that round's result and runs no betting
    round for the categories that remain; [score_round] then awards by order
    totals only: with the hands of all players dealt, team 0 being the mano
    and the player two seats on and team 1 the others, the team with the
    strictly greater total of card [order]s gets the whole [target_score]
    added to its score, and on equal totals both scores stay as they are.
    So [start_play_phase] on a game whose flag is up returns with the result
    of the grande round alone recorded and the scores so awarded. *)
Theorem ordago_ends_play_and_takes_target :
  (∀ fuel play (w w1 : World G) result,
     run_detailed_betting_round fuel play w = (Ok result, w1) →
     result.2 = Some OrdagoBet ∨ ordago_active w.1 = true →
     ordago_active w1.1 = true) ∧
  (∀ fuel play rest (w w1 : World G) result,
     run_detailed_betting_round fuel play w = (Ok result, w1) →
     ordago_active w1.1 = true →
     play_loop fuel (play :: rest) w
     = (Ok tt, (with_play_results (<[play := result]> (play_results w1.1)) w1.1, w1.2))) ∧
  (∀ (s : MusGame) (g : G) m,
     ordago_active s = true → mano s = Some m → m < num_players s →
     (∀ p, p < num_players s → is_Some (hands s !! p)) →
     (∃ s', score_round (s, g) = (Ok tt, (s', g)) ∧
            play_results s' = play_results s ∧ hands s' = hands s ∧
            scores s' = ordago_scores s (team0_order_total s m) (team1_order_total s m)) ∧
     (∀ fuel, ∃ result s' g',
        start_play_phase (S (S fuel)) (s, g) = (Ok tt, (s', g')) ∧
        play_results s' = {[ "grande" := result ]} ∧ hands s' = hands s ∧
        scores s' = ordago_scores s (team0_order_total s m) (team1_order_total s m)) ∧
     ((team0_order_total s m > team1_order_total s m)%Z →
        ordago_scores s (team0_order_total s m) (team1_order_total s m)
        = ((scores s).1 + target_score s, (scores s).2)%Z) ∧
     ((team1_order_total s m > team0_order_total s m)%Z →
        ordago_scores s (team0_order_total s m) (team1_order_total s m)
        = ((scores s).1, (scores s).2 + target_score s)%Z) ∧
     (team0_order_total s m = team1_order_total s m →
        ordago_scores s (team0_order_total s m) (team1_order_total s m) = scores s)).
Proof.
  split; [|split].
  - intros fuel play w w1 result. apply run_detailed_betting_round_flag.
  - intros fuel play rest w w1 result Hrun Hflag. cbn [play_loop].
    rewrite (run_bind_Ok _ _ _ _ _ Hrun).
    rewrite run_bind_modify_self, run_bind_get_self. game_simpl. by rewrite Hflag.
  - intros s g m Hflag Hm Hlt Hhands. split; [|split; [|split; [|split]]].
    + eexists. split; [exact (score_round_ordago_run s g m Hflag Hm Hlt Hhands)|]. done.
    + intros fuel. by apply start_play_phase_ordago_run.
    + intros Hgt. unfold ordago_scores. by rewrite (proj2 (Z.gtb_gt _ _)) by lia.
    + intros Hgt. unfold ordago_scores. rewrite (proj2 (Z.gtb_gt _ _) Hgt).
      destruct (Z.gtb_spec (team0_order_total s m) (team1_order_total s m)); [lia|done].
    + intros ->. unfold ordago_scores.
      destruct (Z.gtb_spec (team1_order_total s m) (team1_order_total s m)); [lia|done].
Qed.

End Ordago.

(** The play phase of [ordago_game] stops after grande and team 0 takes the
    40 points; [tied_game] keeps its scores. *)
Lemma ordago_ends_play_and_takes_target_witness :
  play_loop 2 ["grande"; "chica"; "pares"; "juego"] ordago_game
  = (Ok tt,
     (with_play_results
        (<["grande" := (Some 1, Some (Amount 1))]>
           (play_results (run_detailed_betting_round 2 "grande" ordago_game).2.1))
        (run_detailed_betting_round 2 "grande" ordago_game).2.1,
      (run_detailed_betting_round 2 "grande" ordago_game).2.2)) ∧
  (∃ result s' g', start_play_phase 2 ordago_game = (Ok tt, (s', g')) ∧
                   play_results s' = {[ "grande" := result ]} ∧ scores s' = (40, 0)%Z) ∧
  (∃ s', score_round (tied_game, 0) = (Ok tt, (s', 0)) ∧ scores s' = (3, 5)%Z).
Proof.
  destruct (ordago_ends_play_and_takes_target (G:=nat)) as (_ & Hstop & Hscore).
  assert (∀ p, p < 4 → is_Some (hands ordago_game.1 !! p)) as Hdealt.
  { intros p Hp. do 4 (destruct p as [|p]; [by vm_compute; eexists|]). lia. }
  assert (∀ p, p < 2 → is_Some (hands tied_game !! p)) as Htied.
  { intros p Hp. do 2 (destruct p as [|p]; [by vm_compute; eexists|]). lia. }
  split; [|split].
  - apply (Hstop 2 "grande" ["chica"; "pares"; "juego"] ordago_game
             (run_detailed_betting_round 2 "grande" ordago_game).2
             (Some 1, Some (Amount 1))); by vm_compute.
  - destruct (Hscore ordago_game.1 ordago_game.2 1 eq_refl eq_refl ltac:(cbn; lia) Hdealt)
      as (_ & Hplay & Hwin & _).
    destruct (Hplay 0) as (result & s' & g' & Hrun & Hres & _ & Hsc).
    exists result, s', g'. split; [exact Hrun|]. split; [exact Hres|].
    rewrite Hsc, Hwin; by vm_compute.
  - destruct (Hscore tied_game 0 1 eq_refl eq_refl ltac:(cbn; lia) Htied)
      as ((s' & Hrun & _ & _ & Hsc) & _ & _ & _ & Htie).
    exists s'. split; [exact Hrun|]. rewrite Hsc, Htie; by vm_compute.
Defined.

(** ** The deck beyond the claims: slices and repeated deals *)

Lemma slice_partition {A} (n : Z) (l : list A) : slice_to n l ++ slice_from n l = l.
Proof. unfold slice_to, slice_from. destruct (0 <=? n)%Z; apply take_drop. Qed.

(** X1: for every integer [n], negative included, the cards [deal(n)] returns
    followed by the cards it leaves are the deck as it was, in order; with a
    negative [n] the deck keeps only its last [|n|] cards (all of them when
    it has fewer) and the others are dealt. *)
Theorem deal_splits_the_deck (n : Z) (cards : list Card) :
  (deal n cards).1 ++ (deal n cards).2 = cards ∧
  ((n < 0)%Z → length (deal n cards).2 = Z.to_nat (- n) `min` length cards).
Proof.
  unfold deal. cbn [fst snd]. split; [apply slice_partition|].
  intros Hn. unfold slice_from. destruct (Z.leb_spec 0 n); [lia|].
  rewrite length_drop. lia.
Qed.

(** X2: two deals in a row are one deal of the sum: for non-negative [n] and
    [m], [deal(n)] then [deal(m)] return together what [deal(n + m)] returns,
    and leave the same deck. *)
Theorem deal_twice_is_deal_of_sum (n m : Z) (cards : list Card) :
  (0 ≤ n)%Z → (0 ≤ m)%Z →
  let first := deal n cards in
  let second := deal m first.2 in
  deal (n + m) cards = (first.1 ++ second.1, second.2).
Proof.
  intros Hn Hm. cbv zeta.
  rewrite <- (Z2Nat.id n Hn), <- (Z2Nat.id m Hm), <- Nat2Z.inj_add, !deal_nat.
  cbn [fst snd]. generalize (Z.to_nat n) (Z.to_nat m). clear. intros n m.
  f_equal.
  - by rewrite take_take_drop.
  - by rewrite drop_drop.
Qed.

(** A deal of one card, then of two, from three cards and a spare. *)
Lemma deal_twice_is_deal_of_sum_witness :
  deal (1 + 2) [mkCard King Oros; mkCard Ace Oros; mkCard Two Copas; mkCard Six Bastos]
  = ([mkCard King Oros] ++ [mkCard Ace Oros; mkCard Two Copas], [mkCard Six Bastos]).
Proof.
  apply (deal_twice_is_deal_of_sum 1 2
           [mkCard King Oros; mkCard Ace Oros; mkCard Two Copas; mkCard Six Bastos]); lia.
Defined.

(** ** The evaluators do not depend on the order of the cards in the hand *)

Lemma insert_sorted_Permutation (x : Z) (l : list Z) : insert_sorted x l ≡ₚ x :: l.
Proof.
  induction l as [|y l IH]; simpl; [done|].
  destruct (x <=? y)%Z; [done|]. rewrite IH. apply perm_swap.
Qed.

Lemma sorted_Permutation (l : list Z) : sorted l ≡ₚ l.
Proof.
  unfold sorted. induction l as [|x l IH]; simpl; [done|].
  by rewrite insert_sorted_Permutation, IH.
Qed.

Lemma insert_sorted_Sorted (x : Z) (l : list Z) :
  Sorted Z.le l → Sorted Z.le (insert_sorted x l).
Proof.
  induction l as [|y l IH]; simpl; intros Hs.
  - by repeat constructor.
  - destruct (Z.leb_spec x y).
    + constructor; [done|]. by constructor.
    + apply Sorted_inv in Hs as [Hs Hhd]. constructor; [by apply IH|].
      destruct l as [|z l]; simpl.
      * constructor. lia.
      * apply HdRel_inv in Hhd. destruct (Z.leb_spec x z); constructor; lia.
Qed.

Lemma sorted_Sorted (l : list Z) : Sorted Z.le (sorted l).
Proof.
  unfold sorted. induction l as [|x l IH]; simpl; [constructor|].
  by apply insert_sorted_Sorted.
Qed.

Lemma sorted_of_permutation (l l' : list Z) : l ≡ₚ l' → sorted l = sorted l'.
Proof.
  intros Hp. apply (Sorted_unique Z.le); [apply sorted_Sorted..|].
  by rewrite !sorted_Permutation.
Qed.

(** X3: [evaluate_grande], [evaluate_chica] and [evaluate_juego] give the
    same tuple for two hands that hold the same cards in a different order,
    whatever the size of the hand. *)
Theorem evaluators_ignore_card_order (hand hand' : list Card) :
  hand ≡ₚ hand' →
  evaluate_grande hand = evaluate_grande hand' ∧
  evaluate_chica hand = evaluate_chica hand' ∧
  evaluate_juego hand = evaluate_juego hand'.
Proof.
  intros Hp.
  assert (sorted (order <$> hand) = sorted (order <$> hand')) as Hs.
  { apply sorted_of_permutation. by rewrite Hp. }
  unfold evaluate_grande, evaluate_chica, evaluate_juego, sorted_reverse, hand_total.
  rewrite Hs. split; [done|]. split; [done|].
  by rewrite (sum_permutation (value <$> hand) (value <$> hand')) by (by rewrite Hp).
Qed.

(** A hand and the same hand with its first two cards exchanged. *)
Lemma evaluators_ignore_card_order_witness :
  evaluate_grande [mkCard Ace Oros; mkCard King Copas; mkCard Six Oros]
  = evaluate_grande [mkCard King Copas; mkCard Ace Oros; mkCard Six Oros] ∧
  evaluate_chica [mkCard Ace Oros; mkCard King Copas; mkCard Six Oros]
  = evaluate_chica [mkCard King Copas; mkCard Ace Oros; mkCard Six Oros] ∧
  evaluate_juego [mkCard Ace Oros; mkCard King Copas; mkCard Six Oros]
  = evaluate_juego [mkCard King Copas; mkCard Ace Oros; mkCard Six Oros].
Proof.
  apply (evaluators_ignore_card_order
           [mkCard Ace Oros; mkCard King Copas; mkCard Six Oros]
           [mkCard King Copas; mkCard Ace Oros; mkCard Six Oros]).
  apply perm_swap.
Defined.

Lemma pairs_swap_first (a b c d : Rank) :
  pairs_of_ranks [b; a; c; d] = pairs_of_ranks [a; b; c; d].
Proof.
  revert a b c d.
  apply (bool_decide_unpack _). by vm_compute.
Qed.

Lemma pairs_swap_middle (a b c d : Rank) :
  pairs_of_ranks [a; c; b; d] = pairs_of_ranks [a; b; c; d].
Proof.
  revert a b c d.
  apply (bool_decide_unpack _). by vm_compute.
Qed.

Lemma pairs_swap_last (a b c d : Rank) :
  pairs_of_ranks [a; b; d; c] = pairs_of_ranks [a; b; c; d].
Proof.
  revert a b c d.
  apply (bool_decide_unpack _). by vm_compute.
Qed.

(** Every reordering of four ranks is a sequence of exchanges of neighbours. *)
Lemma pairs_of_ranks_four (ranks ranks' : list Rank) :
  ranks ≡ₚ ranks' → length ranks = 4 → pairs_of_ranks ranks = pairs_of_ranks ranks'.
Proof.
  intros Hp. induction Hp as [l|x y l1 l2|l l' l'' Hp1 IH1 Hp2 IH2]
    using Permutation_ind_transp; intros Hlen.
  - done.
  - destruct l1 as [|a [|b [|? ?]]]; cbn [app length] in *.
    + destruct l2 as [|c [|d [|? ?]]]; try discriminate Hlen. apply pairs_swap_first.
    + destruct l2 as [|d [|? ?]]; try discriminate Hlen. apply pairs_swap_middle.
    + destruct l2 as [|? ?]; try discriminate Hlen. apply pairs_swap_last.
    + rewrite length_app in Hlen. cbn [length] in Hlen. lia.
  - rewrite IH1 by done. apply IH2. by rewrite <- Hp1.
Qed.

(** X4: on a hand of four cards [evaluate_pairs] gives the same tuple
    whatever the order of the cards, although it reads the ranks in
    first-occurrence order. *)
Theorem evaluate_pairs_ignores_card_order (hand hand' : list Card) :
  length hand = 4 → hand ≡ₚ hand' → evaluate_pairs hand' = evaluate_pairs hand.
Proof.
  intros Hlen Hp. unfold evaluate_pairs. symmetry.
  apply pairs_of_ranks_four; [by rewrite Hp|]. by rewrite length_fmap.
Qed.

(** A pair of kings found at the two ends of the hand or side by side. *)
Lemma evaluate_pairs_ignores_card_order_witness :
  evaluate_pairs [mkCard King Oros; mkCard King Copas; mkCard Six Oros; mkCard Ace Oros]
  = evaluate_pairs [mkCard King Copas; mkCard King Oros; mkCard Six Oros; mkCard Ace Oros].
Proof.
  apply (evaluate_pairs_ignores_card_order
           [mkCard King Copas; mkCard King Oros; mkCard Six Oros; mkCard Ace Oros]
           [mkCard King Oros; mkCard King Copas; mkCard Six Oros; mkCard Ace Oros]).
  - reflexivity.
  - apply perm_swap.
Defined.

(** ** evaluate_juego on hands of four cards *)

Lemma juego_in_table_four (r1 r2 r3 r4 : Rank) : juego_in_table [r1; r2; r3; r4].
Proof.
  revert r1 r2 r3 r4.
  apply (bool_decide_unpack _). by vm_compute.
Qed.

Lemma hand_total_ranks (hand : list Card) : hand_total hand = ranks_total (rank <$> hand).
Proof.
  unfold hand_total, ranks_total. by rewrite <- list_fmap_compose.
Qed.

(** X5: on a hand of four cards the total is between 4 and 40, and a total
    of 31 or more is always a key of [juego_ranking]: the default [0] of
    [juego_ranking.get(total, 0)] is never used, so the tuple is [(0, total)]
    with [total <= 30] or [(1, r)] with [1 <= r <= 8]. *)
Theorem evaluate_juego_on_four_cards (hand : list Card) :
  length hand = 4 →
  (4 ≤ hand_total hand ≤ 40)%Z ∧
  ((hand_total hand ≤ 30)%Z ∧ evaluate_juego hand = [0; hand_total hand]%Z ∨
   ∃ r, dict_get (hand_total hand) juego_ranking = Some r ∧ (1 ≤ r ≤ 8)%Z ∧
        evaluate_juego hand = [1; r]%Z).
Proof.
  intros Hlen.
  destruct hand as [|c1 [|c2 [|c3 [|c4 [|? ?]]]]]; try discriminate Hlen.
  pose proof (juego_in_table_four (rank c1) (rank c2) (rank c3) (rank c4)) as [Hrange Htable].
  change [rank c1; rank c2; rank c3; rank c4] with (rank <$> [c1; c2; c3; c4]) in *.
  rewrite <- hand_total_ranks in *. split; [done|].
  unfold evaluate_juego. destruct (Z.leb_spec 31 (hand_total [c1; c2; c3; c4])) as [Hj|Hn].
  - right. specialize (Htable Hj).
    destruct (dict_get (hand_total [c1; c2; c3; c4]) juego_ranking) as [r|]; [|done].
    by exists r.
  - left. split; [lia|done].
Qed.

(** Three kings and a seven make 37, the fifth best juego. *)
Lemma evaluate_juego_on_four_cards_witness :
  (4 ≤ hand_total [mkCard King Oros; mkCard King Copas; mkCard King Bastos; mkCard Seven Oros]
     ≤ 40)%Z.
Proof.
  apply (evaluate_juego_on_four_cards
           [mkCard King Oros; mkCard King Copas; mkCard King Bastos; mkCard Seven Oros]).
  reflexivity.
Defined.

(** ** BettingRound: a new round, and the rounds reached from it *)

Lemma init_round_keys (players : list nat) (play : string) (bet : Z) :
  ∃ ks, bets (BettingRound_init players play bet) = (λ k, (k, None)) <$> ks ∧
        active (BettingRound_init players play bet) = (λ k, (k, true)) <$> ks ∧
        NoDup ks ∧ (∀ k, k ∈ ks ↔ k ∈ players).
Proof.
  destruct (dict_from_keys_spec (None : option BetValue) players) as (kb & Hb & Hndb & Hinb & Hkb).
  destruct (dict_from_keys_spec true players) as (ka & Ha & Hnda & Hina & Hka).
  assert (kb = ka) as -> by congruence. by exists ka.
Qed.

Lemma fmap_pair_keys {V} (v : V) (ks : list nat) : ((λ k, (k, v)) <$> ks).*1 = ks.
Proof. rewrite <- list_fmap_compose. apply list_fmap_id. Qed.

Lemma filter_fmap_const_true (ks : list nat) :
  filter (λ pa : nat * bool, pa.2 = true) ((λ k, (k, true)) <$> ks) = (λ k, (k, true)) <$> ks.
Proof.
  induction ks as [|k ks IH]; [done|]. rewrite fmap_cons, filter_cons_True by done.
  by rewrite IH.
Qed.

Lemma dict_get_fmap_const_Some {V} (v : V) (ks : list nat) (k : nat) :
  k ∈ ks → dict_get k ((λ k, (k, v)) <$> ks) = Some v.
Proof.
  induction ks as [|k' ks IH]; intros Hin; [by apply elem_of_nil in Hin|].
  simpl. destruct (decide (k = k')); [done|]. apply IH.
  apply elem_of_cons in Hin as [?|?]; done.
Qed.

Lemma list_find_fmap_const_None (ks : list nat) :
  list_find (λ pb : nat * option BetValue, pb.2 = Some OrdagoBet)
            ((λ k, (k, None)) <$> ks) = None.
Proof.
  apply list_find_None, Forall_forall. intros [q b] Hin.
  apply list_elem_of_fmap in Hin as (k & [= -> ->] & _). done.
Qed.

Lemma omap_valid_bet_none (ks : list nat) : omap valid_bet ((λ k, (k, None)) <$> ks) = [].
Proof. induction ks as [|k ks IH]; [done|]. simpl. apply IH. Qed.

(** X6: a round just created is complete exactly when it has at most one
    distinct player, and names no winner: with two players or more nothing is
    complete before somebody acts, with one player or none the betting is
    over before it starts and [get_winner] returns [(None, None)]. *)
Theorem new_round_complete_iff_no_opponent (players : list nat) (play : string) (bet : Z) :
  is_round_complete (BettingRound_init players play bet)
  = Ok (bool_decide (length (remove_dups players) ≤ 1)) ∧
  get_winner (BettingRound_init players play bet) = (None, None).
Proof.
  destruct (init_round_keys players play bet) as (ks & Hb & Ha & Hnd & Hin).
  assert (length ks = length (remove_dups players)) as Hlen.
  { apply Permutation_length, NoDup_Permutation; [done|apply NoDup_remove_dups|].
    intros k. by rewrite Hin, elem_of_remove_dups. }
  split.
  - unfold is_round_complete, active_players. rewrite Ha, Hb, filter_fmap_const_true.
    rewrite fmap_pair_keys, Hlen.
    case_decide as Hle; [by rewrite bool_decide_eq_true_2|].
    rewrite bool_decide_eq_false_2 by done.
    rewrite (mapM_Some_2 _ _ ((λ _, None) <$> ks)).
    + assert (numeric_bets ((λ _ : nat, None) <$> ks) = []) as ->.
      { clear. induction ks as [|k ks IH]; [done|]. apply IH. }
      rewrite bool_decide_eq_false_2; [done|]. by intros [? _].
    + apply Forall2_fmap_r, Forall_Forall2_diag, Forall_forall. intros p Hp.
      unfold compose. cbv beta. by apply dict_get_fmap_const_Some.
  - unfold get_winner. by rewrite Hb, list_find_fmap_const_None, omap_valid_bet_none.
Qed.

Lemma omap_valid_bet_all_none (d : pydict nat (option BetValue)) :
  (∀ q b, (q, b) ∈ d → b = None) → omap valid_bet d = [].
Proof.
  induction d as [|[q b] d IH]; intros Hnone; [done|]. simpl.
  rewrite (Hnone q b) by left. simpl. apply IH.
  intros q' b' Hq. apply (Hnone q'). by right.
Qed.

Lemma omap_valid_bet_first (player : nat) (x : Z) (d : pydict nat (option BetValue)) :
  (∀ q b, (q, b) ∈ d → b = None) → player ∈ d.*1 →
  omap valid_bet (dict_set player (Some (Amount x)) d) = [(player, x)].
Proof.
  induction d as [|[k v] d IH]; intros Hnone Hin; [by apply elem_of_nil in Hin|].
  assert (omap valid_bet d = []) as Hd.
  { apply omap_valid_bet_all_none. intros q b Hq. apply (Hnone q). by right. }
  simpl. destruct (decide (player = k)) as [->|Hne].
  - change (omap valid_bet ((k, Some (Amount x)) :: d))
      with ((k, x) :: omap valid_bet d). by rewrite Hd.
  - rewrite (Hnone k v) by left.
    change (omap valid_bet ((k, None) :: dict_set player (Some (Amount x)) d))
      with (omap valid_bet (dict_set player (Some (Amount x)) d)). apply IH.
    + intros q b Hq. apply (Hnone q). by right.
    + simpl in Hin. apply elem_of_cons in Hin as [?|?]; done.
Qed.

Lemma betting_actions_record (player : nat) (action : string) (amount : Z) (br : BettingRound) :
  dict_get player (active br) = Some true →
  action ∈ ["bet"; "raise"; "call"] →
  ∃ br' x, player_action player action amount br = Ok br' ∧ active br' = active br ∧
           bets br' = dict_set player (Some (Amount x)) (bets br) ∧ current_bet br' = x.
Proof.
  intros Ha Hact. unfold player_action. rewrite Ha.
  repeat (apply elem_of_cons in Hact as [->|Hact]); [| | |by apply elem_of_nil in Hact].
  - simpl. destruct (current_bet br =? 0)%Z; by eexists _, _.
  - simpl. by eexists _, _.
  - simpl. by eexists _, _.
Qed.

(** X7: in a round just created, the first bet, raise or call of any of its
    players completes the round, however many players have not acted yet,
    and [get_winner] then names that player with the current bet. *)
Theorem first_bet_ends_new_round (players : list nat) (play : string) (bet : Z)
    (player : nat) (action : string) (amount : Z) :
  player ∈ players → action ∈ ["bet"; "raise"; "call"] →
  ∃ br', player_action player action amount (BettingRound_init players play bet) = Ok br' ∧
         is_round_complete br' = Ok true ∧
         get_winner br' = (Some player, Some (Amount (current_bet br'))).
Proof.
  intros Hp Hact.
  pose proof (init_round_in_pass players play bet) as Hinv.
  set (br := BettingRound_init players play bet) in *.
  assert (dict_get player (active br) = Some true) as Ha.
  { destruct (init_round_keys players play bet) as (ks & _ & Hactive & _ & Hin).
    subst br. rewrite Hactive. apply dict_get_fmap_const_Some. by apply Hin. }
  destruct (betting_actions_record player action amount br Ha Hact)
    as (br' & x & Hrun & Hactive & Hbets & Hcur).
  exists br'. split; [done|].
  destruct (bet_recorded_completes players br br' player x Hinv Ha Hactive Hbets)
    as (Hc & Hnd & Hno).
  split; [done|]. unfold get_winner.
  assert (list_find (λ pb : nat * option BetValue, pb.2 = Some OrdagoBet) (bets br') = None)
    as ->.
  { apply list_find_None, Forall_forall. intros [q b] Hin Hb. simpl in Hb. subst b.
    apply (Hno q (Some OrdagoBet)); [|done]. by apply dict_get_elem_NoDup. }
  rewrite Hbets, omap_valid_bet_first; [by rewrite Hcur| |].
  - intros q b Hq. apply (rip_no_bets _ _ Hinv q).
    apply dict_get_elem_NoDup; [|done]. rewrite (rip_keys _ _ Hinv). apply Hinv.
  - rewrite (rip_keys _ _ Hinv). by apply (rip_rest _ _ Hinv).
Qed.

(** Four players; the third is the first to act, and calls. *)
Lemma first_bet_ends_new_round_witness :
  ∃ br', player_action 2 "call" 0 (BettingRound_init [0; 1; 2; 3] "grande" 1) = Ok br' ∧
         is_round_complete br' = Ok true ∧
         get_winner br' = (Some 2, Some (Amount (current_bet br'))).
Proof.
  apply (first_bet_ends_new_round [0; 1; 2; 3] "grande" 1 2 "call" 0).
  - vm_compute. set_solver.
  - set_solver.
Defined.

(** What a call leaves of a round: nothing changed, a bet recorded at the
    current bet (which a raise has moved first), a player out, or an all-in
    recorded. *)
Lemma after_action_cases (br : BettingRound) (call : nat * string * Z) :
  (call.1.2 = "raise" → (0 ≤ call.2)%Z) →
  let br' := after_action br call in
  br' = br ∨
  (call.1.1 ∈ (active br).*1 ∧ active br' = active br ∧
   (current_bet br ≤ current_bet br')%Z ∧
   bets br' = dict_set call.1.1 (Some (Amount (current_bet br'))) (bets br)) ∨
  (call.1.1 ∈ (active br).*1 ∧ active br' = dict_set call.1.1 false (active br) ∧
   current_bet br' = current_bet br ∧ bets br' = bets br) ∨
  (call.1.1 ∈ (active br).*1 ∧ active br' = active br ∧ current_bet br' = current_bet br ∧
   bets br' = dict_set call.1.1 (Some OrdagoBet) (bets br)).
Proof.
  destruct call as [[player action] amount]. cbn [fst snd]. intros Hraise. cbv zeta.
  unfold after_action, player_action. cbn [fst snd].
  destruct (dict_get player (active br)) as [[|]|] eqn:Ha; [|by left..].
  assert (player ∈ (active br).*1) as Hkey.
  { apply list_elem_of_fmap. exists (player, true). split; [done|]. by apply dict_get_Some_elem. }
  destruct (action =? "bet")%string eqn:Hbet.
  { right; left. destruct (Z.eqb_spec (current_bet br) 0) as [H0|H0]; cbn; [|done].
    split; [done|]. split; [done|]. split; [lia|done]. }
  destruct (action =? "raise")%string eqn:Hr.
  { right; left. apply String.eqb_eq in Hr. specialize (Hraise Hr). cbn.
    split; [done|]. split; [done|]. split; [lia|done]. }
  destruct (action =? "call")%string.
  { right; left. cbn. split; [done|]. split; [done|]. split; [lia|done]. }
  destruct (action =? "pass")%string.
  { right; right; left. by cbn. }
  destruct (action =? "ordago")%string.
  { right; right; right. by cbn. }
  by left.
Qed.

Lemma after_action_keys (br : BettingRound) (call : nat * string * Z) :
  (bets br).*1 = (active br).*1 →
  (bets (after_action br call)).*1 = (bets br).*1 ∧
  (active (after_action br call)).*1 = (active br).*1.
Proof.
  intros Hkeys.
  destruct (after_action_cases br (call.1, 0%Z)) as [Hsame|[Hc|[Hc|Hc]]]; [done|..].
  all: assert (∀ br1 br2, bets br1 = bets br2 ∧ active br1 = active br2 →
                 (bets br1).*1 = (bets br2).*1 ∧ (active br1).*1 = (active br2).*1) as Heq
         by (by intros ?? [-> ->]).
  all: unfold after_action in *; unfold player_action in *; cbn [fst snd] in *.
  all: destruct (dict_get call.1.1 (active br)) as [[|]|] eqn:Ha; [|done..].
  all: assert (call.1.1 ∈ (active br).*1) as Hkey
         by (apply list_elem_of_fmap; exists (call.1.1, true); split; [done|];
             by apply dict_get_Some_elem).
  all: repeat (match goal with |- context [if ?b then _ else _] => destruct b end);
       cbn; rewrite ?dict_set_keys by (by rewrite ?Hkeys); done.
Qed.

Lemma after_actions_keys (calls : list (nat * string * Z)) (br : BettingRound) :
  (bets br).*1 = (active br).*1 →
  (bets (after_actions calls br)).*1 = (bets br).*1 ∧
  (active (after_actions calls br)).*1 = (active br).*1.
Proof.
  unfold after_actions. revert br. induction calls as [|call calls IH]; intros br Hkeys; [done|].
  simpl. destruct (after_action_keys br call Hkeys) as [Hb Ha].
  destruct (IH (after_action br call)) as [Hb' Ha']; [congruence|].
  split; congruence.
Qed.

(** X8: in every round reached from a new one by any calls of
    [player_action], made by members of the round or not, the dictionaries
    [bets] and [active] keep exactly the players they were created with, in
    the same order; [is_round_complete] therefore never raises, and a winner
    named by [get_winner] is one of the players of the round. *)
Theorem round_keeps_its_players (players : list nat) (play : string) (bet : Z)
    (calls : list (nat * string * Z)) :
  let br0 := BettingRound_init players play bet in
  let br := after_actions calls br0 in
  (bets br).*1 = (bets br0).*1 ∧ (active br).*1 = (bets br0).*1 ∧
  (∃ complete, is_round_complete br = Ok complete) ∧
  (∀ winner final_bet, get_winner br = (Some winner, final_bet) → winner ∈ players).
Proof.
  cbv zeta. set (br0 := BettingRound_init players play bet).
  destruct (init_round_keys players play bet) as (ks & Hb & Ha & Hnd & Hin).
  fold br0 in Hb, Ha.
  assert ((bets br0).*1 = (active br0).*1) as Hkeys0
    by (by rewrite Hb, Ha, !fmap_pair_keys).
  destruct (after_actions_keys calls br0 Hkeys0) as [Hkb Hka].
  split; [done|]. split; [congruence|]. split.
  - apply is_round_complete_defined. congruence.
  - intros winner final_bet Hw.
    assert (winner ∈ (bets (after_actions calls br0)).*1) as Hkey.
    { unfold get_winner in Hw.
      destruct (list_find _ _) as [[i [q b]]|] eqn:Hf.
      - injection Hw as <- _. apply list_find_Some in Hf as (Hi & _).
        apply list_elem_of_fmap. exists (q, b). split; [done|].
        by apply list_elem_of_lookup_2 in Hi.
      - destruct (py_max_by _ _) as [[w z]|] eqn:Hmax; [|done]. injection Hw as <- _.
        apply py_max_by_first_greatest in Hmax as (pre & post & Heq & _).
        apply omap_eq_app_cons in Heq as (pre' & x & post' & Hbets & Hx & _).
        apply valid_bet_Some in Hx as ->. rewrite Hbets.
        rewrite fmap_app, fmap_cons. apply elem_of_app. right. by left. }
    apply Hin. by rewrite Hkb, Hb, fmap_pair_keys in Hkey.
Qed.

Lemma dict_get_set_cases {K V} `{EqDecision K} (k k' : K) (v v' : V) (d : pydict K V) :
  dict_get k' (dict_set k v d) = Some v' →
  (k' = k ∧ v' = v) ∨ (k' ≠ k ∧ dict_get k' d = Some v').
Proof.
  destruct (decide (k = k')) as [->|Hne].
  - rewrite dict_get_set_eq. intros [= ->]. by left.
  - rewrite dict_get_set_ne by done. right. split; [congruence|done].
Qed.

Lemma after_action_stake_matched (br : BettingRound) (call : nat * string * Z) :
  (call.1.2 = "raise" → (0 ≤ call.2)%Z) →
  stake_matched br → stake_matched (after_action br call).
Proof.
  intros Hraise [Hle Hex].
  destruct (after_action_cases br call Hraise) as [->|[Hc|[Hc|Hc]]]; [done|..].
  - destruct Hc as (Hkey & Hact & Hcur & Hbets). split.
    + intros p z. rewrite Hbets. intros [[_ Hz]|[_ Hp]]%dict_get_set_cases.
      * injection Hz as ->. lia.
      * specialize (Hle p z Hp). lia.
    + intros _ _ _ _. exists call.1.1. rewrite Hbets. apply dict_get_set_eq.
  - destruct Hc as (Hkey & Hact & Hcur & Hbets). split.
    + intros p z. rewrite Hbets, Hcur. apply Hle.
    + rewrite Hbets, Hcur. apply Hex.
  - destruct Hc as (Hkey & Hact & Hcur & Hbets). split.
    + intros p z. rewrite Hbets, Hcur. intros [[_ Hz]|[_ Hp]]%dict_get_set_cases; [done|].
      by apply (Hle p).
    + intros Hno. exfalso. apply (Hno call.1.1). rewrite Hbets. apply dict_get_set_eq.
Qed.

(** X9: in every round reached from a new one by calls of [player_action]
    whose raises are not negative, a winner that [get_winner] names with an
    integer stake has that very stake recorded as bet: the stake is the
    current bet, no recorded bet is above it, and the winner has matched
    it. *)
Theorem winner_has_matched_the_stake (players : list nat) (play : string) (bet : Z)
    (calls : list (nat * string * Z)) (winner : nat) (stake : Z) :
  Forall (λ call : nat * string * Z, call.1.2 = "raise" → (0 ≤ call.2)%Z) calls →
  let br := after_actions calls (BettingRound_init players play bet) in
  get_winner br = (Some winner, Some (Amount stake)) →
  stake = current_bet br ∧
  dict_get winner (bets br) = Some (Some (Amount stake)) ∧
  (∀ p z, dict_get p (bets br) = Some (Some (Amount z)) → (z ≤ stake)%Z).
Proof.
  intros Hcalls. cbv zeta. set (br0 := BettingRound_init players play bet).
  destruct (init_round_keys players play bet) as (ks & Hb & Ha & Hnd & Hin).
  fold br0 in Hb, Ha.
  assert ((bets br0).*1 = (active br0).*1) as Hkeys0
    by (by rewrite Hb, Ha, !fmap_pair_keys).
  destruct (after_actions_keys calls br0 Hkeys0) as [Hkb _].
  assert (NoDup (bets (after_actions calls br0)).*1) as Hnodup
    by (by rewrite Hkb, Hb, fmap_pair_keys).
  assert (stake_matched (after_actions calls br0)) as [Hle Hex].
  { assert (stake_matched br0) as H0.
    { split.
      - intros p z. rewrite Hb. by intros [? _]%dict_get_fmap_const.
      - intros _ p z. rewrite Hb. by intros [? _]%dict_get_fmap_const. }
    unfold after_actions. clear -Hcalls H0. revert H0. generalize br0.
    induction Hcalls as [|call calls Hcall _ IH]; intros br H0; [done|].
    simpl. apply IH. by apply after_action_stake_matched. }
  set (br := after_actions calls br0) in *. intros Hw. unfold get_winner in Hw.
  destruct (list_find _ (bets br)) as [[i [q b]]|] eqn:Hf.
  { apply list_find_Some in Hf as (_ & Hbq & _). simpl in Hbq. subst b. by injection Hw. }
  apply list_find_None in Hf. rewrite Forall_forall in Hf.
  destruct (py_max_by _ _) as [[w z]|] eqn:Hmax; [|done].
  injection Hw as -> <-.
  apply py_max_by_first_greatest in Hmax as (pre & post & Heq & Hpre & Hpost).
  assert ((winner, z) ∈ omap valid_bet (bets br)) as Hwin.
  { rewrite Heq. apply elem_of_app. right. by left. }
  apply list_elem_of_omap in Hwin as (pb & Hpb & Hv). apply valid_bet_Some in Hv as ->.
  apply dict_get_elem_NoDup in Hpb; [|done].
  assert (z = current_bet br) as Hz.
  { destruct (Hex (λ p Hp, Hf (p, Some OrdagoBet) (dict_get_Some_elem _ _ _ Hp) eq_refl)
                winner z Hpb) as [q Hq].
    pose proof (Hle winner z Hpb) as Hub.
    assert ((q, current_bet br) ∈ omap valid_bet (bets br)) as Hqin.
    { apply list_elem_of_omap. exists (q, Some (Amount (current_bet br))).
      split; [by apply dict_get_Some_elem|by apply valid_bet_Some]. }
    rewrite Heq in Hqin. apply elem_of_app in Hqin as [Hqin|Hqin].
    - specialize (Hpre _ Hqin). simpl in Hpre. lia.
    - apply elem_of_cons in Hqin as [[= _ ->]|Hqin]; [done|].
      specialize (Hpost _ Hqin). simpl in Hpost. lia. }
  split; [done|]. split; [by rewrite <- Hz|]. exact Hle.
Qed.

(** Player 0 bets, player 1 raises by two, player 0 calls: both have 3. *)
Lemma winner_has_matched_the_stake_witness :
  3%Z = current_bet (after_actions [(0, "bet", 0%Z); (1, "raise", 2%Z); (0, "call", 0%Z)]
                       (BettingRound_init [0; 1] "grande" 1)) ∧
  dict_get 0 (bets (after_actions [(0, "bet", 0%Z); (1, "raise", 2%Z); (0, "call", 0%Z)]
                      (BettingRound_init [0; 1] "grande" 1))) = Some (Some (Amount 3)) ∧
  (∀ p z, dict_get p (bets (after_actions [(0, "bet", 0%Z); (1, "raise", 2%Z); (0, "call", 0%Z)]
                              (BettingRound_init [0; 1] "grande" 1)))
          = Some (Some (Amount z)) → (z ≤ 3)%Z).
Proof.
  apply (winner_has_matched_the_stake [0; 1] "grande" 1
           [(0, "bet", 0%Z); (1, "raise", 2%Z); (0, "call", 0%Z)] 0 3).
  - repeat constructor; cbn; intros; lia.
  - reflexivity.
Defined.

(** ** Mano and the turn order *)

Lemma order_range (c : Card) : (2 ≤ order c ≤ 9)%Z.
Proof. unfold order. destruct (rank c); simpl; lia. Qed.

Lemma game_eta (s : MusGame) :
  mkMusGame (num_players s) (target_score s) (deck s) (hands s) (discard_pile s)
    (current_phase s) (scores s) (mano s) (turn_order s) (current_turn_index s)
    (play_categories s) (play_results s) (ordago_active s) (ordago_player s)
    (covert_signals s) (intercepted_signals s) (signal_intercept_chance s)
    (hands_revealed s) = s.
Proof. by destruct s. Qed.

Lemma turn_order_rotation (m n : nat) :
  (λ i, (m + i) mod n) <$> range n = rotate m (range n).
Proof.
  destruct n as [|n]; [unfold range, rotate; simpl; by rewrite drop_nil, take_nil|].
  unfold range. apply list_eq. intros i.
  destruct (decide (i < S n)) as [Hi|Hi].
  - rewrite list_lookup_fmap, lookup_seq_lt by done.
    rewrite lookup_rotate_r by (by rewrite length_seq). rewrite length_seq.
    unfold rotate_nat_add.
    rewrite lookup_seq_lt.
    + simpl. f_equal. rewrite <- Nat2Z.inj_add, <- Nat2Z.inj_mod. by rewrite Nat2Z.id.
    + rewrite <- Nat2Z.inj_add, <- Nat2Z.inj_mod, Nat2Z.id. apply Nat.mod_upper_bound. lia.
  - rewrite !lookup_ge_None_2; [done| |].
    + rewrite length_rotate, length_seq. lia.
    + rewrite length_fmap, length_seq. lia.
Qed.

Section Turns.
Context {G : Type} `{RandomSource G} `{SetOrder G}.

Lemma set_turn_order_run (s : MusGame) (g : G) (m : nat) :
  mano s = Some m → 0 < num_players s →
  set_turn_order (s, g)
  = (Ok tt, (with_current_turn_index 0
               (with_turn_order (rotate m (range (num_players s))) s), g)).
Proof.
  intros Hm Hn. unfold set_turn_order. rewrite run_bind_get_self. cbn [fst].
  rewrite Hm. destruct (num_players s) as [|n] eqn:Hnum; [lia|].
  rewrite run_bind_ret, run_bind_modify_self. cbn [fst snd].
  by rewrite turn_order_rotation.
Qed.

(** X10: with a mano [m] and at least one player, [set_turn_order] makes the
    turn order the players [0 .. n-1] rotated to start at [m % n]: every
    player is in it exactly once, the turn index is back at [0], and
    [current_player] is the mano (reduced modulo [n]). *)
Theorem turn_order_starts_at_mano (w : World G) (m : nat) :
  mano w.1 = Some m → 0 < num_players w.1 →
  ∃ w', set_turn_order w = (Ok tt, w') ∧
        turn_order w'.1 = rotate m (range (num_players w.1)) ∧
        turn_order w'.1 ≡ₚ range (num_players w.1) ∧
        current_turn_index w'.1 = 0 ∧
        current_player w' = (Ok (m mod num_players w.1), w').
Proof.
  intros Hm Hn. destruct w as [s g]. cbn [fst] in *.
  unfold set_turn_order. rewrite run_bind_get_self. cbn [fst].
  rewrite Hm. destruct (num_players s) as [|n] eqn:Hnum; [lia|].
  rewrite run_bind_ret, run_bind_modify_self. eexists. split; [reflexivity|].
  game_simpl. rewrite turn_order_rotation. split; [done|].
  split; [unfold rotate; rewrite Permutation_app_comm; by rewrite take_drop|].
  split; [done|].
  unfold current_player. rewrite run_bind_get_self. game_simpl.
  rewrite lookup_rotate_r by (unfold range; rewrite length_seq; lia).
  unfold range, rotate_nat_add. rewrite length_seq.
  change (Z.of_nat 0) with 0%Z. rewrite Z.add_0_r.
  rewrite <- Nat2Z.inj_mod, Nat2Z.id.
  rewrite lookup_seq_lt by (apply Nat.mod_upper_bound; lia). done.
Qed.

Lemma advance_turn_iterated (s : MusGame) (g : G) (k a i : nat) :
  i < length (turn_order s) →
  for_each (seq a k) (λ _, advance_turn) (with_current_turn_index i s, g)
  = (Ok tt, (with_current_turn_index ((i + k) mod length (turn_order s)) s, g)).
Proof.
  revert a i. induction k as [|k IH]; intros a i Hi.
  - by rewrite Nat.add_0_r, Nat.mod_small.
  - cbn [seq for_each].
    assert (advance_turn (with_current_turn_index i s, g)
            = (Ok tt, (with_current_turn_index ((i + 1) mod length (turn_order s)) s, g)))
      as Hstep.
    { unfold advance_turn. rewrite run_bind_get_self. game_simpl.
      by rewrite decide_False by lia. }
    rewrite (run_bind_Ok _ _ _ _ _ Hstep).
    rewrite IH by (apply Nat.mod_upper_bound; lia).
    rewrite Nat.Div0.add_mod_idemp_l. by replace (i + 1 + k) with (i + S k) by lia.
Qed.

(** X11: with the turn index inside a turn order, [k] calls of
    [advance_turn] move it to [(index + k) % len(turn_order)] and change
    nothing else; as many calls as there are players bring the game back to
    where it was. *)
Theorem advance_turn_goes_round (w : World G) (k : nat) :
  current_turn_index w.1 < length (turn_order w.1) →
  for_each (seq 0 k) (λ _, advance_turn) w
  = (Ok tt, (with_current_turn_index
               ((current_turn_index w.1 + k) mod length (turn_order w.1)) w.1, w.2)) ∧
  for_each (seq 0 (length (turn_order w.1))) (λ _, advance_turn) w = (Ok tt, w).
Proof.
  intros Hidx. destruct w as [s g]. cbn [fst snd] in *.
  assert (with_current_turn_index (current_turn_index s) s = s) as Hs.
  { unfold with_current_turn_index. apply game_eta. }
  assert (∀ k, for_each (seq 0 k) (λ _, advance_turn) (s, g)
               = (Ok tt, (with_current_turn_index
                            ((current_turn_index s + k) mod length (turn_order s)) s, g)))
    as Hk.
  { intros k'. rewrite <- Hs at 1. by apply advance_turn_iterated. }
  split; [by apply Hk|]. rewrite Hk.
  rewrite <- Nat.Div0.add_mod_idemp_r, Nat.Div0.mod_same, Nat.add_0_r.
  by rewrite Nat.mod_small, Hs.
Qed.

(** The loop of [determine_mano] over the first cards of the players below
    [k]. *)
Lemma highest_first_card (s : MusGame) (k : nat) :
  0 < k →
  (∀ p, p < k → ∃ c hand, hands s !! p = Some (c :: hand)) →
  ∃ m, m < k ∧
       foldl (λ (acc : Z * option nat) (pc : nat * Card),
                if (order pc.2 >? acc.1)%Z then (order pc.2, Some pc.1) else acc)
             ((-1)%Z, None)
             ((λ p, (p, default (mkCard King Oros) (hands s !! p ≫= head))) <$> seq 0 k)
       = (first_card_order s m, Some m) ∧
       (∀ p, p < k → (first_card_order s p ≤ first_card_order s m)%Z) ∧
       (∀ p, p < m → (first_card_order s p < first_card_order s m)%Z).
Proof.
  intros Hk Hhands. induction k as [|k IH]; [lia|].
  rewrite seq_S, fmap_app, foldl_app. cbn [fmap list_fmap foldl Nat.add fst snd].
  assert (order (default (mkCard King Oros) (hands s !! k ≫= head)) = first_card_order s k)
    as Hord.
  { unfold first_card_order. destruct (Hhands k) as (c & hand & ->); [lia|]. done. }
  rewrite Hord.
  destruct (decide (k = 0)) as [->|Hk0].
  - exists 0. cbn [seq fmap list_fmap foldl fst].
    assert ((first_card_order s 0 >? -1)%Z = true) as ->.
    { apply Z.gtb_lt. rewrite <- Hord. pose proof (order_range
        (default (mkCard King Oros) (hands s !! 0 ≫= head))). lia. }
    split; [lia|]. split; [done|]. split; intros p Hp; [|lia].
    assert (p = 0) as -> by lia. lia.
  - destruct IH as (m & Hm & -> & Hall & Hfirst); [lia|intros p Hp; apply Hhands; lia|].
    cbn [fst]. destruct (Z.gtb_spec (first_card_order s k) (first_card_order s m)) as [Hgt|Hle].
    + exists k. split; [lia|]. split; [done|]. split; intros p Hp.
      * destruct (decide (p = k)) as [->|Hne]; [lia|].
        specialize (Hall p ltac:(lia)). lia.
      * specialize (Hall p Hp). lia.
    + exists m. split; [lia|]. split; [done|]. split; [|done]. intros p Hp.
      destruct (decide (p = k)) as [->|Hne]; [lia|]. apply Hall. lia.
Qed.

Lemma determine_mano_run (w : World G) :
  0 < num_players w.1 →
  (∀ p, p < num_players w.1 → ∃ c hand, hands w.1 !! p = Some (c :: hand)) →
  ∃ m, determine_mano w = (Ok tt, (with_mano (Some m) w.1, w.2)) ∧
       m < num_players w.1 ∧
       (∀ p, p < num_players w.1 → (first_card_order w.1 p ≤ first_card_order w.1 m)%Z) ∧
       (∀ p, p < m → (first_card_order w.1 p < first_card_order w.1 m)%Z).
Proof.
  intros Hn Hhands. destruct w as [s g]. cbn [fst snd] in *.
  destruct (highest_first_card s (num_players s) Hn Hhands) as (m & Hm & Hfold & Hall & Hfirst).
  exists m. split; [|done].
  unfold determine_mano. rewrite run_bind_get_self. cbn [fst].
  erewrite run_bind_Ok; cycle 1.
  { apply (comprehension_Ok (range (num_players s)) _
             (λ p, (p, default (mkCard King Oros) (hands s !! p ≫= head))) (s, g)).
    intros p Hp. apply elem_of_seq in Hp. rewrite run_bind_get_self. cbn [fst].
    destruct (Hhands p) as (c & hand & Hh); [lia|]. rewrite Hh. done. }
  cbv zeta. unfold range. by rewrite Hfold.
Qed.

(** X12: when every player holds at least one card, [determine_mano] makes
    mano the lowest-numbered player among those whose first card has the
    highest order, and changes nothing else: no first card ranks above
    mano's, and the first card of every player numbered below mano ranks
    strictly lower. *)
Theorem mano_has_first_highest_card (w : World G) :
  0 < num_players w.1 →
  (∀ p, p < num_players w.1 → ∃ c hand, hands w.1 !! p = Some (c :: hand)) →
  ∃ m, determine_mano w = (Ok tt, (with_mano (Some m) w.1, w.2)) ∧
       m < num_players w.1 ∧
       (∀ p, p < num_players w.1 → (first_card_order w.1 p ≤ first_card_order w.1 m)%Z) ∧
       (∀ p, p < m → (first_card_order w.1 p < first_card_order w.1 m)%Z).
Proof. apply determine_mano_run. Qed.

End Turns.

(** The dealt game of four whose mano is player 1. *)
Lemma turn_order_starts_at_mano_witness :
  ∃ w', set_turn_order ordago_game = (Ok tt, w') ∧
        turn_order w'.1 = rotate 1 (range (num_players ordago_game.1)) ∧
        turn_order w'.1 ≡ₚ range (num_players ordago_game.1) ∧
        current_turn_index w'.1 = 0 ∧
        current_player w' = (Ok (1 mod num_players ordago_game.1), w').
Proof.
  apply (turn_order_starts_at_mano ordago_game 1).
  - reflexivity.
  - cbn. lia.
Defined.

(** Three turns, then four, in the game of four. *)
Lemma advance_turn_goes_round_witness :
  for_each (seq 0 3) (λ _, advance_turn) ordago_game
  = (Ok tt, (with_current_turn_index
               ((current_turn_index ordago_game.1 + 3) mod length (turn_order ordago_game.1))
               ordago_game.1, ordago_game.2)) ∧
  for_each (seq 0 (length (turn_order ordago_game.1))) (λ _, advance_turn) ordago_game
  = (Ok tt, ordago_game).
Proof.
  apply (advance_turn_goes_round ordago_game 3). cbn. lia.
Defined.

(** In the game of four the first cards are a four, a three, a six and an
    ace: player 1 is mano. *)
Lemma mano_has_first_highest_card_witness :
  ∃ m, determine_mano ordago_game = (Ok tt, (with_mano (Some m) ordago_game.1, ordago_game.2)) ∧
       m < num_players ordago_game.1 ∧
       (∀ p, p < num_players ordago_game.1 →
             (first_card_order ordago_game.1 p ≤ first_card_order ordago_game.1 m)%Z) ∧
       (∀ p, p < m → (first_card_order ordago_game.1 p < first_card_order ordago_game.1 m)%Z).
Proof.
  apply (mano_has_first_highest_card ordago_game).
  - cbn. lia.
  - intros p Hp. change (p < 4) in Hp.
    destruct p as [|[|[|[|p]]]]; [..|lia]; eexists _, _; vm_compute; reflexivity.
Defined.

(** ** Drawing and discarding *)

Section Drawing.
Context {G : Type} `{RandomSource G} `{SetOrder G}.

Lemma draw_from_deck_run (n : nat) (w : World G) :
  ∃ dealt w', draw_from_deck n w = (Ok dealt, w') ∧
    w'.1 = with_discard_pile (discard_pile w'.1) (with_deck (deck w'.1) w.1) ∧
    length dealt = n `min` (length (deck w.1) + length (discard_pile w.1)) ∧
    dealt ++ deck w'.1 ++ discard_pile w'.1 ≡ₚ deck w.1 ++ discard_pile w.1 ∧
    (n ≤ length (deck w.1) →
       dealt = take n (deck w.1) ∧ deck w'.1 = drop n (deck w.1) ∧
       discard_pile w'.1 = discard_pile w.1 ∧ w'.2 = w.2) ∧
    (length (deck w.1) < n → discard_pile w'.1 = []).
Proof.
  destruct w as [s g]. unfold draw_from_deck, bind, get_self, modify_self, random, ret.
  cbn [fst snd]. destruct (decide (length (deck s) < n)) as [Hlt|Hge]; cbn [fst snd].
  - rewrite deal_nat. eexists _, _. split; [reflexivity|]. game_simpl.
    pose proof (rand_shuffle_perm g (deck s ++ discard_pile s)) as Hperm.
    split; [by destruct s|]. split; [|split; [|split; [lia|done]]].
    + rewrite length_take, (Permutation_length Hperm), length_app. done.
    + by rewrite app_nil_r, take_drop.
  - rewrite deal_nat. eexists _, _. split; [reflexivity|]. game_simpl.
    split; [by destruct s|]. split; [|split; [|split; [done|lia]]].
    + rewrite length_take. lia.
    + by rewrite (assoc (++)), take_drop.
Qed.

(** X13: [draw_from_deck(n)] never fails and touches nothing but the deck
    and the discard pile. It returns [n] cards, or all the cards of the deck
    and the discard pile when they hold fewer; the cards returned and the
    cards left are those of the deck and the discard pile before. With [n]
    cards or more in the deck they are its first [n] cards, the discard pile
    is left alone and the generator is not used; otherwise the discard pile
    is emptied into the deck. *)
Theorem draw_from_deck_recycles_when_short (n : nat) (w : World G) :
  ∃ dealt w', draw_from_deck n w = (Ok dealt, w') ∧
    w'.1 = with_discard_pile (discard_pile w'.1) (with_deck (deck w'.1) w.1) ∧
    length dealt = n `min` (length (deck w.1) + length (discard_pile w.1)) ∧
    dealt ++ deck w'.1 ++ discard_pile w'.1 ≡ₚ deck w.1 ++ discard_pile w.1 ∧
    (n ≤ length (deck w.1) →
       dealt = take n (deck w.1) ∧ deck w'.1 = drop n (deck w.1) ∧
       discard_pile w'.1 = discard_pile w.1 ∧ w'.2 = w.2) ∧
    (length (deck w.1) < n → discard_pile w'.1 = []).
Proof. apply draw_from_deck_run. Qed.

Lemma imap_pair_snd (hand : list Card) : (imap (λ idx card, (idx, card)) hand).*2 = hand.
Proof.
  induction hand as [|c hand IH] using rev_ind; [done|].
  by rewrite imap_app, fmap_app, IH.
Qed.

Lemma split_hand_Permutation (cs : list nat) (hand : list Card) :
  kept_cards cs hand ++ discarded_cards cs hand ≡ₚ hand.
Proof.
  unfold kept_cards, discarded_cards.
  rewrite <- (imap_pair_snd hand) at 3.
  generalize (imap (λ idx card, (idx, card)) hand). clear. intros indexed.
  rewrite <- fmap_app. apply fmap_Permutation.
  induction indexed as [|ic l IH]; [done|].
  rewrite !filter_cons. destruct (decide (ic.1 ∈ cs)).
  - rewrite decide_False by tauto.
    rewrite <- Permutation_middle. by constructor.
  - rewrite decide_True by done. simpl. by constructor.
Qed.

Lemma discarded_cards_spec (cs : list nat) (hand : list Card) (c : Card) :
  c ∈ discarded_cards cs hand ↔ ∃ i, i ∈ cs ∧ hand !! i = Some c.
Proof.
  unfold discarded_cards. rewrite list_elem_of_fmap. split.
  - intros ([i c'] & -> & [Hi Hin]%list_elem_of_filter). simpl in *.
    apply list_elem_of_lookup in Hin as [j Hj]. rewrite list_lookup_imap in Hj.
    destruct (hand !! j) as [c0|] eqn:Hc; [|done]. injection Hj as <- <-. by exists j.
  - intros (i & Hi & Hc). exists (i, c). split; [done|].
    apply list_elem_of_filter. split; [done|].
    apply list_elem_of_lookup. exists i. by rewrite list_lookup_imap, Hc.
Qed.

Lemma perform_discard_run (player : nat) (cs : list nat) (w : World G) (hand : list Card) :
  hands w.1 !! player = Some hand →
  ∃ new_cards pre w', perform_discard player cs w = (Ok tt, w') ∧
    w'.1 = with_discard_pile (pre ++ discarded_cards cs hand)
             (with_hands (<[player := kept_cards cs hand ++ new_cards]> (hands w.1))
                (with_deck (deck w'.1) w.1)) ∧
    new_cards ++ deck w'.1 ++ pre ≡ₚ deck w.1 ++ discard_pile w.1 ∧
    length new_cards
    = length (discarded_cards cs hand) `min` (length (deck w.1) + length (discard_pile w.1)) ∧
    (length (discarded_cards cs hand) ≤ length (deck w.1) →
       new_cards = take (length (discarded_cards cs hand)) (deck w.1) ∧
       deck w'.1 = drop (length (discarded_cards cs hand)) (deck w.1) ∧
       pre = discard_pile w.1 ∧ w'.2 = w.2).
Proof.
  intros Hhand. destruct w as [s g]. cbn [fst snd] in *. unfold perform_discard.
  rewrite run_bind_get_self. cbn [fst]. rewrite Hhand, run_bind_or_raise_Some. cbv zeta.
  fold (discarded_cards cs hand). fold (kept_cards cs hand).
  rewrite run_bind_modify_self. cbn [fst snd].
  destruct (draw_from_deck_run (length (discarded_cards cs hand))
              (with_hands (<[player := kept_cards cs hand]> (hands s)) s, g))
    as (new_cards & [s2 g2] & Hdraw & Hframe & Hlen & Hperm & Hlong & Hshort).
  game_simpl.
  rewrite (run_bind_Ok _ _ _ _ _ Hdraw), run_bind_get_self. cbn [fst].
  assert (hands s2 = <[player := kept_cards cs hand]> (hands s)) as Hh by (by rewrite Hframe).
  rewrite Hh, lookup_insert_eq, run_bind_or_raise_Some, run_bind_modify_self.
  exists new_cards, (discard_pile s2). eexists. split; [reflexivity|]. game_simpl.
  split; [|done].
  rewrite Hh, insert_insert_eq. clear Hdraw Hperm Hlong Hshort Hh Hlen.
  remember (deck s2) as d eqn:Hd. remember (discard_pile s2) as dp eqn:Hdp.
  clear Hd Hdp. subst s2. by destruct s.
Qed.

(** X14: a discard by a player who holds a hand never fails. The player
    keeps the cards whose index is not listed, in their order, followed by
    the replacements; the cards whose index is listed go to the end of the
    discard pile, after the draw, so the replacements come from the deck and
    the discard pile as they were before: as many as were discarded, or
    fewer when there are not enough. When the deck is large enough they are
    its first cards and nothing is reshuffled. *)
Theorem discard_replaces_cards (player : nat) (cs : list nat) (w : World G)
    (hand : list Card) :
  hands w.1 !! player = Some hand →
  ∃ new_cards pre w', perform_discard player cs w = (Ok tt, w') ∧
    hands w'.1 = <[player := kept_cards cs hand ++ new_cards]> (hands w.1) ∧
    discard_pile w'.1 = pre ++ discarded_cards cs hand ∧
    new_cards ++ deck w'.1 ++ pre ≡ₚ deck w.1 ++ discard_pile w.1 ∧
    length new_cards
    = length (discarded_cards cs hand) `min` (length (deck w.1) + length (discard_pile w.1)) ∧
    kept_cards cs hand ++ discarded_cards cs hand ≡ₚ hand ∧
    (∀ c, c ∈ discarded_cards cs hand ↔ ∃ i, i ∈ cs ∧ hand !! i = Some c) ∧
    (length (discarded_cards cs hand) ≤ length (deck w.1) →
       new_cards = take (length (discarded_cards cs hand)) (deck w.1) ∧
       deck w'.1 = drop (length (discarded_cards cs hand)) (deck w.1) ∧
       pre = discard_pile w.1 ∧ w'.2 = w.2).
Proof.
  intros Hhand.
  destruct (perform_discard_run player cs w hand Hhand)
    as (new_cards & pre & w' & Hrun & Hframe & Hperm & Hlen & Hlong).
  exists new_cards, pre, w'. split; [done|].
  split; [by rewrite Hframe|]. split; [by rewrite Hframe|].
  split; [done|]. split; [done|]. split; [apply split_hand_Permutation|].
  split; [apply discarded_cards_spec|done].
Qed.

Lemma filter_none {A} (P : A → Prop) `{∀ x, Decision (P x)} (l : list A) :
  (∀ x, x ∈ l → ¬ P x) → filter P l = [].
Proof.
  induction l as [|x l IH]; intros Hl; [done|].
  rewrite filter_cons_False by (apply Hl; left). apply IH. intros y Hy. apply Hl. by right.
Qed.

Lemma filter_all {A} (P : A → Prop) `{∀ x, Decision (P x)} (l : list A) :
  (∀ x, x ∈ l → P x) → filter P l = l.
Proof.
  induction l as [|x l IH]; intros Hl; [done|].
  rewrite filter_cons_True by (apply Hl; left). f_equal. apply IH. intros y Hy. apply Hl.
  by right.
Qed.

(** X15: a discard that lists no index of the hand (an empty list, or only
    indices past its end) leaves the whole game as it was, generator
    included; a discard for a player who has no hand raises [KeyError] and
    changes nothing either. *)
Theorem discard_of_nothing_changes_nothing (player : nat) (cs : list nat) (w : World G) :
  match hands w.1 !! player with
  | None => perform_discard player cs w = (Raise KeyError, w)
  | Some hand =>
      (∀ i, i ∈ cs → length hand ≤ i) → perform_discard player cs w = (Ok tt, w)
  end.
Proof.
  destruct (hands w.1 !! player) as [hand|] eqn:Hhand.
  - intros Hcs.
    assert (discarded_cards cs hand = []) as Hd.
    { unfold discarded_cards. rewrite filter_none; [done|]. intros [i c] Hin Hi. simpl in Hi.
      apply list_elem_of_lookup in Hin as [j Hj]. rewrite list_lookup_imap in Hj.
      destruct (hand !! j) eqn:Hc; [|done]. injection Hj as <- <-.
      apply lookup_lt_Some in Hc. specialize (Hcs j Hi). lia. }
    assert (kept_cards cs hand = hand) as Hk.
    { unfold kept_cards. rewrite filter_all; [apply imap_pair_snd|].
      intros [i c] Hin Hi. simpl in Hi.
      apply list_elem_of_lookup in Hin as [j Hj]. rewrite list_lookup_imap in Hj.
      destruct (hand !! j) eqn:Hc; [|done]. injection Hj as <- <-.
      apply lookup_lt_Some in Hc. specialize (Hcs j Hi). lia. }
    destruct (perform_discard_run player cs w hand Hhand)
      as (new_cards & pre & [s' g'] & Hrun & Hframe & Hperm & Hlen & Hlong).
    rewrite Hd in *. cbn [length] in *.
    destruct (Hlong ltac:(lia)) as (-> & Hdeck & -> & Hg). cbn [fst snd] in *.
    rewrite Hrun. f_equal. destruct w as [s g]. cbn [fst snd] in *. subst g'. f_equal.
    rewrite Hframe, Hdeck, Hk, !app_nil_r, drop_0, insert_id by done. by destruct s.
  - destruct w as [s g]. unfold perform_discard. rewrite run_bind_get_self.
    cbn [fst] in *. by rewrite Hhand.
Qed.

End Drawing.

(** Player 0 of the game of four discards the second and the fourth card. *)
Lemma discard_replaces_cards_witness :
  let hand := [mkCard Four Oros; mkCard Two Oros; mkCard Ace Oros; mkCard King Copas] in
  ∃ new_cards pre w', perform_discard 0 [1; 3] ordago_game = (Ok tt, w') ∧
    hands w'.1 = <[0 := kept_cards [1; 3] hand ++ new_cards]> (hands ordago_game.1) ∧
    discard_pile w'.1 = pre ++ discarded_cards [1; 3] hand ∧
    new_cards ++ deck w'.1 ++ pre ≡ₚ deck ordago_game.1 ++ discard_pile ordago_game.1 ∧
    length new_cards
    = length (discarded_cards [1; 3] hand)
      `min` (length (deck ordago_game.1) + length (discard_pile ordago_game.1)) ∧
    kept_cards [1; 3] hand ++ discarded_cards [1; 3] hand ≡ₚ hand ∧
    (∀ c, c ∈ discarded_cards [1; 3] hand ↔ ∃ i, i ∈ [1; 3] ∧ hand !! i = Some c) ∧
    (length (discarded_cards [1; 3] hand) ≤ length (deck ordago_game.1) →
       new_cards = take (length (discarded_cards [1; 3] hand)) (deck ordago_game.1) ∧
       deck w'.1 = drop (length (discarded_cards [1; 3] hand)) (deck ordago_game.1) ∧
       pre = discard_pile ordago_game.1 ∧ w'.2 = ordago_game.2).
Proof.
  cbv zeta.
  apply (discard_replaces_cards 0 [1; 3] ordago_game
           [mkCard Four Oros; mkCard Two Oros; mkCard Ace Oros; mkCard King Copas]).
  vm_compute. reflexivity.
Defined.

(** ** The first deal *)

Section FirstDeal.
Context {G : Type} `{RandomSource G} `{SetOrder G}.

Lemma Permutation_nil_eq {A} (l : list A) : l ≡ₚ [] → l = [].
Proof. intros Hp. by apply Permutation_nil_r. Qed.

(** A draw of four cards from a deck that holds a multiple of four, with an
    empty discard pile. *)
Lemma draw_four_run (s : MusGame) (g : G) (j : nat) :
  discard_pile s = [] → length (deck s) = 4 * j →
  ∃ g', draw_from_deck 4 (s, g) = (Ok (take 4 (deck s)), (with_deck (drop 4 (deck s)) s, g')) ∧
        (4 ≤ length (deck s) → g' = g).
Proof.
  intros Hdp Hlen.
  destruct (draw_from_deck_run 4 (s, g))
    as (dealt & [s' g'] & Hrun & Hframe & Hl & Hperm & Hlong & Hshort).
  cbn [fst snd] in *. exists g'. rewrite Hrun.
  destruct (decide (4 ≤ length (deck s))) as [Hge|Hlt].
  - destruct (Hlong Hge) as (-> & Hd & Hdp' & ->). split; [|done].
    f_equal. f_equal. rewrite Hframe, Hd, Hdp'. clear -Hdp. destruct s. cbn in *. by subst.
  - assert (deck s = []) as Hnil by (destruct (deck s); [done|simpl in *; lia]).
    rewrite Hnil, Hdp in *. simpl in Hperm.
    apply Permutation_nil_eq in Hperm.
    apply app_eq_nil in Hperm as [-> [Hd' Hdp']%app_eq_nil].
    split; [|simpl in *; lia]. f_equal. f_equal. rewrite Hframe, Hd', Hdp'.
    clear -Hnil Hdp. destruct s. cbn in *. by subst.
Qed.

Lemma deal_loop_run (d0 : list Card) (j0 k a : nat) (s : MusGame) (g : G) :
  length d0 = 4 * j0 → discard_pile s = [] → deck s = drop (4 * a) d0 →
  ∃ g', for_each (seq a k) (λ player,
          let* dealt := draw_from_deck 4 in
          modify_self (λ self, with_hands (<[player := dealt]> (hands self)) self)) (s, g)
        = (Ok tt, (with_hands (dealt_hands d0 a k (hands s))
                     (with_deck (drop (4 * (a + k)) d0) s), g')) ∧
        (4 * (a + k) ≤ length d0 → g' = g).
Proof.
  intros Hd0. revert a s g. induction k as [|k IH]; intros a s g Hdp Hdeck.
  - exists g. split; [|done]. cbn [seq for_each]. unfold ret, dealt_hands. cbn [seq foldl].
    rewrite Nat.add_0_r, <- Hdeck. by destruct s.
  - cbn [seq for_each].
    destruct (draw_four_run s g (j0 - a) Hdp) as (g1 & Hdraw & Hg1).
    { rewrite Hdeck, length_drop. lia. }
    erewrite run_bind_Ok; cycle 1.
    { rewrite (run_bind_Ok _ _ _ _ _ Hdraw). reflexivity. }
    cbn [fst snd].
    destruct (IH (S a) (with_hands (<[a := take 4 (deck s)]> (hands (with_deck (drop 4 (deck s)) s)))
                          (with_deck (drop 4 (deck s)) s)) g1) as (g' & Hloop & Hg').
    { done. }
    { game_simpl. rewrite Hdeck, drop_drop. f_equal. lia. }
    exists g'. rewrite Hloop. split.
    + do 2 f_equal. unfold dealt_hands. cbn [seq foldl]. game_simpl. rewrite Hdeck.
      replace (4 * (S a + k)) with (4 * (a + S k)) by lia. by destruct s.
    + intros Hle. rewrite Hg' by lia. apply Hg1. rewrite Hdeck, length_drop. lia.
Qed.

Lemma dealt_hands_lookup (d0 : list Card) (a k : nat) (m : gmap nat (list Card)) (p : nat) :
  dealt_hands d0 a k m !! p
  = if decide (a ≤ p < a + k) then Some (take 4 (drop (4 * p) d0)) else m !! p.
Proof.
  unfold dealt_hands. revert a m. induction k as [|k IH]; intros a m.
  - cbn. by rewrite decide_False by lia.
  - cbn [seq foldl]. rewrite IH. destruct (decide (p = a)) as [->|Hne].
    + rewrite decide_False by lia. rewrite lookup_insert_eq. by rewrite decide_True by lia.
    + rewrite lookup_insert_ne by done.
      destruct (decide (S a ≤ p < S a + k)); [by rewrite decide_True by lia|].
      by rewrite decide_False by lia.
Qed.

End FirstDeal.

Section FirstDealRuns.
Context {G : Type} `{RandomSource G} `{SetOrder G}.

Lemma MusGame_init_deck_length (n : nat) (t : Z) (c : Q) (g : G) :
  length (deck (MusGame_init n t c g).1) = 40.
Proof.
  unfold MusGame_init. cbn [fst deck].
  by rewrite (Permutation_length (rand_shuffle_perm g Deck_init)), Deck_init_length.
Qed.

Lemma dealt_hand_length (d0 : list Card) (p : nat) :
  length d0 = 40 → length (take 4 (drop (4 * p) d0)) = 4 `min` (40 - 4 * p).
Proof. intros Hd. rewrite length_take, length_drop, Hd. lia. Qed.

(** The state after the dealing loop of [initial_deal] on a new game. *)
Lemma first_deal_loop_run (n : nat) (t : Z) (c : Q) (g : G) :
  let w0 := MusGame_init n t c g in
  ∃ g', for_each (range n) (λ player,
          let* dealt := draw_from_deck 4 in
          modify_self (λ self, with_hands (<[player := dealt]> (hands self)) self)) w0
        = (Ok tt, (with_hands (dealt_hands (deck w0.1) 0 n (hands w0.1))
                     (with_deck (drop (4 * n) (deck w0.1)) w0.1), g')) ∧
        (n ≤ 10 → g' = w0.2).
Proof.
  cbv zeta. pose proof (MusGame_init_deck_length n t c g) as Hlen.
  destruct (MusGame_init n t c g) as [s0 g0] eqn:Hinit. cbn [fst snd] in *.
  assert (discard_pile s0 = []) as Hdp.
  { unfold MusGame_init in Hinit. by injection Hinit as <- _. }
  destruct (deal_loop_run (deck s0) 10 n 0 s0 g0) as (g' & Hloop & Hg'); [lia|done|done|].
  exists g'. split; [exact Hloop|]. intros Hn. apply Hg'. lia.
Qed.

Lemma initial_deal_run (n : nat) (t : Z) (c : Q) (g : G) :
  0 < n → n ≤ 10 →
  let w0 := MusGame_init n t c g in
  let dealt := with_hands (dealt_hands (deck w0.1) 0 n (hands w0.1))
                 (with_deck (drop (4 * n) (deck w0.1)) w0.1) in
  ∃ m, m < n ∧
       (∀ p, p < n → (first_card_order dealt p ≤ first_card_order dealt m)%Z) ∧
       (∀ p, p < m → (first_card_order dealt p < first_card_order dealt m)%Z) ∧
       initial_deal w0
       = (Ok tt, (with_hands_revealed (Some false)
                    (with_current_phase "mus"
                       (with_current_turn_index 0
                          (with_turn_order (rotate m (range n))
                             (with_mano (Some m) dealt)))), w0.2)).
Proof.
  intros Hpos Hn. cbv zeta.
  destruct (first_deal_loop_run n t c g) as (g' & Hloop & Hg'). cbv zeta in Hloop.
  specialize (Hg' Hn). subst g'.
  pose proof (MusGame_init_deck_length n t c g) as Hlen.
  assert (num_players (MusGame_init n t c g).1 = n) as Hnum by done.
  set (w0 := MusGame_init n t c g) in *.
  set (dealt := with_hands (dealt_hands (deck w0.1) 0 n (hands w0.1))
                  (with_deck (drop (4 * n) (deck w0.1)) w0.1)) in *.
  destruct (determine_mano_run (dealt, w0.2)) as (m & Hmano & Hm & Hall & Hfirst).
  { cbn [fst]. subst dealt. game_simpl. lia. }
  { cbn [fst]. subst dealt. game_simpl. rewrite Hnum. intros p Hp.
    rewrite dealt_hands_lookup, decide_True by lia.
    pose proof (dealt_hand_length (deck w0.1) p Hlen) as Hl.
    destruct (take 4 (drop (4 * p) (deck w0.1))) as [|c0 hand]; [cbn [length] in Hl; lia|].
    by exists c0, hand. }
  cbn [fst snd] in *.
  assert (num_players dealt = n) as Hnd by (subst dealt; by game_simpl).
  rewrite Hnd in Hm, Hall.
  exists m. split; [done|]. split; [done|]. split; [done|].
  unfold initial_deal. rewrite run_bind_get_self. rewrite Hnum.
  rewrite (run_bind_Ok _ _ _ _ _ Hloop).
  rewrite (run_bind_Ok _ _ _ _ _ Hmano).
  assert (num_players (with_mano (Some m) dealt) = n) as Hnm by (subst dealt; by game_simpl).
  rewrite (run_bind_Ok _ _ _ _ _ (set_turn_order_run (with_mano (Some m) dealt) w0.2 m
                                    eq_refl ltac:(rewrite Hnm; lia))).
  rewrite run_bind_modify_self. unfold modify_self. cbn [fst snd].
  by rewrite Hnm.
Qed.

(** X16: on a new game of at most ten players [initial_deal] never fails and
    does not use the generator: player [p] gets the four cards of the
    shuffled deck from position [4p] on, the deck keeps the [40 - 4n] cards
    after them, the discard pile stays empty, the phase becomes ['mus'] and
    the hands are marked as not revealed; with at least one player, mano is
    one of the players and the turn order is the players rotated to start at
    mano. *)
Theorem first_deal_gives_four_cards_each (n : nat) (t : Z) (c : Q) (g : G) :
  n ≤ 10 →
  let w0 := MusGame_init n t c g in
  ∃ w', initial_deal w0 = (Ok tt, w') ∧ w'.2 = w0.2 ∧
        (∀ p, p < n → ∃ hand, hands w'.1 !! p = Some hand ∧ length hand = 4 ∧
                              hand = take 4 (drop (4 * p) (deck w0.1))) ∧
        deck w'.1 = drop (4 * n) (deck w0.1) ∧ length (deck w'.1) = 40 - 4 * n ∧
        discard_pile w'.1 = [] ∧ current_phase w'.1 = "mus" ∧
        hands_revealed w'.1 = Some false ∧ scores w'.1 = (0, 0)%Z ∧
        (0 < n → ∃ m, mano w'.1 = Some m ∧ m < n ∧
                      turn_order w'.1 = rotate m (range n) ∧ current_turn_index w'.1 = 0).
Proof.
  intros Hn. cbv zeta.
  pose proof (MusGame_init_deck_length n t c g) as Hlen.
  destruct (decide (n = 0)) as [->|Hpos].
  - assert (initial_deal (MusGame_init 0 t c g)
            = (Ok tt, (with_hands_revealed (Some false)
                         (with_current_phase "mus"
                            (with_current_turn_index 0
                               (with_turn_order []
                                  (with_mano None (MusGame_init 0 t c g).1)))),
                       (MusGame_init 0 t c g).2))) as Hrun by reflexivity.
    rewrite Hrun. eexists. split; [reflexivity|]. cbn [fst snd].
    split; [done|]. split; [intros p Hp; lia|]. game_simpl.
    split; [done|]. split; [lia|].
    repeat (split; [done|]). lia.
  - destruct (initial_deal_run n t c g ltac:(lia) Hn) as (m & Hm & _ & _ & Hrun).
    cbv zeta in Hrun. rewrite Hrun. eexists. split; [reflexivity|]. cbn [fst snd].
    split; [done|]. game_simpl. split.
    { intros p Hp. rewrite dealt_hands_lookup, decide_True by lia.
      eexists. split; [done|]. split; [|done].
      rewrite (dealt_hand_length _ p Hlen). lia. }
    split; [done|]. split; [rewrite length_drop; lia|].
    repeat (split; [done|]). intros _. by exists m.
Qed.

Lemma comprehension_Raise {A B} (l1 l2 : list A) (x : A) (f : A → M (World G) B)
    (h : A → B) (e : PyExn) (w : World G) :
  (∀ y, y ∈ l1 → f y w = (Ok (h y), w)) → f x w = (Raise e, w) →
  comprehension (l1 ++ x :: l2) f w = (Raise e, w).
Proof.
  intros Hl1 Hx. induction l1 as [|y l1 IH]; cbn [app comprehension].
  - by rewrite (run_bind_Raise _ _ _ _ _ Hx).
  - rewrite (run_bind_Ok _ _ _ _ _ (Hl1 y ltac:(left))).
    by rewrite (run_bind_Raise _ _ _ _ _ (IH (λ z Hz, Hl1 z ltac:(by right)))).
Qed.

Lemma first_deal_beyond_ten_run (n : nat) (t : Z) (c : Q) (g : G) :
  10 < n →
  ∃ w', initial_deal (MusGame_init n t c g) = (Raise IndexError, w') ∧
        (∀ p, p < 10 → ∃ hand, hands w'.1 !! p = Some hand ∧ length hand = 4) ∧
        (∀ p, 10 ≤ p < n → hands w'.1 !! p = Some []) ∧
        deck w'.1 = [] ∧ current_phase w'.1 = "deal" ∧ mano w'.1 = None.
Proof.
  intros Hn.
  destruct (first_deal_loop_run n t c g) as (g' & Hloop & _). cbv zeta in Hloop.
  pose proof (MusGame_init_deck_length n t c g) as Hlen.
  assert (num_players (MusGame_init n t c g).1 = n) as Hnum by done.
  assert (current_phase (MusGame_init n t c g).1 = "deal") as Hphase by done.
  assert (mano (MusGame_init n t c g).1 = None) as Hmano by done.
  set (w0 := MusGame_init n t c g) in *.
  set (dealt := with_hands (dealt_hands (deck w0.1) 0 n (hands w0.1))
                  (with_deck (drop (4 * n) (deck w0.1)) w0.1)) in *.
  assert (∀ p, p < n → hands dealt !! p = Some (take 4 (drop (4 * p) (deck w0.1)))) as Hh.
  { intros p Hp. subst dealt. game_simpl. by rewrite dealt_hands_lookup, decide_True by lia. }
  exists (dealt, g'). split.
  - unfold initial_deal. rewrite run_bind_get_self, Hnum.
    rewrite (run_bind_Ok _ _ _ _ _ Hloop).
    erewrite run_bind_Raise; [done|].
    unfold determine_mano. rewrite run_bind_get_self. cbn [fst].
    assert (num_players dealt = n) as -> by (subst dealt; by game_simpl).
    erewrite run_bind_Raise; [done|].
    unfold range. replace n with (10 + S (n - 11)) at 1 by lia.
    rewrite seq_app. change (seq (0 + 10) (S (n - 11))) with (10 :: seq 11 (n - 11)).
    apply (comprehension_Raise _ _ _ _
             (λ p, (p, default (mkCard King Oros) (hands dealt !! p ≫= head)))).
    + intros p Hp. apply elem_of_seq in Hp. rewrite run_bind_get_self. cbn [fst].
      rewrite Hh by lia. pose proof (dealt_hand_length (deck w0.1) p Hlen) as Hl.
      destruct (take 4 (drop (4 * p) (deck w0.1))) as [|c0 hand]; [cbn [length] in Hl; lia|done].
    + rewrite run_bind_get_self. cbn [fst]. rewrite Hh by lia.
      pose proof (dealt_hand_length (deck w0.1) 10 Hlen) as Hl.
      destruct (take 4 (drop (4 * 10) (deck w0.1))) as [|c0 hand]; [done|cbn [length] in Hl; lia].
  - cbn [fst]. split; [|split; [|split; [|split]]].
    + intros p Hp. rewrite Hh by lia. eexists. split; [done|].
      rewrite (dealt_hand_length _ p Hlen). lia.
    + intros p Hp. rewrite Hh by lia.
      pose proof (dealt_hand_length (deck w0.1) p Hlen) as Hl.
      destruct (take 4 (drop (4 * p) (deck w0.1))); [done|cbn [length] in Hl; lia].
    + subst dealt. game_simpl. apply nil_length_inv. rewrite length_drop. lia.
    + subst dealt. by game_simpl.
    + subst dealt. by game_simpl.
Qed.

(** X17: on a new game of more than ten players the 40 cards run out:
    [initial_deal] gives four cards to each of the first ten players and an
    empty hand to the others, then raises [IndexError] when mano is
    determined; the phase is still ['deal'] and there is no mano. *)
Theorem first_deal_fails_beyond_ten_players (n : nat) (t : Z) (c : Q) (g : G) :
  10 < n →
  ∃ w', initial_deal (MusGame_init n t c g) = (Raise IndexError, w') ∧
        (∀ p, p < 10 → ∃ hand, hands w'.1 !! p = Some hand ∧ length hand = 4) ∧
        (∀ p, 10 ≤ p < n → hands w'.1 !! p = Some []) ∧
        deck w'.1 = [] ∧ current_phase w'.1 = "deal" ∧ mano w'.1 = None.
Proof. apply first_deal_beyond_ten_run. Qed.

End FirstDealRuns.

(** Four players, the counter generator started at 7. *)
Lemma first_deal_gives_four_cards_each_witness :
  ∃ w', initial_deal (MusGame_init 4 40 (1 # 5) 7) = (Ok tt, w') ∧
        w'.2 = (MusGame_init 4 40 (1 # 5) 7).2 ∧
        (∀ p, p < 4 → ∃ hand, hands w'.1 !! p = Some hand ∧ length hand = 4 ∧
                              hand = take 4 (drop (4 * p) (deck (MusGame_init 4 40 (1 # 5) 7).1))) ∧
        deck w'.1 = drop (4 * 4) (deck (MusGame_init 4 40 (1 # 5) 7).1) ∧
        length (deck w'.1) = 40 - 4 * 4 ∧
        discard_pile w'.1 = [] ∧ current_phase w'.1 = "mus" ∧
        hands_revealed w'.1 = Some false ∧ scores w'.1 = (0, 0)%Z ∧
        (0 < 4 → ∃ m, mano w'.1 = Some m ∧ m < 4 ∧
                      turn_order w'.1 = rotate m (range 4) ∧ current_turn_index w'.1 = 0).
Proof.
  apply (first_deal_gives_four_cards_each 4 40 (1 # 5) 7). lia.
Defined.

(** Eleven players. *)
Lemma first_deal_fails_beyond_ten_players_witness :
  ∃ w', initial_deal (MusGame_init 11 40 (1 # 5) 7) = (Raise IndexError, w') ∧
        (∀ p, p < 10 → ∃ hand, hands w'.1 !! p = Some hand ∧ length hand = 4) ∧
        (∀ p, 10 ≤ p < 11 → hands w'.1 !! p = Some []) ∧
        deck w'.1 = [] ∧ current_phase w'.1 = "deal" ∧ mano w'.1 = None.
Proof.
  apply (first_deal_fails_beyond_ten_players 11 40 (1 # 5) 7). lia.
Defined.

(** ** Every card stays in the game *)

Lemma Deck_init_NoDup : NoDup Deck_init.
Proof. apply (bool_decide_unpack _). by vm_compute. Qed.

Lemma Deck_init_complete (card : Card) : card ∈ Deck_init.
Proof.
  destruct card as [r s]. destruct r, s; apply (bool_decide_unpack _); by vm_compute.
Qed.

Lemma hands_cards_insert (m : gmap nat (list Card)) (p : nat) (hand : list Card) :
  hands_cards (<[p := hand]> m) ++ default [] (m !! p) ≡ₚ hand ++ hands_cards m.
Proof.
  unfold hands_cards. destruct (m !! p) as [old|] eqn:Hp; simpl.
  - rewrite <- (insert_delete_eq m p hand).
    rewrite (map_to_list_insert (delete p m) p hand) by apply lookup_delete_eq.
    rewrite <- (map_to_list_delete m p old Hp). simpl.
    rewrite <- !(assoc (++)). apply Permutation_app_head. apply Permutation_app_comm.
  - rewrite (map_to_list_insert m p hand Hp). simpl. by rewrite app_nil_r.
Qed.

Lemma hands_cards_empty_hands (m : gmap nat (list Card)) :
  (∀ p hand, m !! p = Some hand → hand = []) → hands_cards m = [].
Proof.
  intros Hall. unfold hands_cards.
  assert (∀ ph, ph ∈ map_to_list m → ph.2 = []) as Hl.
  { intros [p hand] Hin. apply elem_of_map_to_list in Hin. by apply Hall in Hin. }
  induction (map_to_list m) as [|ph l IH]; [done|]. simpl.
  rewrite (Hl ph) by left. simpl. apply IH. intros ph' Hin. apply Hl. by right.
Qed.

Lemma dealt_hands_S (d0 : list Card) (a k : nat) (m : gmap nat (list Card)) :
  dealt_hands d0 a (S k) m
  = <[a + k := take 4 (drop (4 * (a + k)) d0)]> (dealt_hands d0 a k m).
Proof. unfold dealt_hands. by rewrite seq_S, foldl_app. Qed.

Lemma dealt_hands_cards (d0 : list Card) (k : nat) (m : gmap nat (list Card)) :
  (∀ p hand, m !! p = Some hand → hand = []) →
  hands_cards (dealt_hands d0 0 k m) ≡ₚ take (4 * k) d0.
Proof.
  intros Hall. induction k as [|k IH].
  - unfold dealt_hands. simpl. by rewrite hands_cards_empty_hands.
  - rewrite dealt_hands_S. simpl.
    pose proof (hands_cards_insert (dealt_hands d0 0 k m) k (take 4 (drop (4 * k) d0))) as Hi.
    rewrite dealt_hands_lookup, decide_False in Hi by lia.
    assert (default [] (m !! k) = []) as Hk.
    { destruct (m !! k) as [hand|] eqn:Hm; [|done]. simpl. by apply Hall in Hm. }
    rewrite Hk, app_nil_r, IH in Hi. rewrite Hi.
    rewrite Permutation_app_comm, take_take_drop. by replace (4 * k + 4) with (4 * S k) by lia.
Qed.

Section SameCards.
Context {G : Type} `{RandomSource G} `{SetOrder G}.

Lemma ledger_same_cards (s s' : MusGame) : ledger s' = ledger s → same_cards s s'.
Proof.
  unfold ledger, same_cards, all_cards. by intros [= -> -> -> _ _].
Qed.

Lemma ledger_op_same_cards {A} (m : M (World G) A) :
  (∀ t, keeps (ledger_is (G:=G) t) m) → changes (G:=G) same_cards m.
Proof.
  intros Hm. eapply changes_weaken; [by apply ledger_changes|]. apply ledger_same_cards.
Qed.

Lemma perform_discard_same_cards player cards_to_discard :
  changes (G:=G) same_cards (perform_discard player cards_to_discard).
Proof.
  intros w. destruct (hands w.1 !! player) as [hand|] eqn:Hhand.
  - destruct (perform_discard_run player cards_to_discard w hand Hhand)
      as (new_cards & pre & w' & -> & Hframe & Hperm & _). cbn [snd].
    unfold same_cards, all_cards.
    remember (deck w'.1) as d' eqn:Hd'. clear Hd'. rewrite Hframe. game_simpl.
    pose proof (hands_cards_insert (hands w.1) player
                  (kept_cards cards_to_discard hand ++ new_cards)) as Hi.
    rewrite Hhand in Hi. simpl in Hi.
    pose proof (split_hand_Permutation cards_to_discard hand) as Hsplit.
    revert Hi Hperm Hsplit.
    generalize (hands_cards (<[player:=kept_cards cards_to_discard hand ++ new_cards]>
                               (hands w.1)))
      (kept_cards cards_to_discard hand) (discarded_cards cards_to_discard hand)
      (hands_cards (hands w.1)) (deck w.1) (discard_pile w.1).
    intros hc' kept disc hc d dp Hi Hperm Hsplit.
    apply (Permutation_app_inv_r hand).
    transitivity (d' ++ pre ++ disc ++ (kept ++ new_cards) ++ hc).
    { rewrite <- Hi. solve_Permutation. }
    transitivity ((new_cards ++ d' ++ pre) ++ hc ++ (kept ++ disc)).
    { solve_Permutation. }
    rewrite Hperm, Hsplit. solve_Permutation.
  - destruct w as [s g]. unfold perform_discard. rewrite run_bind_get_self.
    cbn [fst] in *. by rewrite Hhand.
Qed.

Lemma score_round_same_cards : changes (G:=G) same_cards score_round.
Proof.
  intros w. destruct (score_round_effect w) as (Hd & Hh & Hdp & _).
  unfold same_cards, all_cards. by rewrite Hd, Hh, Hdp.
Qed.

Lemma start_play_phase_same_cards fuel : changes (G:=G) same_cards (start_play_phase fuel).
Proof.
  apply keeps_changes; [apply _|]. intros s0. unfold start_play_phase.
  pose proof (changes_keeps same_cards (play_loop fuel ["grande"; "chica"; "pares"; "juego"]) s0
                (ledger_op_same_cards _ (λ t, keeps_ledger_play_loop t fuel _))).
  pose proof (changes_keeps same_cards score_round s0 score_round_same_cards).
  keeps_auto; try done.
  eapply (changes_keeps same_cards), ledger_op_same_cards.
  intros t. apply keeps_ledger_play_loop.
Qed.

Lemma step_same_cards fuel actions : changes (G:=G) same_cards (step fuel actions).
Proof.
  apply keeps_changes; [apply _|]. intros s0. unfold step.
  pose proof (changes_keeps same_cards _ s0 (start_play_phase_same_cards fuel)).
  assert (∀ player sig, keeps (λ w : World G, same_cards s0 w.1)
                           (update_covert_signal player sig)) as Hsig.
  { intros. eapply (changes_keeps same_cards), ledger_op_same_cards.
    intros t. apply keeps_ledger_update_covert_signal. }
  assert (∀ player cs, keeps (λ w : World G, same_cards s0 w.1)
                          (perform_discard player cs)) as Hdis.
  { intros. apply (changes_keeps same_cards), perform_discard_same_cards. }
  keeps_auto; try done. unfold finish_round. keeps_auto.
Qed.

Lemma run_operation_same_cards (fuel : nat) (op : Operation) :
  op ≠ InitialDeal → changes (G:=G) same_cards (run_operation (G:=G) fuel op).
Proof.
  intros Hop. destruct op as [|player cs|player sig|actions| | |]; cbn [run_operation];
    [done|..].
  - apply perform_discard_same_cards.
  - apply ledger_op_same_cards. intros t.
    pose proof (keeps_ledger_update_covert_signal (G:=G) t player sig). keeps_auto; done.
  - apply keeps_changes; [apply same_cards_refl|]. intros s0.
    pose proof (changes_keeps same_cards _ s0 (step_same_cards fuel actions)).
    keeps_auto; done.
  - apply start_play_phase_same_cards.
  - apply score_round_same_cards.
  - apply ledger_op_same_cards. intros t. unfold finish_round. keeps_auto.
Qed.

(** The cards after [initial_deal] on a new game, however it ends. *)
Lemma initial_deal_cards (n : nat) (t : Z) (c : Q) (g : G) :
  let w0 := MusGame_init n t c g in
  let w' := (initial_deal w0).2 in
  deck w'.1 = drop (4 * n) (deck w0.1) ∧
  hands w'.1 = dealt_hands (deck w0.1) 0 n (hands w0.1) ∧
  discard_pile w'.1 = [].
Proof.
  cbv zeta. destruct (first_deal_loop_run n t c g) as (g' & Hloop & _). cbv zeta in Hloop.
  assert (num_players (MusGame_init n t c g).1 = n) as Hnum by done.
  assert (discard_pile (MusGame_init n t c g).1 = []) as Hdp by done.
  set (w0 := MusGame_init n t c g) in *.
  set (dealt := with_hands (dealt_hands (deck w0.1) 0 n (hands w0.1))
                  (with_deck (drop (4 * n) (deck w0.1)) w0.1)) in *.
  assert (ledger (initial_deal w0).2.1 = ledger dealt) as Hl.
  { unfold initial_deal. rewrite run_bind_get_self, Hnum.
    rewrite (run_bind_Ok _ _ _ _ _ Hloop).
    apply (keeps_ledger_outcome _ (dealt, g')). intros t'.
    pose proof (keeps_ledger_determine_mano (G:=G) t').
    pose proof (keeps_ledger_set_turn_order (G:=G) t').
    keeps_auto; done. }
  unfold ledger in Hl. injection Hl as -> -> -> _ _. subst dealt. by game_simpl.
Qed.

(** X18: the 40 cards of the deck are each at exactly one place. After a new
    game has been dealt, and after every operation of any sequence of
    discards, signals, steps, play phases, scorings and end-of-round calls
    that follows (whether they return or raise, reshuffles included), the
    deck, the discard pile and the hands hold together the cards of a new
    deck: every card of the four suits and ten ranks, none of them twice. *)
Theorem every_card_is_at_one_place (n : nat) (t : Z) (c : Q) (g : G)
    (fuel : nat) (ops : list Operation) :
  Forall (λ op, op ≠ InitialDeal) ops →
  let w := run_operations fuel ops (initial_deal (MusGame_init n t c g)).2 in
  all_cards w.1 ≡ₚ Deck_init ∧ NoDup (all_cards w.1) ∧ ∀ card, card ∈ all_cards w.1.
Proof.
  intros Hops. cbv zeta.
  assert (all_cards (run_operations fuel ops (initial_deal (MusGame_init n t c g)).2).1
          ≡ₚ Deck_init) as Hperm.
  { induction ops as [|op done_ops IH] using rev_ind.
    - destruct (initial_deal_cards n t c g) as (Hd & Hh & Hdp). cbv zeta in *.
      unfold run_operations, all_cards. cbn [foldl]. rewrite Hd, Hh, Hdp. cbn [app].
      rewrite dealt_hands_cards by apply MusGame_init_hands_empty.
      rewrite Permutation_app_comm, take_drop.
      unfold MusGame_init. cbn [fst deck]. apply rand_shuffle_perm.
    - apply Forall_app in Hops as [Hdone Hop]. rewrite Forall_singleton in Hop.
      rewrite run_operations_snoc.
      pose proof (run_operation_same_cards fuel op Hop
                    (run_operations fuel done_ops
                       (initial_deal (MusGame_init n t c g)).2)) as Hsame.
      unfold same_cards in Hsame. rewrite Hsame. by apply IH. }
  split; [done|]. split.
  - rewrite Hperm. apply Deck_init_NoDup.
  - intros card. rewrite Hperm. apply Deck_init_complete.
Qed.

End SameCards.

(** A game of four: a discard, a signal, a step. *)
Lemma every_card_is_at_one_place_witness :
  all_cards (run_operations 2 [PerformDiscard 0 [1; 3]; UpdateCovertSignal 1 2;
                                Step sample_actions]
               (initial_deal (MusGame_init 4 40 (1 # 5) 7)).2).1 ≡ₚ Deck_init ∧
  NoDup (all_cards (run_operations 2 [PerformDiscard 0 [1; 3]; UpdateCovertSignal 1 2;
                                       Step sample_actions]
                      (initial_deal (MusGame_init 4 40 (1 # 5) 7)).2).1) ∧
  ∀ card, card ∈ all_cards (run_operations 2 [PerformDiscard 0 [1; 3]; UpdateCovertSignal 1 2;
                                               Step sample_actions]
                              (initial_deal (MusGame_init 4 40 (1 # 5) 7)).2).1.
Proof.
  apply (every_card_is_at_one_place 4 40 (1 # 5) 7 2
           [PerformDiscard 0 [1; 3]; UpdateCovertSignal 1 2; Step sample_actions]).
  repeat constructor; discriminate.
Defined.

(** ** Covert signals *)

Lemma elem_of_team0 (m n q : nat) :
  q ∈ ({[ m; (m + 2) mod n ]} : gset nat) ↔ (q = m ∨ q = (m + 2) mod n).
Proof. set_solver. Qed.

Section Signals.
Context {G : Type} `{RandomSource G} `{SetOrder G}.

Lemma elem_of_set_order (site : SetSite) (w : World G) (team : gset nat) (q : nat) :
  q ∈ set_order site w team ↔ q ∈ team.
Proof. by rewrite set_order_elements, elem_of_elements. Qed.

Lemma set_order_NoDup (site : SetSite) (w : World G) (team : gset nat) :
  NoDup (set_order site w team).
Proof. rewrite set_order_elements. apply NoDup_elements. Qed.

(** One turn of the loop over the opponents in [update_covert_signal]. *)
Lemma intercept_step (player : nat) (interceptors : list nat) (opponent : nat)
    (s : MusGame) (g : G) :
  (let* self := get_self in
   let* x := random rand_random in
   if Qlt_le_dec x (signal_intercept_chance self) then
     let* seen := or_raise KeyError (intercepted_signals self !! opponent) in
     let* _ := modify_self (λ self,
                 with_intercepted_signals
                   (<[opponent := {[ player ]} ∪ seen]> (intercepted_signals self)) self) in
     ret (interceptors ++ [opponent])
   else ret interceptors) (s, g)
  = if Qlt_le_dec (rand_random g).1 (signal_intercept_chance s) then
      match intercepted_signals s !! opponent with
      | Some seen =>
          (Ok (interceptors ++ [opponent]),
           (with_intercepted_signals
              (<[opponent := {[ player ]} ∪ seen]> (intercepted_signals s)) s,
            (rand_random g).2))
      | None => (Raise KeyError, (s, (rand_random g).2))
      end
    else (Ok interceptors, (s, (rand_random g).2)).
Proof.
  rewrite run_bind_get_self. unfold bind at 1, random. cbn [fst snd].
  destruct (Qlt_le_dec _ _); [|done].
  destruct (intercepted_signals s !! opponent); done.
Qed.

Lemma interception_of_refl (player : nat) (opponents : list nat) (s : MusGame) :
  interception_of player opponents s s.
Proof. intros q. by left. Qed.

Lemma intercept_loop_run (player : nat) (opponents : list nat) (interceptors : list nat)
    (s : MusGame) (g : G) :
  ∃ o s' g',
    for_fold opponents interceptors (λ interceptors opponent,
      let* self := get_self in
      let* x := random rand_random in
      if Qlt_le_dec x (signal_intercept_chance self) then
        let* seen := or_raise KeyError (intercepted_signals self !! opponent) in
        let* _ := modify_self (λ self,
                    with_intercepted_signals
                      (<[opponent := {[ player ]} ∪ seen]> (intercepted_signals self)) self) in
        ret (interceptors ++ [opponent])
      else ret interceptors) (s, g) = (o, (s', g')) ∧
    s' = with_intercepted_signals (intercepted_signals s') s ∧
    interception_of player opponents s s' ∧
    (∀ final, o = Ok final →
       ∃ new, final = interceptors ++ new ∧
              ∀ q, q ∈ new → q ∈ opponents ∧
                    ∃ seen, intercepted_signals s' !! q = Some seen ∧ player ∈ seen) ∧
    ((signal_intercept_chance s <= 0)%Q → o = Ok interceptors ∧ s' = s) ∧
    ((1 <= signal_intercept_chance s)%Q → ∀ final, o = Ok final → final = interceptors ++ opponents).
Proof.
  revert interceptors s g. induction opponents as [|opponent rest IH]; intros interceptors s g.
  - exists (Ok interceptors), s, g. split; [done|]. split; [by destruct s|].
    split; [apply interception_of_refl|]. split; [|split].
    + intros final [= <-]. exists []. rewrite app_nil_r. split; [done|].
      intros q Hq. by apply elem_of_nil in Hq.
    + done.
    + intros _ final [= <-]. by rewrite app_nil_r.
  - cbn [for_fold].
    pose proof (intercept_step player interceptors opponent s g) as Hstep.
    pose proof (rand_random_range g) as [Hx0 Hx1].
    destruct (Qlt_le_dec (rand_random g).1 (signal_intercept_chance s)) as [Hlt|Hge].
    + destruct (intercepted_signals s !! opponent) as [seen|] eqn:Hseen.
      * rewrite (run_bind_Ok _ _ _ _ _ Hstep).
        set (s1 := with_intercepted_signals
                     (<[opponent := {[ player ]} ∪ seen]> (intercepted_signals s)) s).
        destruct (IH (interceptors ++ [opponent]) s1 (rand_random g).2)
          as (o & s' & g' & Hrun & Hframe & Hint & Hfinal & Hlow & Hhigh).
        exists o, s', g'. split; [exact Hrun|]. split; [|split; [|split; [|split]]].
        -- rewrite Hframe at 1. subst s1. by destruct s.
        -- intros q. destruct (Hint q) as [Hsame|(Hq & seen1 & Hs1 & Hs')].
           ++ subst s1. game_simpl. destruct (decide (q = opponent)) as [->|Hne].
              ** right. split; [by left|]. exists seen. split; [done|].
                 by rewrite Hsame, lookup_insert_eq.
              ** left. by rewrite Hsame, lookup_insert_ne.
           ++ subst s1. game_simpl. right. split; [by right|].
              destruct (decide (q = opponent)) as [->|Hne].
              ** rewrite lookup_insert_eq in Hs1. injection Hs1 as <-.
                 exists seen. split; [done|]. rewrite Hs'. f_equal.
                 apply leibniz_equiv. intros x. rewrite !elem_of_union. tauto.
              ** rewrite lookup_insert_ne in Hs1 by done. by exists seen1.
        -- intros final Hfin. destruct (Hfinal final Hfin) as (new & -> & Hnew).
           exists (opponent :: new). split; [by rewrite <- (assoc (++))|].
           intros q [->|Hq]%elem_of_cons.
           ++ split; [by left|].
              destruct (Hint opponent) as [Hsame|(_ & seen1 & Hs1 & Hs')].
              ** exists ({[player]} ∪ seen). split; [|clear; set_solver].
                 rewrite Hsame. subst s1. game_simpl. apply lookup_insert_eq.
              ** exists ({[player]} ∪ seen1). split; [done|clear; set_solver].
           ++ destruct (Hnew q Hq) as [Hin Hs]. split; [by right|done].
        -- intros Hc. exfalso. apply (Qlt_not_le _ _ Hlt). by apply (Qle_trans _ 0).
        -- intros Hc final Hfin. rewrite (Hhigh Hc final Hfin). by rewrite <- (assoc (++)).
      * rewrite (run_bind_Raise _ _ _ _ _ Hstep).
        exists (Raise KeyError), s, (rand_random g).2. split; [done|].
        split; [by destruct s|]. split; [apply interception_of_refl|].
        split; [done|]. split; [|done].
        intros Hc. exfalso. apply (Qlt_not_le _ _ Hlt). by apply (Qle_trans _ 0).
    + rewrite (run_bind_Ok _ _ _ _ _ Hstep).
      destruct (IH interceptors s (rand_random g).2)
        as (o & s' & g' & Hrun & Hframe & Hint & Hfinal & Hlow & Hhigh).
      exists o, s', g'. split; [exact Hrun|]. split; [done|]. split; [|split; [|split]].
      * intros q. destruct (Hint q) as [?|(Hq & Hs)]; [by left|right].
        split; [by right|done].
      * intros final Hfin. destruct (Hfinal final Hfin) as (new & -> & Hnew).
        exists new. split; [done|]. intros q Hq. destruct (Hnew q Hq) as [Hin Hs].
        split; [by right|done].
      * done.
      * intros Hc. exfalso. apply (Qlt_not_le _ _ Hx1). by apply (Qle_trans _ _ _ Hc).
Qed.

Lemma opponents_spec (w : World G) (s : MusGame) (m player q : nat) :
  let team0 : gset nat := {[ m; (m + 2) mod num_players s ]} in
  q ∈ (if decide (player ∈ team0)
       then set_order OtherPlayers w (list_to_set (range (num_players s)) ∖ team0)
       else set_order TeamSet w team0)
  ↔ opponent_of s m player q.
Proof.
  cbv zeta. unfold opponent_of, on_team0.
  destruct (decide (player ∈ _)) as [Hin|Hnin].
  - rewrite decide_True by (by apply elem_of_team0).
    rewrite elem_of_set_order, elem_of_difference, elem_of_list_to_set, elem_of_team0.
    unfold range. rewrite elem_of_seq. split; intros [? ?]; (split; [lia|done]).
  - rewrite decide_False by (by rewrite <- elem_of_team0).
    by rewrite elem_of_set_order, elem_of_team0.
Qed.

Lemma update_covert_signal_effect (player : nat) (signal : Z) (s : MusGame) (g : G) :
  ∃ o s' g', update_covert_signal player signal (s, g) = (o, (s', g')) ∧
    s' = with_intercepted_signals (intercepted_signals s')
           (with_covert_signals (<[player := signal]> (covert_signals s)) s) ∧
    (∀ q, intercepted_signals s' !! q = intercepted_signals s !! q ∨
          ∃ seen, intercepted_signals s !! q = Some seen ∧
                  intercepted_signals s' !! q = Some ({[ player ]} ∪ seen)) ∧
    (∀ interceptors q, o = Ok interceptors → q ∈ interceptors →
       ∃ m, mano s = Some m ∧ opponent_of s m player q ∧
            ∃ seen, intercepted_signals s' !! q = Some seen ∧ player ∈ seen) ∧
    ((signal_intercept_chance s <= 0)%Q →
       intercepted_signals s' = intercepted_signals s ∧
       ∀ interceptors, o = Ok interceptors → interceptors = []) ∧
    ((1 <= signal_intercept_chance s)%Q → signal ≠ 0%Z →
       ∀ interceptors m q, o = Ok interceptors → mano s = Some m →
         opponent_of s m player q → q ∈ interceptors) ∧
    (signal = 0%Z → o = Ok [] ∧ intercepted_signals s' = intercepted_signals s ∧ g' = g).
Proof.
  unfold update_covert_signal. destruct (decide (signal = 0%Z)) as [->|Hsig].
  - rewrite run_bind_modify_self. eexists _, _, _. split; [reflexivity|].
    cbn [fst snd]. game_simpl. split; [by destruct s|]. split; [by left|].
    split; [intros ? q [= <-] Hq; by apply elem_of_nil in Hq|].
    split; [split; [done|by intros ? [= <-]]|]. split; done.
  - rewrite run_bind_modify_self. cbn [fst snd].
    set (s1 := with_covert_signals (<[player := signal]> (covert_signals s)) s).
    destruct (mano s) as [m|] eqn:Hm; cycle 1.
    { exists (Raise TypeError), s1, g. split.
      { unfold team0_of. rewrite (run_bind_Raise _ _ _ (s1, g) TypeError); [done|].
        rewrite run_bind_get_self. cbn [fst]. subst s1. game_simpl. by rewrite Hm. }
      split; [subst s1; by destruct s|]. split; [by left|].
      split; [done|]. split; [done|]. split; done. }
    destruct (decide (num_players s = 0)) as [Hn|Hn].
    { exists (Raise ZeroDivisionError), s1, g. split.
      { unfold team0_of. rewrite (run_bind_Raise _ _ _ (s1, g) ZeroDivisionError); [done|].
        rewrite run_bind_get_self. cbn [fst]. subst s1. game_simpl. rewrite Hm.
        by rewrite decide_True. }
      split; [subst s1; by destruct s|]. split; [by left|].
      split; [done|]. split; [done|]. split; done. }
    rewrite (run_bind_Ok _ _ _ _ _ (team0_of_run s1 g m Hm Hn)).
    set (team0 := ({[ m; (m + 2) mod num_players s1 ]} : gset nat)).
    set (opponents := if decide (player ∈ team0)
                      then set_order OtherPlayers (s1, g)
                             (list_to_set (range (num_players s1)) ∖ team0)
                      else set_order TeamSet (s1, g) team0).
    assert (∀ k : list nat → M (World G) (list nat),
              bind (if decide (player ∈ team0)
                    then let* team1 := team1_of team0 in set_iter OtherPlayers team1
                    else set_iter TeamSet team0) k (s1, g) = k opponents (s1, g)) as Hopp.
    { intros k. subst opponents. destruct (decide (player ∈ team0)); [|done].
      by rewrite (run_bind_Ok _ _ _ (s1, g)
                    (set_order OtherPlayers (s1, g)
                       (list_to_set (range (num_players s1)) ∖ team0))). }
    rewrite Hopp.
    destruct (intercept_loop_run player opponents [] s1 g)
      as (o & s' & g' & Hrun & Hframe & Hint & Hfinal & Hlow & Hhigh).
    exists o, s', g'. split; [exact Hrun|].
    assert (∀ q, q ∈ opponents ↔ opponent_of s m player q) as Hspec.
    { intros q. apply (opponents_spec (s1, g) s1 m player q). }
    split; [rewrite Hframe at 1; subst s1; by destruct s|].
    split; [|split; [|split; [|split; [|done]]]].
    + intros q. destruct (Hint q) as [?|(_ & ?)]; [by left|by right].
    + intros interceptors q -> Hq. destruct (Hfinal _ eq_refl) as (new & -> & Hnew).
      exists m. split; [done|]. destruct (Hnew q Hq) as [Hin Hseen].
      split; [by apply Hspec|done].
    + intros Hc. destruct (Hlow Hc) as [-> ->]. split; [by subst s1|]. by intros ? [= <-].
    + intros Hc _ interceptors m' q -> [= <-] Hq.
      rewrite (Hhigh Hc _ eq_refl). by apply Hspec.
Qed.

(** X19: [update_covert_signal] records the signal as the player's own,
    whether it then returns or raises; the sets of intercepted senders never
    lose a member, and gain at most this player; and every player it reports
    as an interceptor is on the other team than the sender (so never the
    sender nor a team-mate) and has the sender in its set from then on. *)
Theorem signal_is_intercepted_by_opponents_only (player : nat) (signal : Z) (w : World G) :
  let r := update_covert_signal player signal w in
  covert_signals r.2.1 !! player = Some signal ∧
  (∀ q, intercepted_signals r.2.1 !! q = intercepted_signals w.1 !! q ∨
        ∃ seen, intercepted_signals w.1 !! q = Some seen ∧
                intercepted_signals r.2.1 !! q = Some ({[ player ]} ∪ seen)) ∧
  (∀ interceptors q, r.1 = Ok interceptors → q ∈ interceptors →
     q ≠ player ∧
     ∃ m, mano w.1 = Some m ∧ opponent_of w.1 m player q ∧
          ∃ seen, intercepted_signals r.2.1 !! q = Some seen ∧ player ∈ seen).
Proof.
  cbv zeta. destruct w as [s g].
  destruct (update_covert_signal_effect player signal s g)
    as (o & s' & g' & -> & Hframe & Hint & Hfinal & _).
  cbn [fst snd]. split; [|split; [done|]].
  - rewrite Hframe. game_simpl. apply lookup_insert_eq.
  - intros interceptors q Ho Hq. destruct (Hfinal interceptors q Ho Hq) as (m & Hm & Hopp & Hs).
    split; [|by exists m]. intros ->. unfold opponent_of in Hopp.
    destruct (decide (on_team0 s m player)); tauto.
Qed.

(** X20: the interception chance at its two ends. With a chance of zero or
    less nobody ever intercepts: the sets are left as they were and the list
    returned is empty. With a chance of one or more, a call with a non-zero
    signal that returns has been intercepted by every player of the other
    team, and by nobody else. *)
Theorem interception_chance_extremes (player : nat) (signal : Z) (w : World G) :
  let r := update_covert_signal player signal w in
  ((signal_intercept_chance w.1 <= 0)%Q →
     intercepted_signals r.2.1 = intercepted_signals w.1 ∧
     ∀ interceptors, r.1 = Ok interceptors → interceptors = []) ∧
  ((1 <= signal_intercept_chance w.1)%Q → signal ≠ 0%Z →
     ∀ interceptors m, r.1 = Ok interceptors → mano w.1 = Some m →
       ∀ q, q ∈ interceptors ↔ opponent_of w.1 m player q).
Proof.
  cbv zeta. destruct w as [s g].
  destruct (update_covert_signal_effect player signal s g)
    as (o & s' & g' & -> & Hframe & Hint & Hfinal & Hlow & Hhigh & _).
  cbn [fst snd]. split; [done|].
  intros Hc Hsig interceptors m Ho Hm q. split.
  - intros Hq. destruct (Hfinal interceptors q Ho Hq) as (m' & Hm' & Hopp & _). congruence.
  - by apply Hhigh.
Qed.

(** The players outside mano's team, in whatever order they are visited. *)
Lemma others_size (site : SetSite) (w : World G) (m n k : nat) :
  size (list_to_set (range n) ∖ ({[ m; (m + 2) mod n ]} : gset nat)) = k →
  length (set_order site w (list_to_set (range n) ∖ ({[ m; (m + 2) mod n ]} : gset nat))) = k.
Proof. intros <-. by rewrite set_order_elements. Qed.

Lemma get_covert_signal_four (s : MusGame) (g : G) (m player : nat) :
  num_players s = 4 → mano s = Some m → m < 4 → player < 4 →
  get_covert_signal player (s, g)
  = (Ok (default 0%Z (covert_signals s !! ((player + 2) mod 4))), (s, g)).
Proof.
  intros Hn Hm Hlt Hp. unfold get_covert_signal.
  rewrite (run_bind_Ok _ _ _ _ _ (team0_of_run s g m Hm ltac:(lia))).
  rewrite run_bind_get_self. cbn [fst]. rewrite Hn.
  destruct (decide (player ∈ ({[ m; (m + 2) mod 4 ]} : gset nat))) as [Hin|Hnin].
  - rewrite Hm.
    rewrite (run_bind_Ok _ _ (s, g) (s, g) ((player + 2) mod 4)).
    + by rewrite run_bind_get_self.
    + rewrite run_bind_or_raise_Some.
      apply elem_of_team0 in Hin.
      destruct (decide (player ≠ m)) as [Hne|Heq%dec_stable]; unfold ret; do 2 f_equal.
      * destruct Hin as [->| ->]; [done|].
        destruct m as [|[|[|[|?]]]]; [done..|lia].
      * by subst.
  - set (team1 := list_to_set (range 4) ∖ ({[ m; (m + 2) mod 4 ]} : gset nat)).
    set (others := set_order OtherPlayers (s, g) team1).
    assert (length others = 2) as Hlen.
    { apply others_size. destruct m as [|[|[|[|?]]]]; [reflexivity..|lia]. }
    assert (∀ q, q ∈ others ↔ q < 4 ∧ q ≠ m ∧ q ≠ (m + 2) mod 4) as Hmem.
    { intros q. unfold others. rewrite elem_of_set_order. unfold team1, range.
      rewrite elem_of_difference, elem_of_list_to_set, elem_of_seq, elem_of_team0.
      split; [intros [? ?]; repeat split; [lia|tauto..]|intros (? & ? & ?); split; [lia|tauto]]. }
    pose proof (set_order_NoDup OtherPlayers (s, g) team1) as Hnd. fold others in Hnd.
    assert (set_iter OtherPlayers team1 (s, g) = (Ok others, (s, g))) as Hiter by done.
    clearbody others.
    destruct others as [|a [|b [|? ?]]]; try discriminate Hlen.
    apply NoDup_cons in Hnd as [Hab _]. rewrite list_elem_of_singleton in Hab.
    pose proof (proj1 (Hmem a) ltac:(left)) as (Ha4 & Ham & Ham2).
    pose proof (proj1 (Hmem b) ltac:(right; left)) as (Hb4 & Hbm & Hbm2).
    assert (player = a ∨ player = b) as Hplayer.
    { assert (player ∈ [a; b]) as Hin.
      { apply Hmem. rewrite elem_of_team0 in Hnin. split; [done|]. split; intros ->; tauto. }
      apply elem_of_cons in Hin as [->|Hin]; [by left|].
      apply list_elem_of_singleton in Hin. by right. }
    rewrite (run_bind_Ok _ _ (s, g) (s, g) ((player + 2) mod 4)).
    + by rewrite run_bind_get_self.
    + rewrite (run_bind_Ok _ _ _ _ _ (team1_of_run _ s g)). rewrite Hn.
      fold team1. rewrite (run_bind_Ok _ _ _ _ _ Hiter).
      cbn [lookup list_lookup]. rewrite run_bind_or_raise_Some.
      assert (∀ x y, x < 4 → y < 4 → x ≠ y → x ≠ m → x ≠ (m + 2) mod 4 →
                     y ≠ m → y ≠ (m + 2) mod 4 → y = (x + 2) mod 4) as Hpartner.
      { clear -Hlt. intros x y Hx Hy.
        destruct m as [|[|[|[|?]]]]; [..|lia];
          (destruct x as [|[|[|[|?]]]]; [..|lia]);
          (destruct y as [|[|[|[|?]]]]; [..|lia]); cbn; lia. }
      destruct (decide (player = b)) as [->|Hne].
      * cbn [or_raise]. unfold ret. do 2 f_equal. apply Hpartner; auto.
      * destruct Hplayer as [->|?]; [|done]. unfold ret. do 2 f_equal.
        apply Hpartner; auto.
Qed.

(** X21: in a game of four whose mano is one of the players, the partner a
    player reads the signal of is the player two seats away, on either team:
    [get_covert_signal(p)] returns the signal recorded for [(p + 2) % 4] ([0]
    when none is) and changes nothing; so after [update_covert_signal(p, s)],
    however it ends, the partner of [p] reads [s]. *)
Theorem partner_reads_the_signal (w : World G) (m player : nat) (signal : Z) :
  num_players w.1 = 4 → mano w.1 = Some m → m < 4 → player < 4 →
  get_covert_signal player w
  = (Ok (default 0%Z (covert_signals w.1 !! ((player + 2) mod 4))), w) ∧
  let w' := (update_covert_signal player signal w).2 in
  get_covert_signal ((player + 2) mod 4) w' = (Ok signal, w').
Proof.
  intros Hn Hm Hlt Hp. destruct w as [s g]. cbn [fst] in *.
  split; [by apply get_covert_signal_four with m|]. cbv zeta.
  destruct (update_covert_signal_effect player signal s g)
    as (o & s' & g' & -> & Hframe & _). cbn [snd].
  rewrite (get_covert_signal_four s' g' m).
  - do 2 f_equal. rewrite Hframe. game_simpl.
    replace (((player + 2) mod 4 + 2) mod 4) with player.
    + by rewrite lookup_insert_eq.
    + destruct player as [|[|[|[|?]]]]; [done..|lia].
  - by rewrite Hframe.
  - by rewrite Hframe.
  - done.
  - apply Nat.mod_upper_bound. lia.
Qed.

Lemma get_covert_signal_no_partner (w : World G) (m player : nat) :
  num_players w.1 = 2 ∨ num_players w.1 = 3 → mano w.1 = Some m → m < num_players w.1 →
  ¬ on_team0 w.1 m player →
  get_covert_signal player w = (Raise IndexError, w).
Proof.
  intros Hn Hm Hlt Hteam. destruct w as [s g]. cbn [fst] in *. unfold get_covert_signal.
  rewrite (run_bind_Ok _ _ _ _ _ (team0_of_run s g m Hm ltac:(lia))).
  rewrite run_bind_get_self. cbn [fst].
  rewrite decide_False by (by rewrite elem_of_team0).
  erewrite run_bind_Raise; [done|].
  rewrite (run_bind_Ok _ _ _ _ _ (team1_of_run _ s g)), run_bind_set_iter.
  assert (set_order OtherPlayers (s, g)
            (list_to_set (range (num_players s))
               ∖ ({[ m; (m + 2) mod num_players s ]} : gset nat)) !! 1 = None) as ->;
    [|done].
  apply lookup_ge_None. rewrite (others_size _ _ m (num_players s) 1); [done|].
  destruct Hn as [Hn|Hn]; rewrite Hn in *.
  - destruct m as [|[|?]]; [..|lia]; reflexivity.
  - destruct m as [|[|[|?]]]; [..|lia]; reflexivity.
Qed.

(** X22: with two or three players the players outside mano's team have no
    partner to read: for such a player [get_covert_signal] raises
    [IndexError], reading the second element of a list of fewer than two, and
    changes nothing. *)
Theorem no_partner_with_two_or_three_players (w : World G) (m player : nat) :
  num_players w.1 = 2 ∨ num_players w.1 = 3 → mano w.1 = Some m → m < num_players w.1 →
  ¬ on_team0 w.1 m player →
  get_covert_signal player w = (Raise IndexError, w).
Proof. apply get_covert_signal_no_partner. Qed.

Lemma intercepted_view_run (covert : gmap nat Z) (opponents : list nat) (d0 : pydict nat Z)
    (w : World G) :
  covert_signals w.1 = covert →
  (∀ q, q ∈ opponents → is_Some (covert !! q)) →
  ∃ d, for_fold opponents d0 (λ intercepted opponent,
         let* self := get_self in
         let* sent := or_raise KeyError (covert_signals self !! opponent) in
         ret (dict_set opponent sent intercepted)) w = (Ok d, w) ∧
       ∀ q, dict_get q d = if decide (q ∈ opponents) then covert !! q else dict_get q d0.
Proof.
  intros Hcov. revert d0. induction opponents as [|opponent rest IH]; intros d0 Hall.
  - exists d0. split; [done|]. intros q. by rewrite decide_False by apply not_elem_of_nil.
  - cbn [for_fold].
    destruct (Hall opponent ltac:(left)) as [sent Hsent].
    erewrite run_bind_Ok; cycle 1.
    { rewrite run_bind_get_self, Hcov, Hsent. reflexivity. }
    destruct (IH (dict_set opponent sent d0)) as (d & Hrun & Hd).
    { intros q Hq. apply Hall. by right. }
    exists d. split; [done|]. intros q. rewrite Hd.
    destruct (decide (q ∈ rest)) as [Hin|Hnin].
    + by rewrite decide_True by (by right).
    + destruct (decide (q = opponent)) as [->|Hne].
      * rewrite decide_True by left. by rewrite dict_get_set_eq.
      * rewrite decide_False by (by intros [?|?]%elem_of_cons).
        by rewrite dict_get_set_ne.
Qed.

Lemma get_intercepted_signals_run (o : nat) (seen : gset nat) (w : World G) :
  intercepted_signals w.1 !! o = Some seen →
  (∀ q, q ∈ seen → is_Some (covert_signals w.1 !! q)) →
  ∃ d, get_intercepted_signals o w = (Ok d, w) ∧
       ∀ q, dict_get q d = if decide (q ∈ seen) then covert_signals w.1 !! q else None.
Proof.
  intros Hseen Hall. unfold get_intercepted_signals. rewrite run_bind_get_self, Hseen.
  rewrite run_bind_or_raise_Some, run_bind_set_iter.
  destruct (intercepted_view_run (covert_signals w.1) (set_order (InterceptedBy o) w seen)
              [] w eq_refl)
    as (d & Hrun & Hd).
  { intros q Hq. apply Hall. by apply elem_of_set_order in Hq. }
  exists d. split; [done|]. intros q. rewrite Hd.
  destruct (decide (q ∈ seen)) as [Hin|Hnin].
  - by rewrite decide_True by (by apply elem_of_set_order).
  - by rewrite decide_False by (by rewrite elem_of_set_order).
Qed.

(** X23: an interception is for good. Once [player] is in the set of senders
    that [o] has intercepted, every later signal of [player] is visible to
    [o] without any new draw: after [update_covert_signal(player, s)],
    however it ends and whatever the chance, [get_intercepted_signals(o)]
    maps [player] to [s], and the other intercepted senders to their signals
    as before. *)
Theorem interceptor_sees_later_signals (player o : nat) (signal : Z) (seen : gset nat)
    (w : World G) :
  intercepted_signals w.1 !! o = Some seen → player ∈ seen →
  (∀ q, q ∈ seen → is_Some (covert_signals w.1 !! q)) →
  let w' := (update_covert_signal player signal w).2 in
  ∃ d, get_intercepted_signals o w' = (Ok d, w') ∧
       dict_get player d = Some signal ∧
       (∀ q, q ≠ player → dict_get q d = if decide (q ∈ seen) then covert_signals w.1 !! q
                                          else None).
Proof.
  intros Hseen Hplayer Hall. cbv zeta. destruct w as [s g].
  destruct (update_covert_signal_effect player signal s g)
    as (out & s' & g' & -> & Hframe & Hint & _). cbn [fst snd] in *.
  assert (intercepted_signals s' !! o = Some seen) as Hseen'.
  { destruct (Hint o) as [->|(seen0 & Hs0 & ->)]; [done|].
    rewrite Hseen in Hs0. injection Hs0 as <-. f_equal.
    apply leibniz_equiv. intros x. rewrite elem_of_union, elem_of_singleton.
    split; [intros [->|?]; done|tauto]. }
  assert (covert_signals s' = <[player := signal]> (covert_signals s)) as Hcov
    by (by rewrite Hframe).
  destruct (get_intercepted_signals_run o seen (s', g') Hseen') as (d & Hrun & Hd).
  { intros q Hq. cbn [fst]. rewrite Hcov. destruct (decide (q = player)) as [->|Hne].
    - rewrite lookup_insert_eq. by eexists.
    - rewrite lookup_insert_ne by done. by apply Hall. }
  exists d. split; [done|]. cbn [fst] in Hd. split.
  - rewrite Hd, decide_True by done. rewrite Hcov. apply lookup_insert_eq.
  - intros q Hq. rewrite Hd, Hcov. by rewrite lookup_insert_ne.
Qed.

End Signals.

(** Player 0 of the game of four signals 5; player 2 reads it. *)
Lemma partner_reads_the_signal_witness :
  get_covert_signal 0 ordago_game
  = (Ok (default 0%Z (covert_signals ordago_game.1 !! ((0 + 2) mod 4))), ordago_game) ∧
  let w' := (update_covert_signal 0 5 ordago_game).2 in
  get_covert_signal ((0 + 2) mod 4) w' = (Ok 5%Z, w').
Proof.
  apply (partner_reads_the_signal ordago_game 1 0 5); [reflexivity|reflexivity|lia|lia].
Defined.

(** Two players, mano is player 1: player 0 has no partner. *)
Lemma no_partner_with_two_or_three_players_witness :
  get_covert_signal 0 (tied_game, 0) = (Raise IndexError, (tied_game, 0)).
Proof.
  apply (no_partner_with_two_or_three_players (tied_game, 0) 1 0).
  - left. reflexivity.
  - reflexivity.
  - cbn. lia.
  - intros [Hp|Hp]; vm_compute in Hp; discriminate.
Defined.

(** Player 0 has intercepted player 1, who now signals 3. *)
Lemma interceptor_sees_later_signals_witness :
  let w' := (update_covert_signal 1 3 overheard_game).2 in
  ∃ d, get_intercepted_signals 0 w' = (Ok d, w') ∧
       dict_get 1 d = Some 3%Z ∧
       (∀ q, q ≠ 1 → dict_get q d = if decide (q ∈ ({[ 1 ]} : gset nat))
                                     then covert_signals overheard_game.1 !! q
                                     else None).
Proof.
  apply (interceptor_sees_later_signals 1 0 3 {[ 1 ]} overheard_game).
  - reflexivity.
  - by apply elem_of_singleton.
  - intros q ->%elem_of_singleton. by eexists.
Defined.

(** ** The simulated betting round *)

Lemma get_winner_no_bets (br : BettingRound) :
  (∀ q b, (q, b) ∈ bets br → b = None) → get_winner br = (None, None).
Proof.
  intros Hnone. unfold get_winner.
  assert (list_find (λ pb : nat * option BetValue, pb.2 = Some OrdagoBet) (bets br) = None)
    as ->.
  { apply list_find_None, Forall_forall. intros [q b] Hin Hb. simpl in Hb.
    by rewrite (Hnone q b Hin) in Hb. }
  by rewrite omap_valid_bet_all_none.
Qed.

Lemma get_winner_first_bet (br : BettingRound) (player : nat) (x : Z)
    (d : pydict nat (option BetValue)) :
  (∀ q b, (q, b) ∈ d → b = None) → player ∈ d.*1 →
  bets br = dict_set player (Some (Amount x)) d →
  get_winner br = (Some player, Some (Amount (current_bet br))).
Proof.
  intros Hnone Hkey Hbets. unfold get_winner.
  assert (list_find (λ pb : nat * option BetValue, pb.2 = Some OrdagoBet) (bets br) = None)
    as ->.
  { apply list_find_None, Forall_forall. intros [q b] Hin Hb. simpl in Hb. subst b.
    rewrite Hbets in Hin. apply elem_of_dict_set_inv in Hin as [Heq|Hin]; [congruence|].
    by specialize (Hnone q _ Hin). }
  by rewrite Hbets, omap_valid_bet_first.
Qed.

Section SimulatedRound.
Context {G : Type} `{RandomSource G} `{SetOrder G}.

(** What the pass over the turn order leaves when it starts from a round at
    the opening bet in which nobody has bet: nobody has bet and there is no
    winner, or one player has, at a stake of 1, 2 or 3, and wins. *)
Lemma betting_pass_winner (rest : list nat) (br br1 : BettingRound) (w w1 : World G) :
  round_in_pass rest br → current_bet br = 1%Z →
  betting_pass rest br w = (Ok br1, w1) →
  get_winner br1 = (None, None) ∨
  ∃ p x, get_winner br1 = (Some p, Some (Amount x)) ∧ p ∈ (active br).*1 ∧ (1 ≤ x ≤ 3)%Z.
Proof.
  revert br w. induction rest as [|player rest IH]; intros br w Hinv Hcur Hrun.
  - cbn [betting_pass] in Hrun. injection Hrun as <- <-. left.
    apply get_winner_no_bets. intros q b Hq. apply (rip_no_bets _ _ Hinv q).
    apply dict_get_elem_NoDup; [|done]. rewrite (rip_keys _ _ Hinv). apply Hinv.
  - pose proof Hinv as [Hnd Hkeys Hnone Hact Hrest].
    assert (∀ q b, (q, b) ∈ bets br → b = None) as Hnone'.
    { intros q b Hq. apply (Hnone q). apply dict_get_elem_NoDup; [|done]. by rewrite Hkeys. }
    destruct (dict_get_is_Some player (active br)) as [a Ha]; [apply Hrest; left|].
    assert (player ∈ (active br).*1) as Hkey by (apply Hrest; left).
    cbn [betting_pass] in Hrun. rewrite Ha, run_bind_or_raise_Some in Hrun.
    destruct a; cbn [negb] in Hrun.
    2: { apply (IH br w); [|done..]. split; try done.
         - intros q Hq. specialize (Hact q Hq).
           apply elem_of_cons in Hact as [->|?]; [congruence|done].
         - intros p Hp. apply Hrest. by right. }
    destruct (random_choice_run ["bet"; "raise"; "call"; "pass"] w) as (action & g1 & Hch & Hin);
      [done|].
    rewrite (run_bind_Ok _ _ _ _ _ Hch) in Hrun.
    repeat (apply elem_of_cons in Hin as [->|Hin]); [..|by apply elem_of_nil in Hin];
      cbn [String.eqb Ascii.eqb Bool.eqb] in Hrun.
    + (* bet *)
      unfold player_action in Hrun. rewrite Ha in Hrun.
      cbn [String.eqb Ascii.eqb Bool.eqb] in Hrun. rewrite Hcur in Hrun.
      change (1 =? 0)%Z with false in Hrun. cbv iota in Hrun.
      rewrite run_bind_lift_Ok in Hrun.
      match type of Hrun with context [bind (lift_outcome (is_round_complete ?b)) _ _] =>
        destruct (bet_recorded_completes (player :: rest) br b player (current_bet br))
          as (Hc & _); [done..|];
        rewrite Hc, run_bind_lift_Ok in Hrun; injection Hrun as <- <-;
        right; exists player, 1%Z;
        rewrite (get_winner_first_bet b player (current_bet br) (bets br)) by
          (try done; by rewrite Hkeys)
      end.
      cbn. rewrite Hcur. split; [done|]. split; [done|lia].
    + (* raise *)
      destruct (random_choice_run [1; 2]%Z (w.1, g1)) as (amount & g2 & Hch2 & Ham); [done|].
      assert (bind (random_choice [1; 2]%Z)
                (λ amount, lift_outcome (player_action player "raise" amount br)) (w.1, g1)
              = (Ok (with_last_raiser (Some player)
                       (with_bets (dict_set player (Some (Amount (current_bet br + amount)))
                                     (bets br))
                          (with_current_bet (current_bet br + amount) br))), (w.1, g2)))
        as Hraise.
      { rewrite (run_bind_Ok _ _ _ _ _ Hch2). by rewrite (player_action_raise _ _ _ Ha). }
      rewrite (run_bind_Ok _ _ _ _ _ Hraise) in Hrun.
      match type of Hrun with context [bind (lift_outcome (is_round_complete ?b)) _ _] =>
        destruct (bet_recorded_completes (player :: rest) br b player
                    (current_bet br + amount)) as (Hc & _); [done..|];
        rewrite Hc, run_bind_lift_Ok in Hrun; injection Hrun as <- <-;
        right; exists player, (1 + amount)%Z;
        rewrite (get_winner_first_bet b player (current_bet br + amount) (bets br)) by
          (try done; by rewrite Hkeys)
      end.
      cbn. rewrite Hcur. split; [done|]. split; [done|].
      repeat (apply elem_of_cons in Ham as [->|Ham]); [lia..|by apply elem_of_nil in Ham].
    + (* call *)
      unfold player_action in Hrun. rewrite Ha in Hrun.
      cbn [String.eqb Ascii.eqb Bool.eqb] in Hrun. rewrite run_bind_lift_Ok in Hrun.
      match type of Hrun with context [bind (lift_outcome (is_round_complete ?b)) _ _] =>
        destruct (bet_recorded_completes (player :: rest) br b player (current_bet br))
          as (Hc & _); [done..|];
        rewrite Hc, run_bind_lift_Ok in Hrun; injection Hrun as <- <-;
        right; exists player, 1%Z;
        rewrite (get_winner_first_bet b player (current_bet br) (bets br)) by
          (try done; by rewrite Hkeys)
      end.
      cbn. rewrite Hcur. split; [done|]. split; [done|lia].
    + (* pass *)
      unfold player_action in Hrun. rewrite Ha in Hrun.
      cbn [String.eqb Ascii.eqb Bool.eqb] in Hrun. rewrite run_bind_lift_Ok in Hrun.
      set (br' := with_active (dict_set player false (active br)) br) in *.
      assert ((active br').*1 = (active br).*1) as Hk' by by apply dict_set_keys.
      destruct (is_round_complete_defined br') as [c Hc]; [by rewrite Hk'|].
      rewrite Hc, run_bind_lift_Ok in Hrun. destruct c.
      * injection Hrun as <- <-. left. by apply get_winner_no_bets.
      * rewrite <- Hk'. apply (IH br' (w.1, g1)); [|done..].
        split; try done.
        -- by rewrite Hk'.
        -- by rewrite Hk'.
        -- intros q. cbn. destruct (decide (player = q)) as [->|Hne].
           ++ by rewrite dict_get_set_eq.
           ++ rewrite dict_get_set_ne by done. intros Hq. specialize (Hact q Hq).
              apply elem_of_cons in Hact as [->|?]; done.
        -- intros p Hp. rewrite Hk'. apply Hrest. by right.
Qed.

Lemma simulated_round_result (fuel : nat) (play : string) (w : World G) :
  ∃ result g1, run_detailed_betting_round (S (S fuel)) play w = (Ok result, (w.1, g1)) ∧
    (result = (None, None) ∨
     ∃ p x, result = (Some p, Some (Amount x)) ∧ p ∈ turn_order w.1 ∧ (1 ≤ x ≤ 3)%Z).
Proof.
  destruct (simulated_round_returns fuel play w) as (result & g1 & Hrun & Hno).
  exists result, g1. split; [done|].
  unfold run_detailed_betting_round in Hrun. rewrite run_bind_get_self in Hrun.
  destruct (betting_loop_returns fuel play w) as (br1 & g1' & Hloop & Hnob).
  rewrite (run_bind_Ok _ _ _ _ _ Hloop) in Hrun. cbv zeta in Hrun.
  assert ((get_winner br1).2 ≠ Some OrdagoBet) as Hres.
  { unfold get_winner.
    destruct (list_find _ (bets br1)) as [[i [q b]]|] eqn:Hf.
    - apply list_find_Some in Hf as (Hi & Hb & _). simpl in Hb. subst b.
      apply list_elem_of_lookup_2 in Hi. by apply Hnob in Hi.
    - by destruct (py_max_by snd (omap valid_bet (bets br1))) as [[]|]. }
  rewrite decide_False, run_bind_ret in Hrun by done.
  assert (result = get_winner br1) as -> by (by injection Hrun).
  clear Hrun Hno Hres.
  set (br0 := BettingRound_init (turn_order w.1) play 1) in *.
  pose proof (init_round_in_pass (turn_order w.1) play 1) as Hinv. fold br0 in Hinv.
  assert (∀ p, p ∈ (active br0).*1 → p ∈ turn_order w.1) as Hkeys.
  { destruct (init_round_keys (turn_order w.1) play 1) as (ks & _ & Ha & _ & Hin).
    fold br0 in Ha. rewrite Ha, fmap_pair_keys. intros p. apply Hin. }
  cbn [betting_loop] in Hloop. change (finished br0) with false in Hloop. cbv iota in Hloop.
  destruct (is_round_complete_defined br0) as [c0 Hc0]; [apply Hinv|].
  rewrite Hc0, run_bind_lift_Ok in Hloop. destruct c0.
  - injection Hloop as <- _. left. apply get_winner_no_bets.
    intros q b Hq. apply (rip_no_bets _ _ Hinv q).
    apply dict_get_elem_NoDup; [|done]. rewrite (rip_keys _ _ Hinv). apply Hinv.
  - rewrite run_bind_get_self in Hloop.
    destruct (betting_pass_completes (turn_order w.1) br0 w Hinv)
      as (br2 & w2 & Hpass & Hc2 & _).
    rewrite (run_bind_Ok _ _ _ _ _ Hpass) in Hloop.
    cbn [betting_loop] in Hloop.
    assert (br1 = br2) as ->.
    { destruct (finished br2); [by injection Hloop|].
      rewrite Hc2, run_bind_lift_Ok in Hloop. by injection Hloop. }
    destruct (betting_pass_winner _ _ _ _ _ Hinv eq_refl Hpass) as [?|(p & x & ? & Hp & ?)];
      [by left|right]. exists p, x. split; [done|]. split; [by apply Hkeys|done].
Qed.

(** X24: the betting round that [run_detailed_betting_round] simulates
    always returns, after at most one pass over the turn order, and leaves
    the game object as it was (only the generator has advanced). Its result
    is [(None, None)], or a player of the turn order with a stake of 1, 2 or
    3: never ['ordago'], so it never sets [ordago_active]. *)
Theorem simulated_round_names_a_small_stake (fuel : nat) (play : string) (w : World G) :
  ∃ result g1, run_detailed_betting_round (S (S fuel)) play w = (Ok result, (w.1, g1)) ∧
    (result = (None, None) ∨
     ∃ p x, result = (Some p, Some (Amount x)) ∧ p ∈ turn_order w.1 ∧ (1 ≤ x ≤ 3)%Z).
Proof. apply simulated_round_result. Qed.

End SimulatedRound.

(** ** The play phase and the scoring of a round without ordago *)


Section PlayPhase.
Context {G : Type} `{RandomSource G} `{SetOrder G}.






Lemma play_loop_run (fuel : nat) (plays : list string) (s : MusGame) (g : G) :
  ordago_active s = false →
  (∀ play r p, play_results s !! play = Some r → r.1 = Some p → p ∈ turn_order s) →
  ∃ results g',
    play_loop (S (S fuel)) plays (s, g) = (Ok tt, (with_play_results results s, g')) ∧
    (∀ play r p, results !! play = Some r → r.1 = Some p → p ∈ turn_order s).
Proof.
  revert s g. induction plays as [|play plays IH]; intros s g Hflag Hres.
  - exists (play_results s), g. split; [|done]. cbn [play_loop]. unfold ret.
    do 2 f_equal. by destruct s.
  - cbn [play_loop].
    destruct (simulated_round_result fuel play (s, g)) as (result & g1 & Hround & Hshape).
    rewrite (run_bind_Ok _ _ _ _ _ Hround), run_bind_modify_self, run_bind_get_self.
    game_simpl. rewrite Hflag.
    destruct (IH (with_play_results (<[play := result]> (play_results s)) s) g1)
      as (results & g' & Hloop & Hok).
    { done. }
    { game_simpl. intros play' r p. destruct (decide (play = play')) as [->|Hne].
      - rewrite lookup_insert_eq. intros [= <-] Hp.
        destruct Hshape as [->|(q & x & -> & Hq & _)]; [done|]. by injection Hp as <-.
      - rewrite lookup_insert_ne by done. apply Hres. }
    exists results, g'. split; [|done]. rewrite Hloop. by destruct s.
Qed.


End PlayPhase.

Section PlayPhaseTheorems.
Context {G : Type} `{RandomSource G} `{SetOrder G}.


End PlayPhaseTheorems.



(** ** The environment: observations *)

Lemma lookup_init_map {V} (n : nat) (v : V) (p : nat) :
  p < n →
  (list_to_map ((λ player, (player, v)) <$> range n) : gmap nat V) !! p = Some v.
Proof.
  intros Hp. apply elem_of_list_to_map_1.
  - rewrite <- list_fmap_compose. unfold compose. simpl. rewrite list_fmap_id.
    apply NoDup_seq.
  - apply list_elem_of_fmap. exists p. split; [done|]. apply elem_of_seq. lia.
Qed.

Lemma dict_all_none {K V} `{EqDecision K} (d : pydict K V) :
  (∀ k, dict_get k d = None) → d = [].
Proof.
  destruct d as [|[k v] d]; [done|]. intros Hd. specialize (Hd k). simpl in Hd.
  by rewrite decide_True in Hd.
Qed.

Lemma rotate_range (m n : nat) : rotate m (range n) ≡ₚ range n.
Proof. unfold rotate. rewrite Permutation_app_comm. by rewrite take_drop. Qed.

Section Observations.
Context {G : Type} `{RandomSource G} `{SetOrder G}.

(** Reading a game does not change it. *)
Lemma keeps_get_covert_signal (w0 : World G) (player : nat) :
  keeps (λ w, w = w0) (get_covert_signal player).
Proof. unfold get_covert_signal, team0_of, team1_of. keeps_auto. Qed.

Lemma keeps_get_intercepted_signals (w0 : World G) (player : nat) :
  keeps (λ w, w = w0) (get_intercepted_signals player).
Proof. unfold get_intercepted_signals. keeps_auto. Qed.

Lemma keeps_get_observation (w0 : World G) (player : nat) :
  keeps (λ w, w = w0) (get_observation player).
Proof.
  unfold get_observation.
  pose proof (keeps_get_covert_signal w0 player).
  pose proof (keeps_get_intercepted_signals w0 player).
  keeps_auto; done.
Qed.

(** The observation of a player of a game of four. *)
Lemma get_observation_four (s : MusGame) (g : G) (m player : nat) (hand : list Card)
    (seen : gset nat) :
  num_players s = 4 → mano s = Some m → m < 4 → player < 4 →
  hands s !! player = Some hand →
  intercepted_signals s !! player = Some seen →
  (∀ q, q ∈ seen → is_Some (covert_signals s !! q)) →
  ∃ intercepted,
    get_observation player (s, g)
    = (Ok {| obs_hand := order <$> hand;
             obs_phase := default 0%Z (dict_get (current_phase s) phase_encoding);
             obs_partner_signal := default 0%Z (covert_signals s !! ((player + 2) mod 4));
             obs_intercepted_signals := intercepted;
             obs_scores := [(scores s).1; (scores s).2];
             obs_betting_info := [] |}, (s, g)) ∧
    ∀ q, dict_get q intercepted = if decide (q ∈ seen) then covert_signals s !! q else None.
Proof.
  intros Hn Hm Hlt Hp Hhand Hseen Hcov. unfold get_observation.
  rewrite run_bind_get_self. cbn [fst]. rewrite Hhand, run_bind_or_raise_Some. cbv zeta.
  rewrite (run_bind_Ok _ _ _ _ _ (get_covert_signal_four s g m player Hn Hm Hlt Hp)).
  destruct (get_intercepted_signals_run player seen (s, g) Hseen Hcov) as (d & Hrun & Hd).
  rewrite (run_bind_Ok _ _ _ _ _ Hrun), run_bind_get_self. cbn [fst].
  by exists d.
Qed.

(** X26: [MusEnv.reset] with four players never fails. It returns one
    observation per player, in player order; each holds the orders of the
    four cards of the hand (numbers from 2 to 9), phase 1 (['mus']), partner
    signal 0, no intercepted signal, scores [[0, 0]] and an empty
    [betting_info]; the game it leaves has its players seated, no ordago
    declared and the default target of 40. *)
Theorem reset_observes_four_hands (w : World G) :
  ∃ observations w',
    MusEnv_reset 4 w = (Ok observations, w') ∧
    observations.*1 = [0; 1; 2; 3] ∧
    (∀ player o, (player, o) ∈ observations →
       (∃ hand, hands w'.1 !! player = Some hand ∧ obs_hand o = order <$> hand) ∧
       length (obs_hand o) = 4 ∧ Forall (λ x, (2 ≤ x ≤ 9)%Z) (obs_hand o) ∧
       obs_phase o = 1%Z ∧ obs_partner_signal o = 0%Z ∧ obs_intercepted_signals o = [] ∧
       obs_scores o = [0; 0]%Z ∧ obs_betting_info o = []) ∧
    seated w'.1 ∧ ordago_active w'.1 = false ∧ target_score w'.1 = 40%Z ∧
    current_phase w'.1 = "mus".
Proof.
  unfold MusEnv_reset.
  assert (new_game 4 w = (Ok tt, MusGame_init 4 40 (1 # 5) w.2)) as Hnew by done.
  rewrite (run_bind_Ok _ _ _ _ _ Hnew).
  destruct (initial_deal_run 4 40 (1 # 5) w.2 ltac:(lia) ltac:(lia))
    as (m & Hm & _ & _ & Hdeal). cbv zeta in Hdeal.
  rewrite (run_bind_Ok _ _ _ _ _ Hdeal).
  pose proof (MusGame_init_deck_length 4 40 (1 # 5) w.2) as Hlen.
  set (w0 := MusGame_init 4 40 (1 # 5) w.2) in *.
  set (s' := with_hands_revealed (Some false) _).
  assert (∀ p, p < 4 → hands s' !! p = Some (take 4 (drop (4 * p) (deck w0.1)))) as Hh.
  { intros p Hp. subst s'. game_simpl. by rewrite dealt_hands_lookup, decide_True by lia. }
  assert (∀ p, p < 4 → intercepted_signals s' !! p = Some ∅) as Hi.
  { intros p Hp. subst s'. game_simpl. by apply (lookup_init_map 4). }
  assert (∀ p, p < 4 → covert_signals s' !! p = Some 0%Z) as Hc.
  { intros p Hp. subst s'. game_simpl. by apply (lookup_init_map 4). }
  set (observe := λ p, (p, {| obs_hand := order <$> take 4 (drop (4 * p) (deck w0.1));
                              obs_phase := 1%Z; obs_partner_signal := 0%Z;
                              obs_intercepted_signals := []; obs_scores := [0; 0]%Z;
                              obs_betting_info := [] |})).
  assert (comprehension (range 4) (λ player,
            let* observation := get_observation player in ret (player, observation))
            (s', w0.2) = (Ok (observe <$> range 4), (s', w0.2))) as Hobs.
  { apply comprehension_Ok. intros p Hp. apply elem_of_seq in Hp.
    destruct (get_observation_four s' w0.2 m p _ ∅ eq_refl eq_refl Hm ltac:(lia)
                (Hh p ltac:(lia)) (Hi p ltac:(lia))) as (d & Hrun & Hd).
    { intros q Hq. by apply elem_of_empty in Hq. }
    rewrite (run_bind_Ok _ _ _ _ _ Hrun). unfold ret, observe.
    assert (default 0%Z (dict_get (current_phase s') phase_encoding) = 1%Z) as ->
      by reflexivity.
    assert (default 0%Z (covert_signals s' !! ((p + 2) mod 4)) = 0%Z) as ->.
    { rewrite Hc; [done|]. apply Nat.mod_upper_bound. lia. }
    assert (d = []) as ->.
    { apply dict_all_none. intros q. by rewrite Hd. }
    assert (scores s' = (0, 0)%Z) as -> by reflexivity.
    done. }
  rewrite Hobs. eexists _, _. split; [reflexivity|]. cbn [fst snd].
  split; [done|]. split.
  - intros player o Hin. apply list_elem_of_fmap in Hin as (p & [= -> ->] & Hp).
    apply elem_of_seq in Hp. subst observe. cbn [obs_hand obs_phase obs_partner_signal
      obs_intercepted_signals obs_scores obs_betting_info].
    split; [eexists; by rewrite Hh by lia|]. split.
    { change (length (order <$> take 4 (drop (4 * p) (deck w0.1))) = 4).
      rewrite length_fmap, (dealt_hand_length _ p Hlen). lia. }
    split; [|done]. apply Forall_fmap, Forall_forall. intros c _. apply order_range.
  - split; [|subst s'; by game_simpl]. split.
    + exists m. subst s'. by game_simpl.
    + intros p Hp. change (num_players s') with 4 in Hp. rewrite Hh by done. by eexists.
    + intros p Hp. subst s'. game_simpl.
      change (p ∈ rotate m (range 4)) in Hp. change (p < 4).
      rewrite rotate_range in Hp. apply elem_of_seq in Hp. lia.
Qed.

End Observations.

(** ** The environment: an episode never ends *)

Lemma for_fold_count {S A} (I : S → Prop) (l : list A) (body : Z * Z → A → M S (Z * Z)) :
  (∀ acc x, hoare I (body acc x)
              (λ acc' s, I s ∧ (acc.1 ≤ acc'.1)%Z ∧ (acc.2 ≤ acc'.2)%Z ∧
                         (acc'.1 + acc'.2 ≤ acc.1 + acc.2 + 1)%Z) I) →
  ∀ acc, hoare I (for_fold l acc body)
           (λ acc' s, I s ∧ (acc.1 ≤ acc'.1)%Z ∧ (acc.2 ≤ acc'.2)%Z ∧
                      (acc'.1 + acc'.2 ≤ acc.1 + acc.2 + Z.of_nat (length l))%Z) I.
Proof.
  intros Hbody. induction l as [|x l IH]; intros acc; cbn [for_fold].
  - apply hoare_ret. intros s Hs. cbn [length]. split; [done|]. lia.
  - eapply hoare_bind; [apply Hbody|]. intros acc1.
    apply hoare_intro_pre. intros s0 (Hs0 & H1 & H2 & H3).
    eapply hoare_weaken; [apply (IH acc1)|by intros ? ->|..|done].
    intros acc2 s (Hs & H4 & H5 & H6). cbn [length]. split; [done|]. lia.
Qed.

Lemma keeps_readonly {S A} (I : S → Prop) (m : M S A) :
  (∀ s0, keeps (λ s, s = s0) m) → keeps I m.
Proof.
  intros Hm s Hs. specialize (Hm s s eq_refl).
  destruct (m s) as [[?| |] s']; by subst.
Qed.

Section Episode.
Context {G : Type} `{RandomSource G} `{SetOrder G}.

Lemma keeps_team0_of (w0 : World G) : keeps (λ w, w = w0) team0_of.
Proof. unfold team0_of. keeps_auto. Qed.

Lemma keeps_team1_of (w0 : World G) (team0 : gset nat) :
  keeps (λ w, w = w0) (team1_of team0).
Proof. unfold team1_of. keeps_auto. Qed.

Lemma keeps_best_player_of (w0 : World G) (play : string) :
  keeps (λ w, w = w0) (best_player_of play).
Proof. unfold best_player_of, evaluations_of. keeps_auto. Qed.

Lemma round_scores_bound (team0 team1 : gset nat) (w0 : World G) :
  ordago_active w0.1 = false →
  hoare (λ w, w = w0) (round_scores team0 team1)
        (λ rs w, w = w0 ∧ (0 ≤ rs.1)%Z ∧ (0 ≤ rs.2)%Z ∧
                 (rs.1 + rs.2 ≤ Z.of_nat (length (play_categories w0.1)))%Z)
        (λ w, w = w0).
Proof.
  intros Hflag. unfold round_scores.
  apply hoare_bind with (λ self w, self = w.1 ∧ w = w0); [apply hoare_get_self|].
  intros self. apply hoare_intro_pre. intros w1 [-> ->]. rewrite Hflag.
  eapply hoare_weaken;
    [apply (for_fold_count (λ w, w = w0))|by intros ? ->|
     intros rs w (Hw & H1 & H2 & H3); cbn [fst snd] in *; split; [done|lia]|done].
  intros acc play.
  apply hoare_bind_keeps with (λ w, w = w0); [apply keeps_get_self|done..|].
  intros self. cbv zeta.
  apply hoare_bind_keeps with (λ w, w = w0); [apply keeps_best_player_of|done..|].
  intros best_player.
  repeat case_match; repeat case_decide; apply hoare_ret; intros s Hs;
    (split; [done|]); cbn [fst snd]; lia.
Qed.

Lemma score_round_bound (s : MusGame) (g : G) :
  ordago_active s = false →
  match score_round (s, g) with
  | (Ok _, w') =>
      ∃ a b : Z, w' = (with_current_phase "deal"
                         (with_scores ((scores s).1 + a, (scores s).2 + b)%Z s), g) ∧
                 (0 ≤ a)%Z ∧ (0 ≤ b)%Z ∧ (a + b ≤ Z.of_nat (length (play_categories s)))%Z
  | (_, w') => w' = (s, g)
  end.
Proof.
  intros Hflag.
  assert (hoare (λ w, w = (s, g)) score_round
            (λ _ w', ∃ a b : Z,
               w' = (with_current_phase "deal"
                       (with_scores ((scores s).1 + a, (scores s).2 + b)%Z s), g) ∧
               (0 ≤ a)%Z ∧ (0 ≤ b)%Z ∧ (a + b ≤ Z.of_nat (length (play_categories s)))%Z)
            (λ w', w' = (s, g))) as Hh.
  { unfold score_round.
    apply hoare_bind_keeps with (λ w, w = (s, g)); [|done..|].
    { apply keeps_team0_of. }
    intros team0.
    apply hoare_bind_keeps with (λ w, w = (s, g)); [|done..|].
    { apply keeps_team1_of. }
    intros team1.
    eapply hoare_bind; [apply (round_scores_bound team0 team1 (s, g) Hflag)|].
    intros [a b]. intros w (-> & Ha & Hb & Hsum). cbn [fst snd] in *.
    exists a, b. split; [|done]. reflexivity. }
  specialize (Hh (s, g) eq_refl). by destruct (score_round (s, g)) as [[[]| |] w'].
Qed.

(** The play phase of a game in which no stone is scored yet. *)
Lemma start_play_phase_one_round (fuel : nat) (w : World G) :
  target_score w.1 = 40%Z → ordago_active w.1 = false → scores w.1 = (0, 0)%Z →
  one_round_at_most (start_play_phase (S (S fuel)) w).2.1.
Proof.
  destruct w as [s g]. cbn [fst]. intros Ht Hflag Hs. unfold start_play_phase.
  rewrite !run_bind_modify_self, run_bind_get_self. game_simpl.
  set (s0 := with_play_results ∅
               (with_play_categories ["grande"; "chica"; "pares"; "juego"]
                  (with_current_phase "play" s))).
  destruct (play_loop_run fuel ["grande"; "chica"; "pares"; "juego"] s0 g)
    as (results & g' & Hloop & _); [done|done|].
  rewrite (run_bind_Ok _ _ _ _ _ Hloop), run_bind_modify_self. game_simpl.
  set (s1 := with_current_phase "scoring" (with_play_results results s0)).
  pose proof (score_round_bound s1 g' Hflag) as Hsr.
  destruct (score_round (s1, g')) as [[[]| |] w'].
  - destruct Hsr as (a & b & -> & Ha & Hb & Hsum). cbn [fst snd].
    subst s1 s0. unfold one_round_at_most. game_simpl.
    split; [done|]. split; [done|]. right. rewrite Hs. cbn [fst snd length] in *.
    split; [done|]. lia.
  - subst w'. cbn [fst snd]. split; [done|]. split; [done|]. by left.
  - subst w'. cbn [fst snd]. split; [done|]. split; [done|]. by left.
Qed.

Lemma keeps_unscored_update_covert_signal (player : nat) (signal : Z) :
  keeps (λ w : World G, target_score w.1 = 40%Z ∧ ordago_active w.1 = false ∧
                        scores w.1 = (0, 0)%Z)
        (update_covert_signal player signal).
Proof.
  intros [s g] Hw.
  destruct (update_covert_signal_effect player signal s g)
    as (o & s' & g' & -> & Hframe & _).
  assert (target_score s' = 40%Z ∧ ordago_active s' = false ∧ scores s' = (0, 0)%Z)
    by (by rewrite Hframe).
  by destruct o.
Qed.

Lemma keeps_unscored_perform_discard (player : nat) (cs : list nat) :
  keeps (λ w : World G, target_score w.1 = 40%Z ∧ ordago_active w.1 = false ∧
                        scores w.1 = (0, 0)%Z)
        (perform_discard player cs).
Proof.
  intros w Hw. destruct (hands w.1 !! player) as [hand|] eqn:Hhand.
  - destruct (perform_discard_run player cs w hand Hhand)
      as (new_cards & pre & w' & -> & Hframe & _). by rewrite Hframe.
  - destruct w as [s g]. unfold perform_discard. rewrite run_bind_get_self.
    cbn [fst] in *. by rewrite Hhand.
Qed.

Lemma step_one_round (fuel : nat) (actions : pydict nat Action) :
  keeps (λ w : World G, one_round_at_most w.1) (step (S (S fuel)) actions).
Proof.
  intros [s g] (Ht & Hflag & Hs). cbn [fst] in *. unfold step.
  rewrite run_bind_get_self. cbn [fst].
  assert (∀ phase, (phase =? "deal")%string = false → current_phase s = phase →
            scores s = (0, 0)%Z) as Hunscored.
  { intros phase Hne Hp. destruct Hs as [?|(Hd & _)]; [done|].
    rewrite Hd in Hp. subst phase. done. }
  destruct (current_phase s =? "mus")%string eqn:Hmus.
  { apply String.eqb_eq in Hmus. specialize (Hunscored "mus" eq_refl Hmus).
    set (P := λ w : World G, target_score w.1 = 40%Z ∧ ordago_active w.1 = false ∧
                             scores w.1 = (0, 0)%Z).
    refine ((_ : hoare P _ (λ _ w, one_round_at_most w.1) (λ w, one_round_at_most w.1))
              (s, g) (conj Ht (conj Hflag Hunscored))).
    apply hoare_bind_keeps with P;
      [|done|intros w (? & ? & ?); split; [done|]; split; [done|]; by left|].
    { apply keeps_for_fold. intros info [player action].
      pose proof (keeps_unscored_update_covert_signal player) as Hsig.
      pose proof (keeps_unscored_perform_discard player) as Hdis.
      cbv zeta. cbn [fst snd]. keeps_auto; done. }
    intros info. apply hoare_bind with (λ _ w, one_round_at_most w.1).
    - intros w (Ht' & Hf' & Hs').
      pose proof (start_play_phase_one_round fuel w Ht' Hf' Hs') as Hone.
      destruct (start_play_phase (S (S fuel)) w) as [[[]| |] w']; exact Hone.
    - intros _. by apply hoare_ret. }
  destruct (current_phase s =? "play")%string eqn:Hplay.
  { apply String.eqb_eq in Hplay. specialize (Hunscored "play" eq_refl Hplay).
    pose proof (start_play_phase_one_round fuel (s, g) Ht Hflag Hunscored) as Hone.
    unfold bind. destruct (start_play_phase (S (S fuel)) (s, g)) as [[[]| |] w']; exact Hone. }
  destruct (current_phase s =? "scoring")%string eqn:Hscoring.
  { apply String.eqb_eq in Hscoring. specialize (Hunscored "scoring" eq_refl Hscoring).
    cbn. split; [done|]. split; [done|]. by left. }
  cbn. done.
Qed.

End Episode.

Lemma hoare_comprehension {S A B} (I : S → Prop) (R : B → Prop) (l : list A) (f : A → M S B) :
  (∀ x, hoare I (f x) (λ y s, I s ∧ R y) I) →
  hoare I (comprehension l f) (λ ys s, I s ∧ Forall R ys ∧ length ys = length l) I.
Proof.
  intros Hf. induction l as [|x l IH]; cbn [comprehension].
  - apply hoare_ret. intros s Hs. by repeat split.
  - eapply hoare_bind; [apply Hf|]. intros y.
    apply hoare_intro_pre. intros s0 [Hs0 Hy].
    eapply hoare_bind.
    { eapply hoare_weaken; [apply IH|by intros ? ->|done..]. }
    intros ys. apply hoare_ret. intros s (Hs & Hys & Hlen).
    split; [done|]. split; [by constructor|]. cbn [length]. by rewrite Hlen.
Qed.

Lemma one_round_not_terminal (s : MusGame) : one_round_at_most s → is_terminal s = false.
Proof.
  intros (Ht & _ & Hs). unfold is_terminal. rewrite Ht.
  apply orb_false_iff. rewrite !Z.leb_gt.
  destruct Hs as [->|(_ & ? & ? & ?)]; cbn [fst snd]; lia.
Qed.

Section EpisodeTheorem.
Context {G : Type} `{RandomSource G} `{SetOrder G}.

Lemma MusEnv_step_one_round (fuel n : nat) (actions : pydict nat Action) :
  hoare (λ w : World G, one_round_at_most w.1) (MusEnv_step (S (S fuel)) n actions)
        (λ result w,
           one_round_at_most w.1 ∧
           (∀ k b, (k, b) ∈ step_done result →
                   b = false ∨ (k = NameKey "__all__" ∧ n = 0)) ∧
           (∀ p r, (p, r) ∈ step_rewards result → r = 0%Z))
        (λ w, one_round_at_most w.1).
Proof.
  set (J := λ w : World G, one_round_at_most w.1).
  unfold MusEnv_step.
  apply hoare_bind_keeps with J; [apply keeps_get_self|done..|]. intros self. cbv zeta.
  apply hoare_bind_keeps with J; [apply step_one_round|done..|]. intros _.
  set (Inv := λ (acc : StepResult) (w : World G),
         J w ∧ (∀ k b, (k, b) ∈ step_done acc → b = false) ∧
         (∀ p r, (p, r) ∈ step_rewards acc → r = 0%Z)).
  apply hoare_bind with Inv.
  { eapply hoare_weaken; [apply (hoare_for_fold Inv J)| |done..].
    - intros acc player.
      apply hoare_intro_pre. intros w0 (HJ & Hdone & Hrew).
      apply hoare_bind_keeps with (λ w, w = w0);
        [apply keeps_get_observation|done|by intros ? ->|].
      intros observation.
      apply hoare_bind with (λ reward w, w = w0 ∧ reward = 0%Z);
        [by apply hoare_ret|].
      intros reward. apply hoare_intro_pre. intros ? [-> ->].
      eapply hoare_bind; [apply hoare_get_self|]. intros self'.
      apply hoare_ret. intros w [-> ->]. split; [done|].
      cbn [step_done step_rewards]. split.
      + intros k b [[= -> ->]|Hin]%elem_of_dict_set_inv; [|by apply (Hdone k)].
        by apply one_round_not_terminal.
      + intros p r [[= -> ->]|Hin]%elem_of_dict_set_inv; [done|by apply (Hrew p)].
    - intros w HJ. split; [done|]. split; intros ? ? Hin; by apply elem_of_nil in Hin. }
  intros result. apply hoare_intro_pre. intros w0 (HJ & Hdone & Hrew).
  eapply hoare_bind.
  { eapply hoare_weaken;
      [apply (hoare_comprehension (λ w, w = w0) (λ b, b = false))|done|done|by intros ? ->].
    intros player.
    destruct (dict_get (PlayerKey player) (step_done result)) as [b|] eqn:Hb.
    - apply hoare_ret. intros w ->. split; [done|].
      apply (Hdone (PlayerKey player)). by apply dict_get_Some_elem.
    - by intros w ->. }
  intros flags. apply hoare_ret. intros w (-> & Hflags & Hlen).
  split; [done|]. cbn [step_done step_rewards]. split; [|done].
  intros k b [[= -> ->]|Hin]%elem_of_dict_set_inv; [|left; by apply (Hdone k)].
  unfold range in Hlen. rewrite length_seq in Hlen.
  destruct flags as [|flag flags]; [right; by split|]. left.
  apply Forall_cons in Hflags as [-> _]. done.
Qed.

Lemma reset_one_round (n : nat) (w : World G) : one_round_at_most (MusEnv_reset n w).2.1.
Proof.
  set (P := λ w : World G, target_score w.1 = 40%Z ∧ ordago_active w.1 = false ∧
                           scores w.1 = (0, 0)%Z).
  assert (hoare (λ _, True) (MusEnv_reset n) (λ _, P) P) as Hh.
  { unfold MusEnv_reset.
    apply hoare_bind with (λ _, P); [by intros w0 _|]. intros _.
    change (keeps P (let* _ := initial_deal in
                     comprehension (range n) (λ player,
                       let* observation := get_observation player in
                       ret (player, observation)))).
    assert (keeps P initial_deal) as Hdeal.
    { unfold initial_deal, draw_from_deck, determine_mano, set_turn_order.
      keeps_auto; done. }
    assert (∀ player, keeps P (get_observation player)) as Hobs.
    { intros player. apply keeps_readonly. intros w0. apply keeps_get_observation. }
    keeps_auto; done. }
  specialize (Hh w I). unfold one_round_at_most.
  destruct (MusEnv_reset n w) as [[?| |] w']; cbn [fst snd];
    destruct Hh as (? & ? & ?); split; [done| |done| |done|]; (split; [done|by left]).
Qed.

(** X27: an episode of the environment never ends. After a reset, with any
    number of players and whatever the actions, no sequence of steps makes
    the game terminal: the play phase runs once, awards four stones at most
    against a target of 40, and leaves the game in the ['deal'] phase, where
    every later step does nothing. Every step that returns reports
    [done[player] = False] for every player and a reward of 0, and
    [done['__all__']] is false as well unless there is no player at all. *)
Theorem episode_never_ends (n fuel : nat) (w : World G) (steps : list (pydict nat Action))
    (actions : pydict nat Action) :
  let w' := after_steps (S (S fuel)) n steps (MusEnv_reset n w).2 in
  is_terminal w'.1 = false ∧
  ∀ result, (MusEnv_step (S (S fuel)) n actions w').1 = Ok result →
    (∀ k b, (k, b) ∈ step_done result → b = false ∨ (k = NameKey "__all__" ∧ n = 0)) ∧
    (∀ p r, (p, r) ∈ step_rewards result → r = 0%Z).
Proof.
  cbv zeta.
  assert (one_round_at_most (after_steps (S (S fuel)) n steps (MusEnv_reset n w).2).1) as HJ.
  { unfold after_steps. induction steps as [|acts steps IH] using rev_ind.
    - apply reset_one_round.
    - rewrite foldl_app. cbn [foldl].
      pose proof (MusEnv_step_one_round fuel n acts _ IH) as Hstep.
      destruct (MusEnv_step (S (S fuel)) n acts _) as [[?| |] w1]; cbn [snd];
        [by destruct Hstep|done..]. }
  split; [by apply one_round_not_terminal|].
  intros result Hres.
  pose proof (MusEnv_step_one_round fuel n actions _ HJ) as Hstep.
  destruct (MusEnv_step (S (S fuel)) n actions _) as [[r| |] w1]; [|done..].
  cbn [fst] in Hres. injection Hres as ->. by destruct Hstep as (_ & ? & ?).
Qed.

End EpisodeTheorem.

(** ** The PettingZoo wrapper *)

Lemma agent_name_not_all (i : nat) : agent_name i ≠ "__all__".
Proof. unfold agent_name. cbn. discriminate. Qed.

Lemma by_agent_name_run {S K V} `{EqDecision K} (n : nat) (key : nat → K) (d : pydict K V)
    (s : S) :
  (∃ renamed, by_agent_name n key d s = (Ok renamed, s) ∧ dict_get "__all__" renamed = None)
  ∨ by_agent_name n key d s = (Raise KeyError, s).
Proof.
  unfold by_agent_name.
  assert (dict_get "__all__" ([] : pydict string V) = None) as Hacc by done.
  revert Hacc. generalize ([] : pydict string V). generalize (range n).
  intros l. induction l as [|i l IH]; intros acc Hacc; cbn [for_fold].
  - left. by exists acc.
  - destruct (dict_get (key i) d) as [v|] eqn:Hget.
    + erewrite run_bind_Ok; [|done]. apply IH.
      rewrite dict_get_set_ne; [done|apply agent_name_not_all].
    + right. erewrite run_bind_Raise; [done|done].
Qed.

Lemma named_actions_run {S} (n : nat) (actions : pydict string Action) (s : S) :
  ∃ o, comprehension (range n) (λ i,
         let* action := or_raise KeyError (dict_get (agent_name i) actions) in
         ret (i, action)) s = (o, s).
Proof.
  generalize (range n). intros l. induction l as [|i l IH]; cbn [comprehension].
  - by eexists.
  - destruct (dict_get (agent_name i) actions) as [action|] eqn:Hget.
    + erewrite run_bind_Ok; [|done].
      destruct IH as [[ys| |] IH].
      * rewrite (run_bind_Ok _ _ _ _ _ IH). by eexists.
      * rewrite (run_bind_Raise _ _ _ _ _ IH). by eexists.
      * rewrite (run_bind_OutOfFuel _ _ _ _ IH). by eexists.
    + erewrite run_bind_Raise; [by eexists|done].
Qed.

Section Wrapper.
Context {G : Type} `{RandomSource G} `{SetOrder G}.

Lemma wrapper_step_after_inner (fuel n : nat) (actions : pydict string Action)
    (action_dict : pydict nat Action) (result : StepResult) (w w' : World G) :
  comprehension (range n) (λ i,
    let* action := or_raise KeyError (dict_get (agent_name i) actions) in
    ret (i, action)) w = (Ok action_dict, w) →
  MusEnv_step fuel n action_dict w = (Ok result, w') →
  PettingZooMusEnv_step fuel n actions w = (Raise KeyError, w').
Proof.
  intros Hnamed Hstep. unfold PettingZooMusEnv_step.
  rewrite (run_bind_Ok _ _ _ _ _ Hnamed), (run_bind_Ok _ _ _ _ _ Hstep).
  destruct (by_agent_name_run n id (step_observations result) w') as [(obs & Hobs & _)|Hobs];
    [|by rewrite (run_bind_Raise _ _ _ _ _ Hobs)].
  rewrite (run_bind_Ok _ _ _ _ _ Hobs).
  destruct (by_agent_name_run n id (step_rewards result) w') as [(rew & Hrew & _)|Hrew];
    [|by rewrite (run_bind_Raise _ _ _ _ _ Hrew)].
  rewrite (run_bind_Ok _ _ _ _ _ Hrew).
  destruct (by_agent_name_run n PlayerKey (step_done result) w') as [(dones & Hd & Hall)|Hd];
    [|by rewrite (run_bind_Raise _ _ _ _ _ Hd)].
  rewrite (run_bind_Ok _ _ _ _ _ Hd). rewrite Hall. by rewrite run_bind_or_raise_None.
Qed.

Lemma named_actions_Ok (n : nat) (actions : pydict string Action)
    (action_dict : pydict nat Action) (w : World G) :
  Forall2 (λ i entry, entry.1 = i ∧ dict_get (agent_name i) actions = Some entry.2)
          (range n) action_dict →
  comprehension (range n) (λ i,
    let* action := or_raise KeyError (dict_get (agent_name i) actions) in
    ret (i, action)) w = (Ok action_dict, w).
Proof.
  generalize (range n). intros l Hl.
  induction Hl as [|i [j action] l ad [Hi Hget] _ IH]; cbn [comprehension]; [reflexivity|].
  cbn [fst snd] in *. subst j. erewrite run_bind_Ok; [|by rewrite Hget].
  by rewrite (run_bind_Ok _ _ _ _ _ IH).
Qed.

(** X28: [PettingZooMusEnv.step] never returns. Its line
    [dones["__all__"] = dones["__all__"]] reads the key ['__all__'] in the
    dictionary the line before has built, whose keys are the agent names only:
    when every agent has an action and the step of the wrapped environment
    returns, the call ends in a [KeyError], the wrapped game having taken its
    step. *)
Theorem wrapper_step_raises_KeyError (fuel n : nat) (actions : pydict string Action)
    (w : World G) :
  (∀ r, (PettingZooMusEnv_step fuel n actions w).1 ≠ Ok r) ∧
  (∀ action_dict result w',
     Forall2 (λ i entry, entry.1 = i ∧ dict_get (agent_name i) actions = Some entry.2)
             (range n) action_dict →
     MusEnv_step fuel n action_dict w = (Ok result, w') →
     PettingZooMusEnv_step fuel n actions w = (Raise KeyError, w')).
Proof.
  split.
  - intros r Hr.
    destruct (named_actions_run n actions w) as [[action_dict| |] Hnamed].
    + destruct (MusEnv_step fuel n action_dict w) as [[result| |] w'] eqn:Hstep.
      * by rewrite (wrapper_step_after_inner _ _ _ _ _ _ _ Hnamed Hstep) in Hr.
      * unfold PettingZooMusEnv_step in Hr.
        by rewrite (run_bind_Ok _ _ _ _ _ Hnamed), (run_bind_Raise _ _ _ _ _ Hstep) in Hr.
      * unfold PettingZooMusEnv_step in Hr.
        by rewrite (run_bind_Ok _ _ _ _ _ Hnamed), (run_bind_OutOfFuel _ _ _ _ Hstep) in Hr.
    + unfold PettingZooMusEnv_step in Hr.
      by rewrite (run_bind_Raise _ _ _ _ _ Hnamed) in Hr.
    + unfold PettingZooMusEnv_step in Hr.
      by rewrite (run_bind_OutOfFuel _ _ _ _ Hnamed) in Hr.
  - intros action_dict result w' Hnamed Hstep.
    eapply wrapper_step_after_inner; [by apply named_actions_Ok|done].
Qed.

End Wrapper.

(** Four agents with empty actions on a freshly dealt game of four. *)
Lemma wrapper_step_raises_KeyError_witness :
  (PettingZooMusEnv_step 2 4 ((λ i, (agent_name i, empty_action)) <$> range 4) dealt_game).1
  = Raise KeyError.
Proof.
  pose proof (proj2 (wrapper_step_raises_KeyError 2 4
                       ((λ i, (agent_name i, empty_action)) <$> range 4) dealt_game)
                    ((λ i, (i, empty_action)) <$> range 4)) as Hraise.
  erewrite Hraise; [reflexivity| |vm_compute; reflexivity].
  repeat constructor.
Defined.

(** ** The match *)

Lemma hoare_any {S A} (m : M S A) : hoare (λ _, True) m (λ _ _, True) (λ _, True).
Proof. intros s _. by destruct (m s) as [[?| |] ?]. Qed.

Section Match.
Context {G : Type} `{RandomSource G} `{SetOrder G}.

Lemma partial_game_run_result (fuel : nat) :
  hoare (λ _ : World G, True) (partial_game_run fuel)
        (λ r _, r = Some 0 ∨ r = Some 1 ∨ r = None) (λ _, True).
Proof.
  unfold partial_game_run.
  eapply hoare_bind; [apply hoare_any|]. intros u.
  eapply hoare_bind; [apply hoare_any|]. intros self. cbv zeta.
  eapply hoare_bind; [apply hoare_any|]. intros u'.
  eapply hoare_bind; [apply hoare_any|]. intros team0.
  eapply hoare_bind; [apply hoare_any|]. intros self'.
  repeat case_match; apply hoare_ret; intros; tauto.
Qed.

Lemma play_partial_game_effect (fuel : nat) (m : MusMatch * G) :
  ∃ o game g', play_partial_game fuel m = (o, (with_current_game game m.1, g')) ∧
               ∀ r, o = Ok r → r = Some 0 ∨ r = Some 1 ∨ r = None.
Proof.
  unfold play_partial_game.
  pose proof (partial_game_run_result fuel
                (MusGame_init (match_num_players m.1) (match_target_score m.1) (1 # 5) m.2) I)
    as Hr.
  destruct (partial_game_run fuel _) as [o [game g']]. cbn [fst snd].
  exists o, (Some game), g'. split; [done|]. by intros r ->.
Qed.

Lemma play_match_run (games fuel : nat) (m : MusMatch * G) (winner : nat) (score : Z * Z) :
  ((match_score m.1).1 ≤ match_games m.1)%Z →
  ((match_score m.1).2 ≤ match_games m.1)%Z →
  ((match_score m.1).1 < match_games m.1 ∨ (match_score m.1).2 < match_games m.1)%Z →
  (play_match games fuel m).1 = Ok (winner, score) →
  ((match_score m.1).1 ≤ score.1 ∧ (match_score m.1).2 ≤ score.2)%Z ∧
  (winner = 0 ∧ score.1 = match_games m.1 ∧ (score.2 < match_games m.1)%Z
   ∨ winner = 1 ∧ score.2 = match_games m.1 ∧ (score.1 < match_games m.1)%Z).
Proof.
  revert m. induction games as [|games IH]; intros [mm g]; cbn [fst snd]; [done|].
  intros H1 H2 H12. cbn [play_match fst].
  destruct ((match_score mm).1 <? match_games mm)%Z eqn:Hlt1;
    [destruct ((match_score mm).2 <? match_games mm)%Z eqn:Hlt2|]; cbn [andb].
  - apply Z.ltb_lt in Hlt1, Hlt2.
    destruct (play_partial_game_effect fuel (mm, g)) as (o & game & g' & Hp & Ho).
    cbn [fst] in Hp.
    destruct o as [r| |]; [|by rewrite (run_bind_Raise _ _ _ _ _ Hp)
                           |by rewrite (run_bind_OutOfFuel _ _ _ _ Hp)].
    rewrite (run_bind_Ok _ _ _ _ _ Hp).
    destruct (Ho r eq_refl) as [->|[->| ->]].
    + erewrite run_bind_Ok; [|reflexivity]. intros Hrun.
      apply IH in Hrun; cbn [fst snd with_match_score with_current_game match_score
                              match_games] in *; lia.
    + erewrite run_bind_Ok; [|reflexivity]. intros Hrun.
      apply IH in Hrun; cbn [fst snd with_match_score with_current_game match_score
                              match_games] in *; lia.
    + rewrite run_bind_ret. intros Hrun.
      apply IH in Hrun; cbn [fst snd with_match_score with_current_game match_score
                              match_games] in *; lia.
  - apply Z.ltb_lt in Hlt1. apply Z.ltb_ge in Hlt2.
    rewrite (proj2 (Z.leb_gt _ _) Hlt1). cbn [fst]. intros [= <- <-]. lia.
  - apply Z.ltb_ge in Hlt1. rewrite (proj2 (Z.leb_le _ _) Hlt1). cbn [fst].
    intros [= <- <-]. lia.
Qed.

(** X29: what [MusMatch.play_match] returns. On a new match with a positive
    [match_games], a returned [(overall_winner, match_score)] names team 0 or
    team 1, the winner's count of partial games is exactly [match_games] and
    the other team's is lower. With [match_games <= 0] the loop body never
    runs: no partial game is played and team 0 is returned as the winner with
    the score 0 to 0. *)
Theorem play_match_winner_has_the_games (games fuel num_players : nat)
    (target_score match_games : Z) (g : G) :
  ((0 < match_games)%Z →
   ∀ winner score,
     (play_match games fuel (MusMatch_init num_players target_score match_games, g)).1
     = Ok (winner, score) →
     winner = 0 ∧ score.1 = match_games ∧ (0 ≤ score.2 < match_games)%Z
     ∨ winner = 1 ∧ score.2 = match_games ∧ (0 ≤ score.1 < match_games)%Z) ∧
  ((match_games ≤ 0)%Z →
   play_match (S games) fuel (MusMatch_init num_players target_score match_games, g)
   = (Ok (0, (0, 0)%Z), (MusMatch_init num_players target_score match_games, g))).
Proof.
  split.
  - intros Hpos winner score Hrun.
    apply play_match_run in Hrun; unfold MusMatch_init in *; simpl in *; lia.
  - intros Hle. unfold MusMatch_init. cbn [play_match]. simpl.
    rewrite (proj2 (Z.ltb_ge _ _) Hle). cbn [andb].
    by rewrite (proj2 (Z.leb_le _ _) Hle).
Qed.

End Match.

(** A match of four players to two partial games, won 2 to 0 by team 0. *)
Lemma play_match_winner_has_the_games_witness :
  ∃ winner score,
    (play_match 8 2 (MusMatch_init 4 40 2, 3)).1 = Ok (winner, score) ∧
    (winner = 0 ∧ score.1 = 2%Z ∧ (0 ≤ score.2 < 2)%Z
     ∨ winner = 1 ∧ score.2 = 2%Z ∧ (0 ≤ score.1 < 2)%Z).
Proof.
  exists 0, (2, 0)%Z. split; [vm_compute; reflexivity|].
  apply (proj1 (play_match_winner_has_the_games 8 2 4 40 2 3)); [lia|].
  vm_compute. reflexivity.
Defined.

(** ** The environment: the numbers of players it can be created with *)

Lemma others_length {G : Type} `{SetOrder G} (site : SetSite) (w : World G) (m n : nat) :
  m < n →
  n - 2 ≤ length (set_order site w
                    (list_to_set (range n) ∖ ({[ m; (m + 2) mod n ]} : gset nat))).
Proof.
  intros Hm. rewrite set_order_elements.
  change (n - 2 ≤ size (list_to_set (range n) ∖ ({[ m; (m + 2) mod n ]} : gset nat))).
  rewrite size_difference.
  - rewrite size_list_to_set by apply NoDup_seq. unfold range. rewrite length_seq.
    rewrite size_union_alt, size_singleton.
    assert (({[(m + 2) mod n]} : gset nat) ∖ {[m]} ⊆ {[(m + 2) mod n]}) as Hle.
    { intros q Hq. by apply elem_of_difference in Hq as [? _]. }
    apply subseteq_size in Hle.
    rewrite size_singleton in Hle. lia.
  - intros q [->| ->]%elem_of_team0; apply elem_of_list_to_set, elem_of_seq.
    + lia.
    + pose proof (Nat.mod_upper_bound (m + 2) n). lia.
Qed.

Lemma comprehension_keyed_Ok {S A B} (l : list A) (f : A → M S B) (s : S) :
  (∀ x, x ∈ l → ∃ y, f x s = (Ok y, s)) →
  ∃ ys, comprehension l (λ x, let* y := f x in ret (x, y)) s = (Ok ys, s) ∧ ys.*1 = l.
Proof.
  induction l as [|x l IH]; intros Hf; cbn [comprehension].
  - by exists [].
  - destruct (Hf x ltac:(left)) as [y Hy].
    destruct IH as (ys & Hys & Hkeys); [intros z Hz; apply Hf; by right|].
    exists ((x, y) :: ys). split; [|cbn; by rewrite Hkeys].
    erewrite run_bind_Ok; [|by rewrite (run_bind_Ok _ _ _ _ _ Hy)].
    by rewrite (run_bind_Ok _ _ _ _ _ Hys).
Qed.

Lemma comprehension_keyed_Raise {S A B} (l : list A) (f : A → M S B) (s : S) (e : PyExn) :
  (∀ x, x ∈ l → (∃ y, f x s = (Ok y, s)) ∨ f x s = (Raise e, s)) →
  (∃ x, x ∈ l ∧ f x s = (Raise e, s)) →
  comprehension l (λ x, let* y := f x in ret (x, y)) s = (Raise e, s).
Proof.
  induction l as [|x l IH]; intros Hf (x0 & Hin & Hx0); [by apply elem_of_nil in Hin|].
  cbn [comprehension].
  destruct (Hf x ltac:(left)) as [[y Hy]|Hx].
  - erewrite run_bind_Ok; [|by rewrite (run_bind_Ok _ _ _ _ _ Hy)].
    erewrite run_bind_Raise; [done|]. apply IH; [intros z Hz; apply Hf; by right|].
    apply elem_of_cons in Hin as [->|Hin]; [congruence|by exists x0].
  - erewrite run_bind_Raise; [done|]. by rewrite (run_bind_Raise _ _ _ _ _ Hx).
Qed.

Section PlayerCounts.
Context {G : Type} `{RandomSource G} `{SetOrder G}.

Lemma get_covert_signal_run (s : MusGame) (g : G) (m player : nat) :
  mano s = Some m → m < num_players s →
  on_team0 s m player ∨ 4 ≤ num_players s →
  ∃ signal, get_covert_signal player (s, g) = (Ok signal, (s, g)).
Proof.
  intros Hm Hlt Hcase. unfold get_covert_signal.
  rewrite (run_bind_Ok _ _ _ _ _ (team0_of_run s g m Hm ltac:(lia))).
  rewrite run_bind_get_self. cbn [fst].
  destruct (decide (player ∈ ({[ m; (m + 2) mod num_players s ]} : gset nat)))
    as [Hin|Hnin].
  - rewrite Hm.
    rewrite (run_bind_Ok _ _ (s, g) (s, g)
               (if decide (player ≠ m) then m else (m + 2) mod num_players s));
      [|rewrite run_bind_or_raise_Some; by destruct (decide _)].
    rewrite run_bind_get_self. by eexists.
  - destruct Hcase as [Hon|Hn]; [by elim Hnin; apply elem_of_team0|].
    pose proof (others_length OtherPlayers (s, g) m (num_players s) Hlt) as Hlen.
    destruct (set_order OtherPlayers (s, g)
                (list_to_set (range (num_players s))
                   ∖ ({[ m; (m + 2) mod num_players s ]} : gset nat)))
      as [|first [|second rest]] eqn:Hothers; [cbn [length] in Hlen; lia..|].
    destruct (decide (player = second)) as [Heq|Hne].
    + erewrite run_bind_Ok; cycle 1.
      { rewrite (run_bind_Ok _ _ _ _ _ (team1_of_run _ s g)), run_bind_set_iter.
        rewrite Hothers. cbn [lookup list_lookup]. rewrite run_bind_or_raise_Some.
        rewrite decide_True by done. reflexivity. }
      rewrite run_bind_get_self. by eexists.
    + erewrite run_bind_Ok; cycle 1.
      { rewrite (run_bind_Ok _ _ _ _ _ (team1_of_run _ s g)), run_bind_set_iter.
        rewrite Hothers. cbn [lookup list_lookup]. rewrite run_bind_or_raise_Some.
        rewrite decide_False by done. reflexivity. }
      rewrite run_bind_get_self. by eexists.
Qed.

Lemma get_observation_run (s : MusGame) (g : G) (m player : nat) (hand : list Card)
    (seen : gset nat) :
  mano s = Some m → m < num_players s →
  on_team0 s m player ∨ 4 ≤ num_players s →
  hands s !! player = Some hand →
  intercepted_signals s !! player = Some seen →
  (∀ q, q ∈ seen → is_Some (covert_signals s !! q)) →
  ∃ observation, get_observation player (s, g) = (Ok observation, (s, g)).
Proof.
  intros Hm Hlt Hcase Hhand Hseen Hcov. unfold get_observation.
  rewrite run_bind_get_self. cbn [fst]. rewrite Hhand, run_bind_or_raise_Some. cbv zeta.
  destruct (get_covert_signal_run s g m player Hm Hlt Hcase) as [signal Hsignal].
  rewrite (run_bind_Ok _ _ _ _ _ Hsignal).
  destruct (get_intercepted_signals_run player seen (s, g) Hseen Hcov) as (d & Hrun & _).
  rewrite (run_bind_Ok _ _ _ _ _ Hrun), run_bind_get_self. by eexists.
Qed.

Lemma get_observation_no_partner (s : MusGame) (g : G) (m player : nat) (hand : list Card) :
  num_players s = 2 ∨ num_players s = 3 → mano s = Some m → m < num_players s →
  ¬ on_team0 s m player →
  hands s !! player = Some hand →
  get_observation player (s, g) = (Raise IndexError, (s, g)).
Proof.
  intros Hn Hm Hlt Hteam Hhand. unfold get_observation.
  rewrite run_bind_get_self. cbn [fst]. rewrite Hhand, run_bind_or_raise_Some. cbv zeta.
  by rewrite (run_bind_Raise _ _ _ _ _
                (get_covert_signal_no_partner (s, g) m player Hn Hm Hlt Hteam)).
Qed.

Lemma reset_run (n : nat) (w : World G) :
  (n ≤ 1 ∨ 4 ≤ n ≤ 10 →
   ∃ observations w', MusEnv_reset n w = (Ok observations, w') ∧
                      observations.*1 = range n) ∧
  (2 ≤ n ≤ 3 ∨ 10 < n → ∃ w', MusEnv_reset n w = (Raise IndexError, w')).
Proof.
  unfold MusEnv_reset.
  assert (new_game n w = (Ok tt, MusGame_init n 40 (1 # 5) w.2)) as Hnew by done.
  rewrite (run_bind_Ok _ _ _ _ _ Hnew).
  destruct (decide (n = 0)) as [->|Hpos].
  { split; [|lia]. intros _. eexists [], _. split; [|done]. reflexivity. }
  destruct (decide (n ≤ 10)) as [Hten|Hten]; cycle 1.
  { split; [lia|]. intros _.
    destruct (first_deal_beyond_ten_run n 40 (1 # 5) w.2 ltac:(lia)) as (w' & Hdeal & _).
    exists w'. by rewrite (run_bind_Raise _ _ _ _ _ Hdeal). }
  destruct (initial_deal_run n 40 (1 # 5) w.2 ltac:(lia) Hten) as (m & Hm & _ & _ & Hdeal).
  cbv zeta in Hdeal. rewrite (run_bind_Ok _ _ _ _ _ Hdeal).
  set (w0 := MusGame_init n 40 (1 # 5) w.2) in *.
  set (s' := with_hands_revealed (Some false) _).
  assert (num_players s' = n) as Hnum by done.
  assert (mano s' = Some m) as Hmano by done.
  assert (∀ p, p < n → hands s' !! p = Some (take 4 (drop (4 * p) (deck w0.1)))) as Hh.
  { intros p Hp. subst s'. game_simpl. by rewrite dealt_hands_lookup, decide_True by lia. }
  assert (∀ p, p < n → intercepted_signals s' !! p = Some ∅) as Hi.
  { intros p Hp. subst s'. game_simpl. by apply (lookup_init_map n). }
  assert (∀ p, p < n → on_team0 s' m p ∨ 4 ≤ n →
               ∃ o, get_observation p (s', w0.2) = (Ok o, (s', w0.2))) as Hok.
  { intros p Hp Hcase.
    apply (get_observation_run s' w0.2 m p (take 4 (drop (4 * p) (deck w0.1))) ∅);
      rewrite ?Hnum; auto.
    intros q Hq. by apply elem_of_empty in Hq. }
  split.
  - intros Hn.
    destruct (comprehension_keyed_Ok (range n) get_observation (s', w0.2))
      as (observations & Hrun & Hkeys).
    { intros p Hp%elem_of_seq. apply Hok; [lia|].
      destruct Hn as [Hn|Hn]; [left|right; lia].
      left. lia. }
    by exists observations, (s', w0.2).
  - intros Hn. exists (s', w0.2).
    apply comprehension_keyed_Raise.
    + intros p Hp%elem_of_seq.
      destruct (decide (on_team0 s' m p)) as [Hon|Hoff].
      * left. apply Hok; [lia|by left].
      * right.
        apply (get_observation_no_partner s' w0.2 m p (take 4 (drop (4 * p) (deck w0.1))));
          rewrite ?Hnum; [lia|done|done|done|apply Hh; lia].
    + exists ((m + 1) mod n). split; [apply elem_of_seq; pose proof (Nat.mod_upper_bound (m + 1) n); lia|].
      eapply (get_observation_no_partner s' w0.2 m); rewrite ?Hnum; [lia|done|done| |].
      * unfold on_team0. rewrite Hnum.
        assert (n = 2 ∨ n = 3) as [-> | ->] by lia.
        -- destruct m as [|[|?]]; [..|lia]; cbn; lia.
        -- destruct m as [|[|[|?]]]; [..|lia]; cbn; lia.
      * apply Hh. pose proof (Nat.mod_upper_bound (m + 1) n); lia.
Qed.

(** X30: the numbers of players [MusEnv] works with. [MusEnv.reset] (which
    the constructor calls) returns one observation per player, in player
    order, when [num_players] is 0, 1 or from 4 to 10. With 2 or 3 players it
    raises [IndexError] when the observation of a player outside mano's team
    is built, and with more than 10 it raises [IndexError] in the first deal,
    whatever the random generator does. *)
Theorem reset_works_for_some_player_counts (n : nat) (w : World G) :
  (n ≤ 1 ∨ 4 ≤ n ≤ 10 →
   ∃ observations w', MusEnv_reset n w = (Ok observations, w') ∧
                      observations.*1 = range n) ∧
  (2 ≤ n ≤ 3 ∨ 10 < n → ∃ w', MusEnv_reset n w = (Raise IndexError, w')).
Proof. apply reset_run. Qed.

End PlayerCounts.
